(** * precise-money: the BigInt decimal-math core (core.ts)

    A shallow embedding of [packages/precise-money/src/core.ts] and the
    properties its specification states about it.

    Conventions of the embedding.
    - A JavaScript [bigint] is a [Z]; BigInt [/] and [%] truncate toward
      zero, so they are [Z.quot] and [Z.rem].
    - A [number] that is used as a count of decimals is carried as the
      integer it holds ([Z]); the guard [!Number.isInteger(d) || d < 0]
      keeps its [d < 0] half, the other half being discharged by the type.
    - A [number] that is a basis-point argument is a [number] below: NaN,
      the two infinities, or a finite value given as an exact rational.
    - A string is the list of its UTF-16 code units ([N]).
    - [throw new Error(..)] is the [Err] case of [result]. *)

From Stdlib Require Import String Ascii.
From Stdlib Require Import ZArith Zquot NArith QArith List Bool Lia.
From Equations Require Import Equations.
Import ListNotations.

#[local] Open Scope Z_scope.

(* ===================================================================== *)
(** ** Failures *)
(* ===================================================================== *)

(** One constructor for each family of messages the source throws, named
    after the error kinds of the specification, and two for the exceptions
    the BigInt constructor raises by itself. *)
Inductive error : Type :=
| EmptyAmount          (* 'empty amount' *)
| InvalidAmountFormat  (* `invalid amount: ${x}` *)
| InvalidDecimals      (* '...: decimals must be non-negative integer(s)', 'scale must be ...' *)
| Pow10Argument        (* 'pow10 expects non-negative integer' *)
| DivisionByZero       (* 'division by zero' *)
| NegativePrice        (* 'negative price not allowed' *)
| InvalidBps           (* 'slippageBps must be >= 0' *)
| InvalidLotSize       (* 'lotSizeMinor must be > 0' *)
| InvalidQuantity      (* 'avgFiatPricePerUnit: filledQtyMinor must be > 0' *)
| RangeError           (* BigInt(x) on a number that is not an integer *)
| SyntaxError.         (* BigInt(s) on a string that is not a numeral *)

Inductive result (A : Type) : Type :=
| Ok (a : A)
| Err (e : error).
Arguments Ok {A} a.
Arguments Err {A} e.

Definition bind {A B : Type} (m : result A) (k : A -> result B) : result B :=
  match m with
  | Ok a => k a
  | Err e => Err e
  end.

Notation "'do' x <- m ; k" := (bind m (fun x => k))
  (at level 10, x name, m at level 100, k at level 200).

Definition is_ok {A : Type} (m : result A) : bool :=
  match m with Ok _ => true | Err _ => false end.

(* ===================================================================== *)
(** ** Rounding modes and the power-of-ten cache *)
(* ===================================================================== *)

(** [type Rounding = 'floor' | 'ceil' | 'round' | 'bankers'] *)
Inductive Rounding : Type := Floor | Ceil | Round | Bankers.

(** The literal types [1n | -1n] and [-1 | 1] of a sign. *)
Inductive Sign : Type := Plus | Minus.

Definition sign_Z (s : Sign) : Z :=
  match s with Plus => 1 | Minus => -1 end.

Definition BPS_BASE : Z := 10000.

(** [const POW10 = Array.from({ length: 39 }, (_, i) => 10n ** BigInt(i))] *)
Definition POW10 : list Z := map (fun i => 10 ^ Z.of_nat i) (seq 0 39).

(** [pow10(n)]: the cached entry below 39, the power itself from there on. *)
Definition pow10 (n : Z) : result Z :=
  if n <? 0 then Err Pow10Argument
  else Ok (if n <? Z.of_nat (length POW10)
           then nth (Z.to_nat n) POW10 0
           else 10 ^ n).

Definition absBig (x : Z) : Z := if x <? 0 then - x else x.

(* ===================================================================== *)
(** ** The rounding engine *)
(* ===================================================================== *)

Definition divRound (n d : Z) (mode : Rounding) : result Z :=
  if d =? 0 then Err DivisionByZero
  else
    let q := Z.quot n d in
    let r := Z.rem n d in
    if r =? 0 then Ok q
    else
      let sign := if Bool.eqb (0 <? n) (0 <? d) then 1 else -1 in
      match mode with
      | Floor => Ok (if sign <? 0 then q - 1 else q)
      | Ceil => Ok (if 0 <? sign then q + 1 else q)
      | Round => Ok (if absBig d <=? absBig (r * 2) then q + sign else q)
      | Bankers =>
          let twice := absBig (r * 2) in
          if absBig d <? twice then Ok (q + sign)
          else if twice <? absBig d then Ok q
          else Ok (if Z.rem q 2 =? 0 then q else q + sign)
      end.

Definition roundAdjust (base : Z) (sign : Sign) (mode : Rounding) : Z :=
  match mode with
  | Ceil => if 0 <? sign_Z sign then base + 1 else base
  | Round => base + sign_Z sign
  | Bankers => if Z.rem base 2 =? 0 then base else base + sign_Z sign
  | Floor => base
  end.

(** [scaleUnits(u, fromDec, toDec, opts?)]; [mode] is [opts?.mode]. *)
Definition scaleUnits (u fromDec toDec : Z) (mode : option Rounding) : result Z :=
  if (fromDec <? 0) || (toDec <? 0) then Err InvalidDecimals
  else if fromDec =? toDec then Ok u
  else if fromDec <? toDec then
    do p <- pow10 (toDec - fromDec); Ok (u * p)
  else
    do p <- pow10 (fromDec - toDec);
    divRound u p (match mode with Some m => m | None => Floor end).

(* ===================================================================== *)
(** ** JavaScript numbers, as far as the basis-point functions use them *)
(* ===================================================================== *)

(** A finite double is an exact rational; the two zeros are not told
    apart, which no function here does either ([BigInt(-0)] is [0n]). *)
Inductive number : Type :=
| NaN
| PosInf
| NegInf
| Fin (q : Q).

Definition Number_isFinite (x : number) : bool :=
  match x with Fin _ => true | _ => false end.

(** [x < 0] *)
Definition number_ltb0 (x : number) : bool :=
  match x with
  | NaN | PosInf => false
  | NegInf => true
  | Fin q => Qnum q <? 0
  end.

Definition Qtrunc (q : Q) : Z := Z.quot (Qnum q) (Z.pos (Qden q)).

Definition Math_trunc (x : number) : number :=
  match x with
  | Fin q => Fin (inject_Z (Qtrunc q))
  | other => other
  end.

Definition Math_min (a b : number) : number :=
  match a, b with
  | NaN, _ | _, NaN => NaN
  | NegInf, _ | _, NegInf => NegInf
  | PosInf, y => y
  | x, PosInf => x
  | Fin p, Fin q => if Qle_bool p q then Fin p else Fin q
  end.

Definition Math_max (a b : number) : number :=
  match a, b with
  | NaN, _ | _, NaN => NaN
  | PosInf, _ | _, PosInf => PosInf
  | NegInf, y => y
  | x, NegInf => x
  | Fin p, Fin q => if Qle_bool p q then Fin q else Fin p
  end.

(** [BigInt(x)] for a number: a RangeError unless [x] is an integer. *)
Definition BigInt_of_number (x : number) : result Z :=
  match x with
  | Fin q => if Z.rem (Qnum q) (Z.pos (Qden q)) =? 0 then Ok (Qtrunc q)
             else Err RangeError
  | _ => Err RangeError
  end.

Definition number_of_Z (z : Z) : number := Fin (inject_Z z).

(** An argument of type [bigint | number]. *)
Inductive bigint_or_number : Type :=
| IsBigint (z : Z)
| IsNumber (x : number).

(** [typeof b === 'number' ? BigInt(b) : b] *)
Definition to_bigint (b : bigint_or_number) : result Z :=
  match b with
  | IsBigint z => Ok z
  | IsNumber x => BigInt_of_number x
  end.

(* ===================================================================== *)
(** ** Basis points and slippage *)
(* ===================================================================== *)

Definition applySlippage (amountOutMinor : Z) (slippageBps : number) : result Z :=
  if negb (Number_isFinite slippageBps) || number_ltb0 slippageBps
  then Err InvalidBps
  else
    do t <- BigInt_of_number (Math_trunc slippageBps);
    let num := BPS_BASE - t in
    Ok (Z.quot (amountOutMinor * num) BPS_BASE).

Definition minOutForExactIn (amountOutMinor : Z) (slippageBps : number) : result Z :=
  applySlippage amountOutMinor slippageBps.

Definition mulDiv (a : Z) (b c : bigint_or_number) (mode : Rounding) : result Z :=
  do bb <- to_bigint b;
  do cc <- to_bigint c;
  if cc =? 0 then Err DivisionByZero
  else divRound (a * bb) cc mode.

Definition applyBps (units : Z) (bps : number) (mode : Rounding) : result Z :=
  mulDiv units (IsNumber (Math_trunc bps)) (IsBigint BPS_BASE) mode.

Definition clampBps (bps : number) : number :=
  Math_max (number_of_Z 0) (Math_min (number_of_Z 10000) (Math_trunc bps)).

Definition slippageDown (amountMinor : Z) (bps : number) : result Z :=
  do b <- BigInt_of_number (clampBps bps);
  Ok (Z.quot (amountMinor * (BPS_BASE - b)) BPS_BASE).

Definition slippageUp (amountMinor : Z) (bps : number) : result Z :=
  do b <- BigInt_of_number (clampBps bps);
  let num := amountMinor * (BPS_BASE + b) in
  let q := Z.quot num BPS_BASE in
  let r := Z.rem num BPS_BASE in
  Ok (if r =? 0 then q else q + 1).

(* ===================================================================== *)
(** ** Lot splitting *)
(* ===================================================================== *)

(** The [while (left >= lotSizeMinor)] loop of [splitAmount].  It is only
    entered behind the guard [lotSizeMinor <= 0n], which is what makes it
    terminate: the loop is defined under that guard's negation. *)
Section SplitLoop.

Variable lotSizeMinor : Z.
Hypothesis lot_positive : 0 < lotSizeMinor.

Equations? splitLoop (leftMinor : Z) (chunks : list Z) : Z * list Z
  by wf (Z.to_nat (leftMinor - lotSizeMinor + 1)) lt :=
  splitLoop leftMinor chunks with Z_le_dec lotSizeMinor leftMinor := {
    | left _ := splitLoop (leftMinor - lotSizeMinor) (chunks ++ [lotSizeMinor]);
    | right _ := (leftMinor, chunks) }.
Proof. lia. Qed.

End SplitLoop.

Definition splitAmount (totalMinor lotSizeMinor : Z) : result (list Z) :=
  match Z_lt_dec 0 lotSizeMinor with
  | right _ => Err InvalidLotSize
  | left lot_positive =>
      let '(leftMinor, chunks) := splitLoop lotSizeMinor lot_positive totalMinor [] in
      Ok (if 0 <? leftMinor then chunks ++ [leftMinor] else chunks)
  end.

(* ===================================================================== *)
(** ** Strings *)
(* ===================================================================== *)

(** A string value: its UTF-16 code units. *)
Definition jsstring : Type := list N.

(** An ASCII literal as a string value. *)
Definition lit (s : String.string) : jsstring :=
  map N_of_ascii (String.list_ascii_of_string s).
Arguments lit s%_string.

#[local] Open Scope N_scope.

Definition c_plus : N := 43.
Definition c_comma : N := 44.
Definition c_minus : N := 45.
Definition c_dot : N := 46.
Definition c_zero : N := 48.
Definition c_underscore : N := 95.

(** The class [\d]: the ten ASCII digits. *)
Definition is_digit (c : N) : bool := (48 <=? c) && (c <=? 57).

(** The class [\s], which is also what [trim] removes: WhiteSpace and
    LineTerminator of ECMAScript. *)
Definition is_space (c : N) : bool :=
  ((9 <=? c) && (c <=? 13))          (* TAB LF VT FF CR *)
  || (c =? 32) || (c =? 160)         (* SP NBSP *)
  || (c =? 5760)                     (* U+1680 *)
  || ((8192 <=? c) && (c <=? 8202))  (* U+2000 .. U+200A *)
  || (c =? 8232) || (c =? 8233)      (* LS PS *)
  || (c =? 8239) || (c =? 8287)      (* U+202F U+205F *)
  || (c =? 12288) || (c =? 65279).   (* U+3000 U+FEFF *)

(** The class [[.,\s]]. *)
Definition is_separator (c : N) : bool :=
  (c =? c_dot) || (c =? c_comma) || is_space c.

#[local] Close Scope N_scope.

Definition strlen (s : jsstring) : Z := Z.of_nat (length s).

Fixpoint dropWhile (p : N -> bool) (s : jsstring) : jsstring :=
  match s with
  | [] => []
  | c :: rest => if p c then dropWhile p rest else s
  end.

(** [s.trim()] *)
Definition trim (s : jsstring) : jsstring :=
  rev (dropWhile is_space (rev (dropWhile is_space s))).

(** [s.slice(start, end)], negative indices counting from the end. *)
Definition slice (s : jsstring) (start stop : Z) : jsstring :=
  let len := strlen s in
  let from := if start <? 0 then Z.max (len + start) 0 else Z.min start len in
  let to := if stop <? 0 then Z.max (len + stop) 0 else Z.min stop len in
  firstn (Z.to_nat (to - from)) (skipn (Z.to_nat from) s).

(** [s.slice(start)] *)
Definition slice_from (s : jsstring) (start : Z) : jsstring :=
  slice s start (strlen s).

(** [c.repeat(n)] for a one-unit string [c]. *)
Definition repeat_unit (c : N) (n : Z) : jsstring := repeat c (Z.to_nat n).

(** [s.padStart(target, c)] for a one-unit filler [c]. *)
Definition padStart (s : jsstring) (target : Z) (c : N) : jsstring :=
  repeat_unit c (target - strlen s) ++ s.

(** [s || '0'] *)
Definition or_zero (s : jsstring) : jsstring :=
  match s with
  | [] => [c_zero]
  | _ => s
  end.

Definition is_empty (s : jsstring) : bool :=
  match s with [] => true | _ => false end.

(** [s.lastIndexOf(c)]: the scan keeps the last index at which [c] was seen. *)
Fixpoint lastIndexOf_from (c : N) (s : jsstring) (i best : Z) : Z :=
  match s with
  | [] => best
  | x :: rest => lastIndexOf_from c rest (i + 1) (if N.eqb x c then i else best)
  end.

Definition lastIndexOf (c : N) (s : jsstring) : Z := lastIndexOf_from c s 0 (-1).

(** [s.split(sep)] for a one-unit separator: never the empty array. *)
Fixpoint split (sep : N) (s : jsstring) : list jsstring :=
  match s with
  | [] => [[]]
  | c :: rest =>
      if N.eqb c sep then [] :: split sep rest
      else match split sep rest with
           | p :: ps => (c :: p) :: ps
           | [] => [[c]]
           end
  end.

(** [/^\d+$/.test(s)] *)
Definition test_digits (s : jsstring) : bool :=
  negb (is_empty s) && forallb is_digit s.

(** [s.replace(/[.,\s]/g, '')] *)
Definition remove_separators (s : jsstring) : jsstring :=
  filter (fun c => negb (is_separator c)) s.

(** [s.replace(/^0+(?=\d)/, '')]: leading zeros go as long as a digit follows. *)
Fixpoint strip_leading_zeros (s : jsstring) : jsstring :=
  match s with
  | c :: ((c' :: _) as rest) =>
      if N.eqb c c_zero && is_digit c' then strip_leading_zeros rest else s
  | _ => s
  end.

(** *** Decimal numerals *)

Definition digit_value (c : N) : Z := Z.of_N c - 48.

Definition digit_char (d : Z) : N := Z.to_N (48 + d).

(** The value of a string of digits read in base ten. *)
Definition digits_value (s : jsstring) : Z :=
  fold_left (fun acc c => acc * 10 + digit_value c) s 0.

(** [BigInt(s)] where [s] is a string of decimal digits, the only strings
    [core.ts] passes to it; the empty string is [0n].  The other numeral
    forms of StringToBigInt (sign, radix prefix, surrounding white space)
    are not modelled and are reported here as the SyntaxError that a
    malformed numeral raises. *)
Definition BigInt_of_string (s : jsstring) : result Z :=
  if forallb is_digit s then Ok (digits_value s) else Err SyntaxError.

(** [Number(s)] where [s] is a string of decimal digits. *)
Definition Number_of_digits (s : jsstring) : Z := digits_value s.

(** The digits of a non-negative integer, least significant first; [fuel]
    bounds their number. *)
Fixpoint digits_lsf (fuel : nat) (n : Z) : jsstring :=
  match fuel with
  | O => []
  | S fuel' =>
      if n <? 10 then [digit_char n]
      else digit_char (n mod 10) :: digits_lsf fuel' (n / 10)
  end.

(** [n.toString()] for a bigint: no leading zero, ['-'] in front of a
    negative one.  An integer has no more decimal than binary digits. *)
Definition BigInt_toString (n : Z) : jsstring :=
  let m := Z.abs n in
  let ds := rev (digits_lsf (S (Z.to_nat (Z.log2 m))) m) in
  if n <? 0 then c_minus :: ds else ds.

(* ===================================================================== *)
(** ** Parsing human input *)
(* ===================================================================== *)

Record ParsedAmount : Type := mkParsed {
  sign : Sign;
  int : jsstring;
  frac : jsstring
}.

(** [normalizeAmountInput(x)].  A number argument is first replaced by
    [String(x)]; the function is given that string. *)
Definition normalizeAmountInput (x : jsstring) : result ParsedAmount :=
  let s := trim x in
  if is_empty s then Err EmptyAmount
  else
    let '(sign, s) :=
      match s with
      | c :: rest =>
          if N.eqb c c_plus then (Plus, rest)
          else if N.eqb c c_minus then (Minus, rest)
          else (Plus, s)
      | [] => (Plus, s)
      end in
    let s := filter (fun c => negb (N.eqb c c_underscore))
                    (filter (fun c => negb (is_space c)) s) in
    let lastDot := lastIndexOf c_dot s in
    let lastComma := lastIndexOf c_comma s in
    let decSep :=
      if (0 <=? lastDot) || (0 <=? lastComma)
      then Some (if lastComma <? lastDot then c_dot else c_comma)
      else None in
    match decSep with
    | Some sep =>
        let parts := split sep s in
        let intPart := remove_separators (or_zero (hd [] parts)) in
        let fracPart := remove_separators (concat (tl parts)) in
        if negb (test_digits intPart)
           || (negb (is_empty fracPart) && negb (test_digits fracPart))
        then Err InvalidAmountFormat
        else
          let intNorm := or_zero (strip_leading_zeros intPart) in
          Ok (mkParsed sign intNorm fracPart)
    | None =>
        let digits := remove_separators s in
        if negb (test_digits digits) then Err InvalidAmountFormat
        else
          let intNorm := or_zero (strip_leading_zeros digits) in
          Ok (mkParsed sign intNorm [])
    end.

(* ===================================================================== *)
(** ** The minor-unit codec *)
(* ===================================================================== *)

(** [toMinor(human, decimals, opts?)]; [mode] is [opts?.mode]. *)
Definition toMinor (human : jsstring) (decimals : Z) (mode : option Rounding)
  : result Z :=
  if decimals <? 0 then Err InvalidDecimals
  else
    do p <- normalizeAmountInput human;
    let mode := match mode with Some m => m | None => Round end in
    let padded := slice (frac p ++ repeat_unit c_zero (decimals + 1)) 0 (decimals + 1) in
    let core := slice padded 0 decimals in
    let roundDigit := Number_of_digits (or_zero (slice padded decimals (decimals + 1))) in
    do i <- BigInt_of_string (int p);
    do scale <- pow10 decimals;
    do c <- BigInt_of_string (or_zero core);
    let base := i * scale + c in
    let base := if 0 <? roundDigit then roundAdjust base Plus mode else base in
    Ok (match sign p with Minus => - base | Plus => base end).

Definition fromMinor (minor decimals : Z) : result jsstring :=
  if decimals <? 0 then Err InvalidDecimals
  else
    let neg := minor <? 0 in
    let abs := if neg then - minor else minor in
    do scale <- pow10 decimals;
    let i := Z.quot abs scale in
    let f := padStart (BigInt_toString (Z.rem abs scale)) decimals c_zero in
    Ok ((if neg then [c_minus] else [])
        ++ (if decimals =? 0 then BigInt_toString i
            else BigInt_toString i ++ [c_dot] ++ f)).

(* ===================================================================== *)
(** ** Price ratios and display *)
(* ===================================================================== *)

Record PriceRatio : Type := mkRatio {
  num : Z;
  den : Z
}.

Definition priceRatioDecimals (quoteDecimals : Z) (priceStr : jsstring)
  : result PriceRatio :=
  if quoteDecimals <? 0 then Err InvalidDecimals
  else
    do n <- normalizeAmountInput priceStr;
    match sign n with
    | Minus => Err NegativePrice
    | Plus =>
        do num <- BigInt_of_string
                    (int n ++ slice (frac n ++ repeat_unit c_zero quoteDecimals)
                                    0 quoteDecimals);
        do den <- pow10 quoteDecimals;
        Ok (mkRatio num den)
    end.

Definition convertUnitsByDecimals (amountUnits fromDec toDec : Z)
  (price : PriceRatio) (mode : option Rounding) : result Z :=
  let mode := match mode with Some m => m | None => Round end in
  if (fromDec <? 0) || (toDec <? 0) then Err InvalidDecimals
  else
    let diff := toDec - fromDec in
    do scaleNum <- (if 0 <=? diff then pow10 diff else Ok 1);
    do scaleDen <- (if diff <? 0 then pow10 (- diff) else Ok 1);
    do inner <- mulDiv amountUnits (IsBigint (num price)) (IsBigint (den price)) mode;
    mulDiv inner (IsBigint scaleNum) (IsBigint scaleDen) mode.

(** [divToDecimalString(numer, denom, scale = 8)] *)
Definition divToDecimalString (numer denom : Z) (scale : option Z)
  : result jsstring :=
  let scale := match scale with Some s => s | None => 8 end in
  if denom =? 0 then Err DivisionByZero
  else if scale <? 0 then Err InvalidDecimals
  else
    let neg := negb (Bool.eqb (numer <? 0) (denom <? 0)) in
    let a := absBig numer in
    let b := absBig denom in
    do p <- pow10 scale;
    let scaled := a * p in
    let i := Z.quot scaled b in
    let s := padStart (BigInt_toString i) (scale + 1) c_zero in
    let head := or_zero (slice s 0 (- scale)) in
    let tail := slice_from s (- scale) in
    Ok ((if neg then [c_minus] else [])
        ++ head ++ (if 0 <? scale then c_dot :: tail else [])).

Definition avgFiatPricePerUnit (filledQtyMinor spentFiatMinor outDecimals
  fiatDecimals : Z) (scale : option Z) : result jsstring :=
  let scale := match scale with Some s => s | None => 8 end in
  if filledQtyMinor <=? 0 then Err InvalidQuantity
  else if outDecimals <? 0 then Err InvalidDecimals
  else if fiatDecimals <? 0 then Err InvalidDecimals
  else if scale <? 0 then Err InvalidDecimals
  else
    do po <- pow10 outDecimals;
    do pf <- pow10 fiatDecimals;
    divToDecimalString (spentFiatMinor * po) (filledQtyMinor * pf) (Some scale).

(* ===================================================================== *)
(** ** What the specification says, as definitions of its own *)
(* ===================================================================== *)

(** "sign = +1 if numerator and denominator share sign else -1" *)
Definition share_sign (n d : Z) : bool := Z.sgn n =? Z.sgn d.

(** The four policies of section 4.2, on the truncating quotient [q] and
    remainder [r]. *)
Definition divRound_policy (n d : Z) (mode : Rounding) : Z :=
  let q := Z.quot n d in
  let r := Z.rem n d in
  let sign := if share_sign n d then 1 else -1 in
  match mode with
  | Floor => if r =? 0 then q else if sign <? 0 then q - 1 else q
  | Ceil => if (0 <? sign) && negb (r =? 0) then q + 1 else q
  | Round => if Z.abs d <=? 2 * Z.abs r then q + sign else q
  | Bankers =>
      if Z.abs d <? 2 * Z.abs r then q + sign
      else if 2 * Z.abs r <? Z.abs d then q
      else if Z.odd q then q + sign else q
  end.

(** The mathematical floor and ceiling of [a / b]. *)
Definition floor_div (a b : Z) : Z := a / b.
Definition ceil_div (a b : Z) : Z := - ((- a) / b).

(** "truncates toward zero then clamps" to [0, 10000]; NaN has no clamp. *)
Definition clamp_bps_value (bps : number) : option Z :=
  match bps with
  | NaN => None
  | PosInf => Some 10000
  | NegInf => Some 0
  | Fin q => Some (Z.max 0 (Z.min 10000 (Qtrunc q)))
  end.

(** "one chunk of exactly lotSize each time it fits, then the leftover if
    it is strictly positive" *)
Definition lot_chunks (total lot : Z) : list Z :=
  let fits := Z.to_nat (total / lot) in
  let leftover := total - Z.of_nat fits * lot in
  repeat lot fits ++ (if 0 <? leftover then [leftover] else []).

Definition sum_chunks (chunks : list Z) : Z := fold_right Z.add 0 chunks.

(** The sentence of section 4.2 on [roundAdjust], read literally: no-op
    under [Floor], [sign] added unconditionally under [Ceil] and [Round],
    [sign] added under [Bankers] unless [base] is even. *)
Definition roundAdjust_claimed (base : Z) (sign : Sign) (mode : Rounding) : Z :=
  match mode with
  | Floor => base
  | Ceil | Round => base + sign_Z sign
  | Bankers => if Z.even base then base else base + sign_Z sign
  end.

(** "pads/truncates the fraction to exactly [k] digits (padding with zeros,
    truncating extra precision)" *)
Definition pad_or_truncate (f : jsstring) (k : Z) : jsstring :=
  if k <=? strlen f then firstn (Z.to_nat k) f
  else f ++ repeat c_zero (Z.to_nat (k - strlen f)).

(** The unsigned magnitude [int.frac] of a parsed amount scaled by
    [10^decimals] and truncated to an integer. *)
Definition truncated_magnitude (p : ParsedAmount) (decimals : Z) : Z :=
  (digits_value (int p ++ frac p) * 10 ^ decimals) / 10 ^ strlen (frac p).

(** The mathematical floor of the signed value scaled by [10^decimals]. *)
Definition floor_of_signed (p : ParsedAmount) (decimals : Z) : Z :=
  floor_div (sign_Z (sign p) * (digits_value (int p ++ frac p) * 10 ^ decimals))
            (10 ^ strlen (frac p)).

Definition starts_with_minus (s : jsstring) : bool :=
  match s with
  | c :: _ => N.eqb c c_minus
  | [] => false
  end.

Definition all_digits (s : jsstring) : Prop := forallb is_digit s = true.

(** *** Definitions used by the proofs *)

(** The value of a string of digits given least significant first. *)
Definition lsf_value (l : jsstring) : Z :=
  fold_right (fun c acc => digit_value c + 10 * acc) 0 l.

(** Strings without white space. *)
Definition no_space (s : jsstring) : Prop :=
  forallb (fun c => negb (is_space c)) s = true.

(** Settles the comparisons of a code unit whose range is known. *)
Ltac decide_N_tests :=
  repeat match goal with
    | |- context [N.eqb ?a ?b] =>
        first [ replace (N.eqb a b) with false by (symmetry; apply N.eqb_neq; lia)
              | replace (N.eqb a b) with true by (symmetry; apply N.eqb_eq; lia) ]
    | |- context [N.leb ?a ?b] =>
        first [ replace (N.leb a b) with false by (symmetry; apply N.leb_gt; lia)
              | replace (N.leb a b) with true by (symmetry; apply N.leb_le; lia) ]
    end.


(** *** The parser in two steps *)

(** The sign step of [normalizeAmountInput]. *)
Definition sign_split (s : jsstring) : Sign * jsstring :=
  match s with
  | c :: rest =>
      if N.eqb c c_plus then (Plus, rest)
      else if N.eqb c c_minus then (Minus, rest)
      else (Plus, s)
  | [] => (Plus, s)
  end.

(** What [normalizeAmountInput] does once the sign is taken off. *)
Definition parse_unsigned (sign : Sign) (s : jsstring) : result ParsedAmount :=
  let s := filter (fun c => negb (N.eqb c c_underscore))
                  (filter (fun c => negb (is_space c)) s) in
  let lastDot := lastIndexOf c_dot s in
  let lastComma := lastIndexOf c_comma s in
  let decSep :=
    if (0 <=? lastDot) || (0 <=? lastComma)
    then Some (if lastComma <? lastDot then c_dot else c_comma)
    else None in
  match decSep with
  | Some sep =>
      let parts := split sep s in
      let intPart := remove_separators (or_zero (hd [] parts)) in
      let fracPart := remove_separators (concat (tl parts)) in
      if negb (test_digits intPart)
         || (negb (is_empty fracPart) && negb (test_digits fracPart))
      then Err InvalidAmountFormat
      else
        let intNorm := or_zero (strip_leading_zeros intPart) in
        Ok (mkParsed sign intNorm fracPart)
  | None =>
      let digits := remove_separators s in
      if negb (test_digits digits) then Err InvalidAmountFormat
      else
        let intNorm := or_zero (strip_leading_zeros digits) in
        Ok (mkParsed sign intNorm [])
  end.

(** The other sign. *)
Definition flip (s : Sign) : Sign :=
  match s with Plus => Minus | Minus => Plus end.

(** A result with its value negated. *)
Definition negated (r : result Z) : result Z :=
  match r with
  | Ok v => Ok (- v)
  | Err e => Err e
  end.

(** The string a sign puts in front of a magnitude. *)
Definition sign_text (s : Sign) : jsstring :=
  match s with Plus => [] | Minus => [c_minus] end.

(** Splits the goal along every conditional in sight. *)
Ltac split_ifs :=
  repeat match goal with
    | H : context [if ?b then _ else _] |- _ => destruct b eqn:?
    | |- context [if ?b then _ else _] => destruct b eqn:?
    end.


(* ===================================================================== *)
(** ** The decimals registry (registry.ts) *)
(* ===================================================================== *)

(** A [Map<string, number>] as far as [get] and [set] go: [set] replaces
    the value of a key that is present and adds the key otherwise. *)
Definition JsMap : Type := list (jsstring * number).

Fixpoint map_get (k : jsstring) (m : JsMap) : option number :=
  match m with
  | [] => None
  | (k', v) :: rest =>
      if list_eq_dec N.eq_dec k k' then Some v else map_get k rest
  end.

Fixpoint map_set (k : jsstring) (v : number) (m : JsMap) : JsMap :=
  match m with
  | [] => [(k, v)]
  | (k', v') :: rest =>
      if list_eq_dec N.eq_dec k k' then (k, v) :: rest
      else (k', v') :: map_set k v rest
  end.

(** [type Chain = 'stellar' | 'evm' | 'solana' | 'cosmos'] *)
Inductive Chain : Type := Stellar | Evm | Solana | Cosmos.

Definition chain_text (c : Chain) : jsstring :=
  match c with
  | Stellar => lit "stellar"
  | Evm => lit "evm"
  | Solana => lit "solana"
  | Cosmos => lit "cosmos"
  end.

(** [type AssetId]; an optional field that is absent is [None]. *)
Record AssetId : Type := mkAssetId {
  chain : Chain;
  symbol : jsstring;
  address : option jsstring;
  issuer : option jsstring;
  chainId : option number
}.

(** The two module-level maps. *)
Record Registry : Type := mkRegistry {
  bySymbol : JsMap;
  byId : JsMap
}.

(** [parts.join(sep)] *)
Fixpoint join (sep : jsstring) (parts : list jsstring) : jsstring :=
  match parts with
  | [] => []
  | [p] => p
  | p :: rest => p ++ sep ++ join sep rest
  end.

(** [x ?? ''] for an optional string. *)
Definition or_empty (x : option jsstring) : jsstring :=
  match x with Some s => s | None => [] end.

(** A string is truthy when it is present and not empty. *)
Definition truthy (x : option jsstring) : bool :=
  match x with
  | Some (_ :: _) => true
  | _ => false
  end.

Section RegistryOperations.

(** [String.prototype.toUpperCase] and the conversion of a number to a
    string that [join] applies are taken as they come. *)
Variable toUpperCase : jsstring -> jsstring.
Variable Number_toString : number -> jsstring.

Definition idKey (id : AssetId) : jsstring :=
  join (lit ":")
       [chain_text (chain id);
        match chainId id with Some n => Number_toString n | None => [] end;
        toUpperCase (symbol id);
        or_empty (address id);
        or_empty (issuer id)].

Definition DEC_get (reg : Registry) (sym : jsstring) : option number :=
  map_get (toUpperCase sym) (bySymbol reg).

Definition DEC_set (reg : Registry) (sym : jsstring) (dec : number) : Registry :=
  mkRegistry (map_set (toUpperCase sym) dec (bySymbol reg)) (byId reg).

Definition DEC_getById (reg : Registry) (id : AssetId) : option number :=
  map_get (idKey id) (byId reg).

Definition DEC_setById (reg : Registry) (id : AssetId) (dec : number) : Registry :=
  mkRegistry (bySymbol reg) (map_set (idKey id) dec (byId reg)).

(** The registry once the module has been loaded. *)
Definition initial_registry : Registry :=
  DEC_set (DEC_set (DEC_set (DEC_set (mkRegistry [] []) (lit "BRL") (number_of_Z 2))
                            (lit "USD") (number_of_Z 2))
                   (lit "USDC") (number_of_Z 6))
          (lit "USDT") (number_of_Z 6).

(** The argument of [evmResolveDecimals]. *)
Record EvmParams : Type := mkEvmParams {
  evm_symbol : option jsstring;
  evm_address : option jsstring;
  evm_chainId : option number
}.

(** [evmResolveDecimals(params, fallback = 18)]; a nullish [params] is
    [None]. *)
Definition evmResolveDecimals (reg : Registry) (params : option EvmParams)
  (fallback : option number) : number :=
  let fallback := match fallback with Some f => f | None => number_of_Z 18 end in
  let '(sym, addr, cid) :=
    match params with
    | Some p => (evm_symbol p, evm_address p, evm_chainId p)
    | None => (None, None, None)
    end in
  let byIdHit :=
    match cid with
    | Some c =>
        if truthy addr
        then DEC_getById reg (mkAssetId Evm (or_empty sym) addr None (Some c))
        else None
    | None => None
    end in
  match byIdHit with
  | Some d => d
  | None =>
      let bySymHit := if truthy sym then DEC_get reg (or_empty sym) else None in
      match bySymHit with
      | Some d => d
      | None => fallback
      end
  end.

End RegistryOperations.

(* ===================================================================== *)
(** ** The chain adapters' codecs *)
(* ===================================================================== *)

Definition default_decimals (dflt : Z) (decimals : option Z) : Z :=
  match decimals with Some d => d | None => dflt end.

(** [evmToMinor(human, decimals = 18)] and [evmFromMinor] *)
Definition evmToMinor (human : jsstring) (decimals : option Z) : result Z :=
  toMinor human (default_decimals 18 decimals) None.
Definition evmFromMinor (minor : Z) (decimals : option Z) : result jsstring :=
  fromMinor minor (default_decimals 18 decimals).

(** [solanaToMinor(human, decimals = 9)] and [solanaFromMinor] *)
Definition solanaToMinor (human : jsstring) (decimals : option Z) : result Z :=
  toMinor human (default_decimals 9 decimals) None.
Definition solanaFromMinor (minor : Z) (decimals : option Z) : result jsstring :=
  fromMinor minor (default_decimals 9 decimals).

(** [cosmosToMinor(h, decimals = 6)] and [cosmosFromMinor] *)
Definition cosmosToMinor (h : jsstring) (decimals : option Z) : result Z :=
  toMinor h (default_decimals 6 decimals) None.
Definition cosmosFromMinor (u : Z) (decimals : option Z) : result jsstring :=
  fromMinor u (default_decimals 6 decimals).

(** The Stellar adapter: the classic ledger is always at 7 decimals. *)
Definition stellarClassicToMinor (h : jsstring) : result Z := toMinor h 7 None.
Definition stellarClassicFromMinor (u : Z) : result jsstring := fromMinor u 7.
Definition stellarToMinor (h : jsstring) (decimals : option Z) : result Z :=
  toMinor h (default_decimals 7 decimals) None.
Definition stellarFromMinor (u : Z) (decimals : option Z) : result jsstring :=
  fromMinor u (default_decimals 7 decimals).

(* ===================================================================== *)
(** * The repository's tests, run on the embedding *)
(* ===================================================================== *)

Example test_scaleUnits :
  scaleUnits 12500 2 7 None = Ok (12500 * 100000)
  /\ scaleUnits 1250000000 7 2 None = Ok 12500
  /\ scaleUnits 1 3 1 (Some Ceil) = Ok 1
  /\ scaleUnits 1 3 1 None = Ok 0.
Proof. repeat split. Qed.

Example test_toMinor_rounding :
  toMinor (lit "1.2345") 3 None = Ok 1235
  /\ toMinor (lit "1.2345") 3 (Some Floor) = Ok 1234
  /\ toMinor (lit "1.2345") 3 (Some Ceil) = Ok 1235
  /\ toMinor (lit "1.2345") 3 (Some Bankers) = Ok 1234
  /\ toMinor (lit "1.2335") 3 (Some Bankers) = Ok 1234
  /\ toMinor (lit "-1.2345") 3 None = Ok (-1235)
  /\ toMinor (lit "-1.2345") 3 (Some Floor) = Ok (-1234)
  /\ toMinor (lit "-1.2345") 3 (Some Ceil) = Ok (-1235).
Proof. repeat split. Qed.

Example test_normalizeAmountInput :
  normalizeAmountInput (lit "1.234,56") = Ok (mkParsed Plus (lit "1234") (lit "56"))
  /\ normalizeAmountInput (lit "-1_234.56") = Ok (mkParsed Minus (lit "1234") (lit "56"))
  /\ normalizeAmountInput (lit "   00012,30  ") = Ok (mkParsed Plus (lit "12") (lit "30")).
Proof. repeat split. Qed.

Example test_fromMinor :
  (do m <- toMinor (lit "123.4567") 7 None; fromMinor m 7) = Ok (lit "123.4567000")
  /\ fromMinor 123 0 = Ok (lit "123").
Proof. repeat split. Qed.

Example test_divToDecimalString :
  divToDecimalString 123 10 (Some 4) = Ok (lit "12.3000")
  /\ divToDecimalString (-1) 2 (Some 2) = Ok (lit "-0.50")
  /\ avgFiatPricePerUnit 6340065 10000 7 2 None = Ok (lit "157.72708954").
Proof. repeat split. Qed.

Example test_mulDiv :
  mulDiv 5 (IsNumber (number_of_Z 1)) (IsNumber (number_of_Z 2)) Round = Ok 3
  /\ mulDiv 5 (IsNumber (number_of_Z 1)) (IsNumber (number_of_Z 2)) Bankers = Ok 2
  /\ mulDiv (-5) (IsNumber (number_of_Z 1)) (IsNumber (number_of_Z 2)) Floor = Ok (-3)
  /\ mulDiv (-5) (IsNumber (number_of_Z 1)) (IsNumber (number_of_Z 2)) Ceil = Ok (-2).
Proof. repeat split. Qed.

Example test_bps :
  applySlippage 1000000 (number_of_Z 50) = Ok 995000
  /\ minOutForExactIn 1000000 (number_of_Z 50) = Ok 995000
  /\ applyBps 1000000 (number_of_Z 25) Round = Ok 2500
  /\ clampBps (number_of_Z (-10)) = number_of_Z 0
  /\ clampBps (number_of_Z 12345) = number_of_Z 10000
  /\ slippageDown 1000000 (number_of_Z 0) = Ok 1000000
  /\ slippageDown 1000000 (number_of_Z 10000) = Ok 0
  /\ slippageUp 1000 (number_of_Z 0) = Ok 1000
  /\ slippageUp 1000 (number_of_Z 10000) = Ok 2000.
Proof. repeat split. Qed.

Example test_splitAmount :
  splitAmount 10 3 = Ok [3; 3; 3; 1] /\ splitAmount 2 5 = Ok [2].
Proof. repeat split. Qed.

Example test_price :
  priceRatioDecimals 2 (lit "5.4321") = Ok (mkRatio 543 100)
  /\ (do pr <- priceRatioDecimals 2 (lit "2.00");
      convertUnitsByDecimals 100 2 6 pr None) = Ok 2000000
  /\ (do pr <- priceRatioDecimals 2 (lit "5.4321");
      convertUnitsByDecimals 1050 2 7 pr None) = Ok 570200000.
Proof. repeat split. Qed.

(* ===================================================================== *)
(** * Properties *)
(* ===================================================================== *)

(** ** Powers of ten and absolute values *)

Lemma pow10_spec (n : Z) : 0 <= n -> pow10 n = Ok (10 ^ n).
Proof.
  intros Hn. unfold pow10.
  destruct (Z.ltb_spec n 0) as [Hneg | _]; [lia |].
  f_equal.
  destruct (Z.ltb_spec n (Z.of_nat (length POW10))) as [Hlt | _]; [| reflexivity].
  unfold POW10 in *. rewrite length_map, length_seq in Hlt.
  rewrite (nth_indep _ 0 ((fun i => 10 ^ Z.of_nat i) 0%nat))
    by (rewrite length_map, length_seq; lia).
  rewrite (map_nth (fun i => 10 ^ Z.of_nat i)), seq_nth by lia.
  rewrite Nat.add_0_l, Z2Nat.id by lia. reflexivity.
Qed.

Lemma pow10_error (n : Z) : n < 0 -> pow10 n = Err Pow10Argument.
Proof.
  intros Hn. unfold pow10. destruct (Z.ltb_spec n 0); [reflexivity | lia].
Qed.

Lemma pow_pos_10 (n : Z) : 0 <= n -> 0 < 10 ^ n.
Proof. intros. apply Z.pow_pos_nonneg; lia. Qed.

Lemma absBig_abs (x : Z) : absBig x = Z.abs x.
Proof. unfold absBig. destruct (Z.ltb_spec x 0); lia. Qed.

(** ** The rounding engine *)

(** A non-zero truncating remainder has the sign of the numerator. *)
Lemma rem_sign_cases (n d : Z) :
  d <> 0 -> Z.rem n d <> 0 ->
  (0 < n /\ 0 < Z.rem n d) \/ (n < 0 /\ Z.rem n d < 0).
Proof.
  intros Hd Hr.
  destruct (Z.le_gt_cases 0 n) as [Hn | Hn].
  - pose proof (Zrem_lt_pos n d Hn Hd).
    assert (n <> 0) by (intros ->; rewrite Z.rem_0_l in Hr; auto).
    left. lia.
  - pose proof (Zrem_lt_neg n d (Z.lt_le_incl _ _ Hn) Hd). right. lia.
Qed.

Lemma divRound_zero (n : Z) (mode : Rounding) :
  divRound n 0 mode = Err DivisionByZero.
Proof. reflexivity. Qed.

Lemma divRound_policy_ok (n d : Z) (mode : Rounding) :
  d <> 0 -> divRound n d mode = Ok (divRound_policy n d mode).
Proof.
  intros Hd.
  pose proof (Z.quot_rem' n d) as Hqr.
  pose proof (Z.rem_bound_abs n d Hd) as Hbound.
  pose proof (Z.rem_sign_mul n d Hd) as Hsign.
  unfold divRound, divRound_policy, share_sign.
  rewrite !absBig_abs.
  set (q := Z.quot n d) in *. set (r := Z.rem n d) in *.
  destruct (Z.eqb_spec d 0) as [| _]; [contradiction |].
  destruct (Z.eqb_spec r 0) as [Hr | Hr].
  - rewrite Hr. destruct mode; cbn [negb andb]; rewrite ?andb_false_r.
    + reflexivity.
    + reflexivity.
    + destruct (Z.leb_spec (Z.abs d) (2 * Z.abs 0)); [lia | reflexivity].
    + destruct (Z.ltb_spec (Z.abs d) (2 * Z.abs 0)); [lia |].
      destruct (Z.ltb_spec (2 * Z.abs 0) (Z.abs d)); [reflexivity | lia].
  - assert (Hn : n <> 0) by (intros ->; unfold r in Hr; rewrite Zrem_0_l in Hr; lia).
    assert (Hs : (if Bool.eqb (0 <? n) (0 <? d) then 1 else -1)
                 = (if Z.sgn n =? Z.sgn d then 1 else -1)).
    { destruct (Z.ltb_spec 0 n), (Z.ltb_spec 0 d), (Z.eqb_spec (Z.sgn n) (Z.sgn d));
        cbn [Bool.eqb]; lia. }
    rewrite Hs. clear Hs.
    set (sign := if Z.sgn n =? Z.sgn d then 1 else -1).
    replace (Z.abs (r * 2)) with (2 * Z.abs r) by lia.
    destruct mode.
    + reflexivity.
    + rewrite andb_true_r. reflexivity.
    + reflexivity.
    + destruct (Z.ltb_spec (Z.abs d) (2 * Z.abs r)); [reflexivity |].
      destruct (Z.ltb_spec (2 * Z.abs r) (Z.abs d)); [reflexivity |].
      rewrite Zodd_rem. destruct (Z.rem q 2 =? 0); reflexivity.
Qed.

Lemma divRound_error_iff (n d : Z) (mode : Rounding) :
  divRound n d mode = Err DivisionByZero <-> d = 0.
Proof.
  split.
  - intros H. destruct (Z.eq_dec d 0) as [| Hd]; [assumption |].
    rewrite (divRound_policy_ok n d mode Hd) in H. discriminate.
  - intros ->. reflexivity.
Qed.

(** Under [Floor] the result is the mathematical floor whatever the signs,
    and under [Ceil] the mathematical ceiling. *)
Lemma divRound_floor (n d : Z) :
  d <> 0 -> divRound n d Floor = Ok (floor_div n d).
Proof.
  intros Hd. rewrite divRound_policy_ok by assumption. f_equal.
  unfold divRound_policy, share_sign, floor_div.
  pose proof (Z.quot_rem' n d) as Hqr.
  pose proof (Z.rem_bound_abs n d Hd) as Hbound.
  pose proof (rem_sign_cases n d Hd) as Hsign.
  set (q := Z.quot n d) in *. set (r := Z.rem n d) in *.
  destruct (Z.eqb_spec r 0) as [Hr | Hr].
  - apply (Z.div_unique_exact n d q); [assumption | lia].
  - specialize (Hsign Hr).
    destruct (Z.eqb_spec (Z.sgn n) (Z.sgn d)) as [Hs | Hs]; cbn [Z.ltb Z.compare].
    + apply (Z.div_unique n d q r); lia.
    + apply (Z.div_unique n d (q - 1) (r + d)); lia.
Qed.

Lemma divRound_ceil (n d : Z) :
  d <> 0 -> divRound n d Ceil = Ok (ceil_div n d).
Proof.
  intros Hd. rewrite divRound_policy_ok by assumption. f_equal.
  unfold divRound_policy, share_sign, ceil_div.
  pose proof (Z.quot_rem' n d) as Hqr.
  pose proof (Z.rem_bound_abs n d Hd) as Hbound.
  pose proof (rem_sign_cases n d Hd) as Hsign.
  set (q := Z.quot n d) in *. set (r := Z.rem n d) in *.
  destruct (Z.eqb_spec r 0) as [Hr | Hr]; cbn [negb]; rewrite ?andb_false_r, ?andb_true_r.
  - enough (- q = (- n) / d) by lia.
    apply (Z.div_unique_exact (- n) d (- q)); [assumption | lia].
  - specialize (Hsign Hr).
    destruct (Z.eqb_spec (Z.sgn n) (Z.sgn d)) as [Hs | Hs]; cbn [Z.ltb Z.compare].
    + enough (- (q + 1) = (- n) / d) by lia.
      apply (Z.div_unique (- n) d (- (q + 1)) (d - r)); lia.
    + enough (- q = (- n) / d) by lia.
      apply (Z.div_unique (- n) d (- q) (- r)); lia.
Qed.

Lemma to_bigint_number_of_Z (z : Z) : to_bigint (IsNumber (number_of_Z z)) = Ok z.
Proof.
  unfold to_bigint, number_of_Z, BigInt_of_number, Qtrunc, inject_Z; cbn [Qnum Qden].
  rewrite Z.rem_1_r, Z.quot_1_r. reflexivity.
Qed.

(** C1.  For a non-zero denominator [divRound] returns what the four
    policies of the specification prescribe on the truncating quotient and
    remainder; it fails, with DivisionByZero, exactly when the denominator is
    zero; and [mulDiv a b c mode], whose operands [b] and [c] hold the
    integers [bz] and [cz], is [divRound (a * bz) cz mode] and fails with
    DivisionByZero exactly when [cz] is zero. *)
Theorem divRound_mulDiv_spec (n d : Z) (mode : Rounding) :
  (d <> 0 -> divRound n d mode = Ok (divRound_policy n d mode))
  /\ (divRound n d mode = Err DivisionByZero <-> d = 0)
  /\ (is_ok (divRound n d mode) = false <-> d = 0)
  /\ (forall (b c : bigint_or_number) (bz cz : Z),
        to_bigint b = Ok bz -> to_bigint c = Ok cz ->
        mulDiv n b c mode = divRound (n * bz) cz mode
        /\ (mulDiv n b c mode = Err DivisionByZero <-> cz = 0)
        /\ (is_ok (mulDiv n b c mode) = false <-> cz = 0)).
Proof.
  assert (Hok : forall x y, is_ok (divRound x y mode) = false <-> y = 0).
  { intros x y. destruct (Z.eq_dec y 0) as [-> | Hy].
    - split; reflexivity || auto.
    - rewrite divRound_policy_ok by assumption. cbn. split; [discriminate | contradiction]. }
  split; [apply divRound_policy_ok |].
  split; [apply divRound_error_iff |].
  split; [apply Hok |].
  intros b c bz cz Hb Hc.
  assert (Heq : mulDiv n b c mode = divRound (n * bz) cz mode).
  { unfold mulDiv. rewrite Hb, Hc. cbn [bind].
    destruct (Z.eqb_spec cz 0) as [-> | _]; reflexivity. }
  rewrite Heq. split; [reflexivity |].
  split; [apply divRound_error_iff | apply Hok].
Qed.

Lemma divRound_mulDiv_spec_witness :
  divRound (-7) 2 Bankers = Ok (-4)
  /\ mulDiv 5 (IsNumber (number_of_Z 1)) (IsBigint 2) Bankers = divRound (5 * 1) 2 Bankers.
Proof.
  destruct (divRound_mulDiv_spec (-7) 2 Bankers) as [Hpol _].
  destruct (divRound_mulDiv_spec 5 2 Bankers) as (_ & _ & _ & Hmul).
  split.
  - rewrite Hpol by lia. reflexivity.
  - apply (Hmul (IsNumber (number_of_Z 1)) (IsBigint 2) 1 2); reflexivity.
Defined.

(** ** The unit-in-last-place adjustment *)

(** C4, as the code has it.  [roundAdjust] leaves [base] alone under
    [Floor]; under [Ceil] it adds one when the sign is [+1] and leaves
    [base] alone when the sign is [-1]; under [Round] it adds the sign;
    under [Bankers] it adds the sign unless [base] is even. *)
Theorem roundAdjust_spec (base : Z) (sign : Sign) (mode : Rounding) :
  roundAdjust base sign mode =
  match mode with
  | Floor => base
  | Ceil => match sign with Plus => base + 1 | Minus => base end
  | Round => base + sign_Z sign
  | Bankers => if Z.even base then base else base + sign_Z sign
  end.
Proof.
  destruct mode; cbn [roundAdjust].
  - reflexivity.
  - destruct sign; reflexivity.
  - reflexivity.
  - rewrite Zeven_rem. reflexivity.
Qed.

(** C4, as the specification words it, fails under [Ceil] with sign [-1]:
    the code returns [base], the sentence promises [base - 1]. *)
Lemma roundAdjust_ceil_minus_counterexample :
  roundAdjust 7 Minus Ceil = 7
  /\ roundAdjust_claimed 7 Minus Ceil = 6
  /\ roundAdjust 7 Minus Ceil <> roundAdjust_claimed 7 Minus Ceil.
Proof. repeat split. discriminate. Qed.

(** The two readings agree everywhere else, in particular on the only call
    site, [toMinor], which passes [+1]. *)
Lemma roundAdjust_claimed_agrees (base : Z) (sign : Sign) (mode : Rounding) :
  sign = Plus \/ mode <> Ceil ->
  roundAdjust base sign mode = roundAdjust_claimed base sign mode.
Proof.
  intros H. unfold roundAdjust, roundAdjust_claimed. rewrite Zeven_rem.
  destruct mode, sign; try reflexivity. destruct H; congruence.
Qed.

(** ** Basis points and slippage *)

Lemma BigInt_of_trunc (q : Q) :
  BigInt_of_number (Math_trunc (Fin q)) = Ok (Qtrunc q).
Proof.
  cbn [Math_trunc BigInt_of_number]. unfold Qtrunc at 1 3, inject_Z; cbn [Qnum Qden].
  rewrite Z.rem_1_r, Z.quot_1_r. reflexivity.
Qed.

Lemma BigInt_of_inject (z : Z) : BigInt_of_number (Fin (inject_Z z)) = Ok z.
Proof. apply (to_bigint_number_of_Z z). Qed.

(** [applySlippage] fails exactly on a bps that is not finite or is
    negative, and otherwise divides with BigInt [/], which truncates. *)
Lemma applySlippage_fails_iff (amountOut : Z) (bps : number) :
  is_ok (applySlippage amountOut bps) = false
  <-> Number_isFinite bps = false \/ number_ltb0 bps = true.
Proof.
  unfold applySlippage.
  destruct bps as [| | | q]; cbn [Number_isFinite negb orb is_ok];
    try (split; [intros _; left; reflexivity | reflexivity]).
  destruct (number_ltb0 (Fin q)) eqn:Hneg; cbn [is_ok].
  - split; [intros _; right; reflexivity | reflexivity].
  - rewrite BigInt_of_trunc. cbn [bind is_ok].
    split; [discriminate | intros [H | H]; discriminate].
Qed.

Lemma applySlippage_value (amountOut : Z) (q : Q) :
  number_ltb0 (Fin q) = false ->
  applySlippage amountOut (Fin q)
  = Ok (Z.quot (amountOut * (10000 - Qtrunc q)) 10000).
Proof.
  intros Hneg. unfold applySlippage. cbn [Number_isFinite negb orb].
  rewrite Hneg, BigInt_of_trunc. reflexivity.
Qed.

(** On a non-negative amount and at most 10000 bps, truncation is floor. *)
Lemma applySlippage_floor_nonneg (amountOut : Z) (q : Q) :
  number_ltb0 (Fin q) = false -> 0 <= amountOut -> Qtrunc q <= 10000 ->
  applySlippage amountOut (Fin q)
  = Ok (floor_div (amountOut * (10000 - Qtrunc q)) 10000).
Proof.
  intros Hneg Ha Hq. rewrite applySlippage_value by assumption.
  unfold floor_div. rewrite Z.quot_div_nonneg; [reflexivity | nia | lia].
Qed.

(** On a negative product with a remainder, truncation is one above the
    floor. *)
Lemma applySlippage_above_floor (amountOut : Z) (q : Q) :
  number_ltb0 (Fin q) = false ->
  amountOut * (10000 - Qtrunc q) < 0 ->
  (amountOut * (10000 - Qtrunc q)) mod 10000 <> 0 ->
  applySlippage amountOut (Fin q)
  = Ok (floor_div (amountOut * (10000 - Qtrunc q)) 10000 + 1).
Proof.
  intros Hneg Hlt Hrem. rewrite applySlippage_value by assumption. f_equal.
  unfold floor_div. set (a := amountOut * (10000 - Qtrunc q)) in *.
  rewrite <- (Z.opp_involutive a) at 1.
  rewrite Z.quot_opp_l by lia.
  rewrite Z.quot_div_nonneg by lia.
  rewrite <- (Z.opp_involutive a) at 2.
  assert (Hrem' : (- a) mod 10000 <> 0).
  { intros H. apply Hrem. apply Z.mod_opp_l_z in H; [| lia].
    rewrite Z.opp_involutive in H. exact H. }
  rewrite (Z_div_nz_opp_full (- a) 10000) by (lia || exact Hrem'). lia.
Qed.

(** C5.  The source documents [applySlippage] as returning the floored
    amount and [slippageDown] as clamping; on a negative amount both
    truncate toward zero instead, one above the floor, and [slippageDown]
    throws on NaN, which [clampBps] lets through. *)
Theorem applySlippage_negative_amount_not_floored :
  applySlippage (-1) (number_of_Z 50) = Ok 0
  /\ floor_div (-1 * (10000 - 50)) 10000 = -1
  /\ slippageDown (-1) (number_of_Z 50) = Ok 0
  /\ slippageDown 1 NaN = Err RangeError.
Proof. repeat split. Qed.

Lemma Qle_bool_inject (a b : Z) : Qle_bool (inject_Z a) (inject_Z b) = (a <=? b).
Proof. unfold Qle_bool, inject_Z; cbn [Qnum Qden]. rewrite !Z.mul_1_r. reflexivity. Qed.

Lemma Math_min_inject (a b : Z) :
  Math_min (Fin (inject_Z a)) (Fin (inject_Z b)) = Fin (inject_Z (Z.min a b)).
Proof.
  cbn [Math_min]. rewrite Qle_bool_inject.
  destruct (Z.leb_spec a b); do 2 f_equal; lia.
Qed.

Lemma Math_max_inject (a b : Z) :
  Math_max (Fin (inject_Z a)) (Fin (inject_Z b)) = Fin (inject_Z (Z.max a b)).
Proof.
  cbn [Math_max]. rewrite Qle_bool_inject.
  destruct (Z.leb_spec a b); do 2 f_equal; lia.
Qed.

Lemma clampBps_value (bps : number) (b : Z) :
  clamp_bps_value bps = Some b ->
  BigInt_of_number (clampBps bps) = Ok b /\ 0 <= b <= 10000.
Proof.
  destruct bps as [| | | q]; cbn [clamp_bps_value]; intros H; inversion H; subst; clear H.
  - split; [reflexivity | lia].
  - split; [reflexivity | lia].
  - split; [| lia].
    unfold clampBps, number_of_Z. cbn [Math_trunc].
    rewrite Math_min_inject, Math_max_inject. apply BigInt_of_inject.
Qed.

(** NaN is not clamped: [clampBps] returns it and [BigInt] throws. *)
Lemma clampBps_NaN : clampBps NaN = NaN /\ BigInt_of_number (clampBps NaN) = Err RangeError.
Proof. split; reflexivity. Qed.

(** Bumping the truncating quotient on a non-zero remainder is the ceiling
    of a non-negative numerator. *)
Lemma bump_is_ceil_nonneg (a b : Z) :
  0 <= a -> 0 < b ->
  (if Z.rem a b =? 0 then Z.quot a b else Z.quot a b + 1) = ceil_div a b.
Proof.
  intros Ha Hb. unfold ceil_div.
  destruct (Zquotrem_Zdiv_eucl_pos a b Ha Hb) as [-> ->].
  pose proof (Z.div_mod a b ltac:(lia)) as Hdm.
  pose proof (Z.mod_pos_bound a b Hb) as Hbound.
  destruct (Z.eqb_spec (a mod b) 0) as [Hr | Hr].
  - enough (- (a / b) = (- a) / b) by lia.
    apply (Z.div_unique_exact (- a) b); lia.
  - enough (- (a / b + 1) = (- a) / b) by lia.
    apply (Z.div_unique (- a) b _ (b - a mod b)); lia.
Qed.

(** [ceil_div a b] is the least integer [k] with [a <= b * k]. *)
Lemma ceil_div_least (a b : Z) :
  0 < b -> a <= b * ceil_div a b /\ forall k, a <= b * k -> ceil_div a b <= k.
Proof.
  intros Hb. unfold ceil_div.
  pose proof (Z.div_mod (- a) b ltac:(lia)) as Hdm.
  pose proof (Z.mod_pos_bound (- a) b Hb) as Hbound.
  split; [nia |]. intros k Hk. nia.
Qed.

(** Where [slippageUp] does what its documentation says: for every bps
    but NaN it clamps bps to [b] in [0, 10000], multiplies the amount by
    [10000 + b] and raises the truncating quotient by 10000 by one whenever
    the remainder is not zero, which on a non-negative amount is the
    ceiling; [slippageUp 1000 10000 = 2000], [slippageDown 1000000 0 =
    1000000] and [slippageDown 1000000 10000 = 0]. *)
Theorem slippageUp_spec :
  (forall (amount : Z) (bps : number) (b : Z),
      clamp_bps_value bps = Some b ->
      0 <= b <= 10000
      /\ slippageUp amount bps
         = Ok (let num := amount * (10000 + b) in
               if Z.rem num 10000 =? 0 then Z.quot num 10000
               else Z.quot num 10000 + 1)
      /\ (0 <= amount ->
          slippageUp amount bps = Ok (ceil_div (amount * (10000 + b)) 10000)))
  /\ slippageUp 1000 (number_of_Z 10000) = Ok 2000
  /\ slippageDown 1000000 (number_of_Z 0) = Ok 1000000
  /\ slippageDown 1000000 (number_of_Z 10000) = Ok 0.
Proof.
  split; [| repeat split].
  intros amount bps b Hb.
  destruct (clampBps_value bps b Hb) as [Hclamp Hrange].
  assert (Hup : slippageUp amount bps
                = Ok (let num := amount * (10000 + b) in
                      if Z.rem num 10000 =? 0 then Z.quot num 10000
                      else Z.quot num 10000 + 1)).
  { unfold slippageUp. rewrite Hclamp. reflexivity. }
  split; [assumption |]. split; [assumption |].
  intros Ha. rewrite Hup. cbv zeta. f_equal.
  apply bump_is_ceil_nonneg; nia.
Qed.

(** On a negative product with a remainder the bumped quotient is one
    above the ceiling. *)
Lemma slippageUp_above_ceiling (amount : Z) (bps : number) (b : Z) :
  clamp_bps_value bps = Some b ->
  amount * (10000 + b) < 0 ->
  Z.rem (amount * (10000 + b)) 10000 <> 0 ->
  slippageUp amount bps = Ok (ceil_div (amount * (10000 + b)) 10000 + 1).
Proof.
  intros Hb Hneg Hrem.
  destruct (clampBps_value bps b Hb) as [Hclamp _].
  unfold slippageUp. rewrite Hclamp. cbn [bind]. change BPS_BASE with 10000.
  set (a := amount * (10000 + b)) in *.
  destruct (Z.eqb_spec (Z.rem a 10000) 0) as [| _]; [contradiction |].
  do 2 f_equal. unfold ceil_div.
  rewrite <- (Z.opp_involutive a) at 1.
  rewrite Z.quot_opp_l by lia. rewrite Z.quot_div_nonneg by lia. reflexivity.
Qed.

(** C6.  The source documents [slippageUp] as clamping bps and "using ceil
    division"; on a negative amount with a remainder the quotient, which
    BigInt [/] has already truncated upward, is still raised by one, so the
    result is one above the ceiling, and on NaN, which [clampBps] lets
    through, [slippageUp] throws instead of clamping. *)
Theorem slippageUp_negative_amount_not_ceiling :
  slippageUp (-1) (number_of_Z 1) = Ok 0
  /\ ceil_div (-1 * (10000 + 1)) 10000 = -1
  /\ slippageUp 1 NaN = Err RangeError.
Proof. repeat split. Qed.

Lemma slippageUp_spec_witness :
  slippageUp 3 (Fin (7 # 2)) = Ok (ceil_div (3 * (10000 + 3)) 10000).
Proof.
  destruct slippageUp_spec as [H _].
  destruct (H 3 (Fin (7 # 2)) 3 eq_refl) as (_ & _ & Hceil).
  apply Hceil. lia.
Defined.

(** ** Precision scaling *)

Lemma divRound_exact (x p : Z) (mode : Rounding) :
  p <> 0 -> divRound (x * p) p mode = Ok x.
Proof.
  intros Hp. unfold divRound.
  destruct (Z.eqb_spec p 0) as [| _]; [contradiction |].
  rewrite Z.rem_mul, Z.quot_mul by assumption. reflexivity.
Qed.

(** C7.  For non-negative decimals, [scaleUnits] is the identity between
    equal precisions, an exact multiplication by the power of ten when
    widening, [divRound] by the power of ten under the requested mode
    ([Floor] when none is given) when narrowing, and widening followed by
    narrowing back gives the amount again. *)
Theorem scaleUnits_spec (x a b : Z) (mode mode' : option Rounding) :
  0 <= a -> 0 <= b ->
  scaleUnits x a a mode = Ok x
  /\ (a < b -> scaleUnits x a b mode = Ok (x * 10 ^ (b - a)))
  /\ (b < a ->
      scaleUnits x a b mode
      = divRound x (10 ^ (a - b)) (match mode with Some m => m | None => Floor end)
      /\ scaleUnits x a b None = Ok (floor_div x (10 ^ (a - b))))
  /\ (a <= b ->
      (do y <- scaleUnits x a b mode; scaleUnits y b a mode') = Ok x).
Proof.
  intros Ha Hb.
  assert (Hguard : forall u v, 0 <= u -> 0 <= v -> (u <? 0) || (v <? 0) = false).
  { intros u v Hu Hv.
    destruct (Z.ltb_spec u 0), (Z.ltb_spec v 0); first [lia | reflexivity]. }
  assert (Hid : forall y m, scaleUnits y a a m = Ok y).
  { intros y m. unfold scaleUnits. rewrite Hguard, Z.eqb_refl by assumption. reflexivity. }
  assert (Hwide : a < b -> scaleUnits x a b mode = Ok (x * 10 ^ (b - a))).
  { intros Hab. unfold scaleUnits. rewrite Hguard by assumption.
    destruct (Z.eqb_spec a b); [lia |].
    destruct (Z.ltb_spec a b); [| lia].
    rewrite pow10_spec by lia. reflexivity. }
  assert (Hnarrow : forall y u v m, 0 <= u -> 0 <= v -> v < u ->
            scaleUnits y u v m
            = divRound y (10 ^ (u - v)) (match m with Some m => m | None => Floor end)).
  { intros y u v m Hu Hv Hvu. unfold scaleUnits. rewrite Hguard by assumption.
    destruct (Z.eqb_spec u v); [lia |].
    destruct (Z.ltb_spec u v); [lia |].
    rewrite pow10_spec by lia. reflexivity. }
  split; [apply Hid |]. split; [exact Hwide |]. split.
  - intros Hba. split; [apply Hnarrow; assumption |].
    rewrite Hnarrow by assumption. apply divRound_floor.
    pose proof (pow_pos_10 (a - b)). lia.
  - intros Hab. destruct (Z.eq_dec a b) as [<- | Hne].
    + rewrite Hid. cbn [bind]. apply Hid.
    + rewrite Hwide by lia. cbn [bind].
      rewrite Hnarrow by lia. apply divRound_exact.
      pose proof (pow_pos_10 (b - a)). lia.
Qed.

Lemma scaleUnits_spec_witness :
  scaleUnits 12500 2 7 None = Ok (12500 * 10 ^ (7 - 2))
  /\ (do y <- scaleUnits 12500 2 7 None; scaleUnits y 7 2 (Some Ceil)) = Ok 12500.
Proof.
  destruct (scaleUnits_spec 12500 2 7 None (Some Ceil)) as (_ & Hwide & _ & Hback); [lia | lia |].
  split; [apply Hwide | apply Hback]; lia.
Defined.

(** ** Lot splitting *)

(** The loop leaves the remainder of the division in [left] and has pushed
    the lot once for every time it fitted. *)
Lemma splitLoop_closed (lot : Z) (Hlot : 0 < lot) (leftMinor : Z) (chunks : list Z) :
  splitLoop lot Hlot leftMinor chunks
  = (leftMinor - Z.of_nat (Z.to_nat (leftMinor / lot)) * lot,
     chunks ++ repeat lot (Z.to_nat (leftMinor / lot))).
Proof.
  funelim (splitLoop lot Hlot leftMinor chunks).
  - match goal with IH : splitLoop _ _ _ _ = (_, _) |- _ => rewrite IH end.
    assert (Hdiv : leftMinor / lot = (leftMinor - lot) / lot + 1).
    { replace leftMinor with ((leftMinor - lot) + 1 * lot) at 1 by lia.
      rewrite Z.div_add by lia. reflexivity. }
    assert (Hnn : 0 <= (leftMinor - lot) / lot)
      by (apply Z.div_pos; lia).
    rewrite Hdiv, Z2Nat.inj_add by lia.
    change (Z.to_nat 1) with 1%nat. rewrite Nat.add_1_r. cbn [repeat].
    rewrite <- app_assoc. cbn [app]. f_equal. lia.
  - assert (Hsmall : leftMinor / lot <= 0).
    { destruct (Z.le_gt_cases 0 leftMinor).
      - rewrite Z.div_small by lia. lia.
      - pose proof (Z.div_lt_upper_bound leftMinor lot 0 Hlot). lia. }
    replace (Z.to_nat (leftMinor / lot)) with 0%nat by lia.
    cbn [repeat Z.of_nat]. rewrite app_nil_r. f_equal. lia.
Qed.

Lemma sum_chunks_app (l1 l2 : list Z) :
  sum_chunks (l1 ++ l2) = sum_chunks l1 + sum_chunks l2.
Proof.
  unfold sum_chunks. induction l1 as [| x l1 IH]; cbn [app fold_right]; lia.
Qed.

Lemma sum_chunks_repeat (x : Z) (k : nat) : sum_chunks (repeat x k) = Z.of_nat k * x.
Proof.
  unfold sum_chunks. induction k as [| k IH]; cbn [repeat fold_right]; lia.
Qed.

(** C8.  [splitAmount] fails exactly when the lot size is not positive;
    otherwise it returns the lot once for each time it fits followed by the
    leftover when that is strictly positive; from a non-negative total the
    chunks add up to the total; [splitAmount 10 3 = [3; 3; 3; 1]] and
    [splitAmount 2 5 = [2]]. *)
Theorem splitAmount_spec :
  (forall total lot : Z,
      (is_ok (splitAmount total lot) = false <-> lot <= 0)
      /\ (lot <= 0 -> splitAmount total lot = Err InvalidLotSize)
      /\ (0 < lot ->
          splitAmount total lot = Ok (lot_chunks total lot)
          /\ (0 <= total -> sum_chunks (lot_chunks total lot) = total)))
  /\ splitAmount 10 3 = Ok [3; 3; 3; 1]
  /\ splitAmount 2 5 = Ok [2].
Proof.
  split; [| split; reflexivity].
  intros total lot.
  assert (Hpos : 0 < lot -> splitAmount total lot = Ok (lot_chunks total lot)).
  { intros Hlot. unfold splitAmount, lot_chunks.
    destruct (Z_lt_dec 0 lot) as [Hl | Hl]; [| contradiction].
    rewrite splitLoop_closed. cbn [app]. f_equal.
    destruct (0 <? total - Z.of_nat (Z.to_nat (total / lot)) * lot);
      [reflexivity | symmetry; apply app_nil_r]. }
  assert (Hneg : lot <= 0 -> splitAmount total lot = Err InvalidLotSize).
  { intros Hlot. unfold splitAmount.
    destruct (Z_lt_dec 0 lot) as [Hl | Hl]; [lia | reflexivity]. }
  split; [| split; [exact Hneg |]].
  - destruct (Z_lt_dec 0 lot) as [Hl | Hl].
    + rewrite Hpos by assumption. cbn [is_ok]. split; [discriminate | lia].
    + rewrite Hneg by lia. cbn [is_ok]. split; [lia | reflexivity].
  - intros Hlot. split; [apply Hpos; assumption |].
    intros Htotal. unfold lot_chunks.
    rewrite sum_chunks_app, sum_chunks_repeat.
    destruct (Z.ltb_spec 0 (total - Z.of_nat (Z.to_nat (total / lot)) * lot)) as [Hlt | Hge].
    + unfold sum_chunks. cbn [fold_right]. lia.
    + unfold sum_chunks. cbn [fold_right].
      pose proof (Z.div_pos total lot Htotal Hlot) as Hq.
      pose proof (Z.div_mod total lot ltac:(lia)) as Hdm.
      pose proof (Z.mod_pos_bound total lot Hlot) as Hbound.
      rewrite Z2Nat.id in * by assumption. nia.
Qed.

Lemma splitAmount_spec_witness :
  splitAmount 10 3 = Ok (lot_chunks 10 3) /\ sum_chunks (lot_chunks 10 3) = 10.
Proof.
  destruct splitAmount_spec as [H _].
  destruct (H 10 3) as (_ & _ & Hpos).
  destruct (Hpos ltac:(lia)) as [Hok Hsum].
  split; [exact Hok | apply Hsum; lia].
Defined.

(** ** Code units *)

Lemma is_digit_bounds (c : N) : is_digit c = true <-> (48 <= c <= 57)%N.
Proof. unfold is_digit. rewrite andb_true_iff, !N.leb_le. reflexivity. Qed.

(** A digit is in none of the other classes the parser looks for. *)
Lemma digit_plain (c : N) :
  is_digit c = true ->
  is_space c = false /\ is_separator c = false
  /\ N.eqb c c_underscore = false /\ N.eqb c c_plus = false
  /\ N.eqb c c_minus = false /\ N.eqb c c_dot = false /\ N.eqb c c_comma = false.
Proof.
  intros H. apply is_digit_bounds in H.
  unfold is_separator, is_space, c_underscore, c_plus, c_minus, c_dot, c_comma.
  decide_N_tests. repeat split.
Qed.

Lemma digit_value_range (c : N) : is_digit c = true -> 0 <= digit_value c <= 9.
Proof. intros H. apply is_digit_bounds in H. unfold digit_value. lia. Qed.

Lemma digit_char_spec (d : Z) :
  0 <= d <= 9 -> is_digit (digit_char d) = true /\ digit_value (digit_char d) = d.
Proof.
  intros Hd. unfold digit_char, digit_value.
  split; [apply is_digit_bounds |]; lia.
Qed.

Lemma digit_value_zero_iff (c : N) :
  is_digit c = true -> (0 <? digit_value c) = negb (N.eqb c c_zero).
Proof.
  intros H. apply is_digit_bounds in H. unfold digit_value, c_zero.
  destruct (Z.ltb_spec 0 (Z.of_N c - 48)), (N.eqb_spec c 48); cbn [negb]; lia.
Qed.

(** ** Lists of code units *)

Lemma strlen_nonneg (s : jsstring) : 0 <= strlen s.
Proof. unfold strlen. lia. Qed.

Lemma strlen_cons (c : N) (s : jsstring) : strlen (c :: s) = strlen s + 1.
Proof. unfold strlen. cbn [length]. lia. Qed.

Lemma strlen_app (a b : jsstring) : strlen (a ++ b) = strlen a + strlen b.
Proof. unfold strlen. rewrite length_app. lia. Qed.

Lemma strlen_repeat (c : N) (k : nat) : strlen (repeat c k) = Z.of_nat k.
Proof. unfold strlen. rewrite repeat_length. reflexivity. Qed.

Lemma all_digits_app (a b : jsstring) :
  all_digits (a ++ b) <-> all_digits a /\ all_digits b.
Proof. unfold all_digits. rewrite forallb_app, andb_true_iff. reflexivity. Qed.

Lemma all_digits_rev (s : jsstring) : all_digits s -> all_digits (rev s).
Proof.
  unfold all_digits. rewrite !forallb_forall.
  intros H x Hx. apply H, in_rev, Hx.
Qed.

Lemma all_digits_repeat_zero (k : nat) : all_digits (repeat c_zero k).
Proof. unfold all_digits. induction k as [| k IH]; [reflexivity | exact IH]. Qed.

Lemma all_digits_firstn (k : nat) (s : jsstring) : all_digits s -> all_digits (firstn k s).
Proof.
  unfold all_digits. revert k. induction s as [| c s IH]; intros [| k] H; try reflexivity.
  cbn [firstn forallb] in *. apply andb_true_iff in H as [Hc Hs].
  rewrite Hc. cbn [andb]. apply IH, Hs.
Qed.

Lemma all_digits_skipn (k : nat) (s : jsstring) : all_digits s -> all_digits (skipn k s).
Proof.
  unfold all_digits. revert k. induction s as [| c s IH]; intros [| k] H; try assumption.
  cbn [skipn]. cbn [forallb] in H. apply andb_true_iff in H as [_ Hs]. apply IH, Hs.
Qed.

Lemma firstn_repeat_le {A : Type} (x : A) (k j : nat) :
  (k <= j)%nat -> firstn k (repeat x j) = repeat x k.
Proof.
  revert j. induction k as [| k IH]; intros j Hkj; [reflexivity |].
  destruct j as [| j]; [lia |]. cbn [repeat firstn]. rewrite IH by lia. reflexivity.
Qed.

(** ** Slices *)

Lemma slice_prefix (s : jsstring) (k : Z) :
  0 <= k -> slice s 0 k = firstn (Z.to_nat k) s.
Proof.
  intros Hk. unfold slice.
  pose proof (strlen_nonneg s) as Hlen.
  change (0 <? 0) with false. cbv iota.
  destruct (Z.ltb_spec k 0) as [| _]; [lia |].
  rewrite (Z.min_l 0 (strlen s)) by assumption. cbn [Z.to_nat skipn]. rewrite Z.sub_0_r.
  destruct (Z.le_gt_cases k (strlen s)) as [Hle | Hgt].
  - rewrite Z.min_l by assumption. reflexivity.
  - rewrite Z.min_r by lia. unfold strlen in *.
    rewrite Nat2Z.id, !firstn_all2 by lia. reflexivity.
Qed.

Lemma slice_unit (s : jsstring) (k : Z) :
  0 <= k -> slice s k (k + 1) = firstn 1 (skipn (Z.to_nat k) s).
Proof.
  intros Hk. unfold slice.
  pose proof (strlen_nonneg s) as Hlen.
  destruct (Z.ltb_spec k 0) as [| _]; [lia |].
  destruct (Z.ltb_spec (k + 1) 0) as [| _]; [lia |].
  destruct (Z.le_gt_cases (strlen s) k) as [Hle | Hgt].
  - rewrite !Z.min_r by lia. rewrite Z.sub_diag. cbn [Z.to_nat firstn].
    unfold strlen in *. rewrite (skipn_all2 s) by lia. reflexivity.
  - rewrite !Z.min_l by lia. replace (k + 1 - k) with 1 by lia. reflexivity.
Qed.

Lemma pad_or_truncate_take (f : jsstring) (k j : Z) :
  0 <= k <= j ->
  firstn (Z.to_nat k) (f ++ repeat_unit c_zero j) = pad_or_truncate f k.
Proof.
  intros Hkj. unfold pad_or_truncate, repeat_unit, strlen.
  rewrite firstn_app.
  destruct (Z.leb_spec k (Z.of_nat (length f))) as [Hle | Hgt].
  - replace (Z.to_nat k - length f)%nat with 0%nat by lia.
    cbn [firstn]. apply app_nil_r.
  - rewrite firstn_all2 by lia. f_equal.
    rewrite firstn_repeat_le by lia. f_equal. lia.
Qed.

Lemma pad_or_truncate_length (f : jsstring) (k : Z) :
  0 <= k -> strlen (pad_or_truncate f k) = k.
Proof.
  intros Hk. unfold pad_or_truncate, strlen.
  destruct (Z.leb_spec k (Z.of_nat (length f))) as [Hle | Hgt].
  - rewrite length_firstn. lia.
  - rewrite length_app, repeat_length. lia.
Qed.

Lemma pad_or_truncate_digits (f : jsstring) (k : Z) :
  all_digits f -> all_digits (pad_or_truncate f k).
Proof.
  intros Hf. unfold pad_or_truncate. destruct (k <=? strlen f).
  - apply all_digits_firstn, Hf.
  - apply all_digits_app. split; [exact Hf | apply all_digits_repeat_zero].
Qed.

Lemma pad_or_truncate_prefix (f : jsstring) (k : Z) :
  0 <= k ->
  firstn (Z.to_nat k) (pad_or_truncate f (k + 1)) = pad_or_truncate f k.
Proof.
  intros Hk.
  rewrite <- (pad_or_truncate_take f (k + 1) (k + 1)) by lia.
  rewrite firstn_firstn, Nat.min_l by lia.
  apply pad_or_truncate_take. lia.
Qed.

(** ** Decimal numerals *)

Lemma fold_digits (s : jsstring) (acc : Z) :
  fold_left (fun a c => a * 10 + digit_value c) s acc
  = acc * 10 ^ strlen s + digits_value s.
Proof.
  unfold digits_value. revert acc.
  induction s as [| c s IH]; intros acc.
  - cbn. lia.
  - cbn [fold_left]. rewrite (IH (acc * 10 + digit_value c)), (IH (0 * 10 + digit_value c)).
    rewrite strlen_cons, Z.pow_add_r by (pose proof (strlen_nonneg s); lia).
    lia.
Qed.

Lemma digits_value_cons (c : N) (s : jsstring) :
  digits_value (c :: s) = digit_value c * 10 ^ strlen s + digits_value s.
Proof.
  unfold digits_value at 1. cbn [fold_left]. rewrite fold_digits. lia.
Qed.

Lemma digits_value_unit (c : N) : digits_value [c] = digit_value c.
Proof. unfold digits_value. cbn [fold_left]. lia. Qed.

Lemma digits_value_app (a b : jsstring) :
  digits_value (a ++ b) = digits_value a * 10 ^ strlen b + digits_value b.
Proof.
  unfold digits_value at 1. rewrite fold_left_app, fold_digits. reflexivity.
Qed.

Lemma digits_value_repeat_zero (k : nat) : digits_value (repeat c_zero k) = 0.
Proof.
  induction k as [| k IH]; [reflexivity |].
  cbn [repeat]. rewrite digits_value_cons, IH. reflexivity.
Qed.

Lemma digits_value_bounds (s : jsstring) :
  all_digits s -> 0 <= digits_value s < 10 ^ strlen s.
Proof.
  unfold all_digits. induction s as [| c s IH]; intros H.
  - cbn. lia.
  - cbn [forallb] in H. apply andb_true_iff in H as [Hc Hs].
    specialize (IH Hs). pose proof (digit_value_range c Hc).
    rewrite digits_value_cons, strlen_cons.
    rewrite Z.pow_add_r by (pose proof (strlen_nonneg s); lia).
    change (10 ^ 1) with 10. nia.
Qed.

Lemma BigInt_of_digits (s : jsstring) :
  all_digits s -> BigInt_of_string s = Ok (digits_value s).
Proof. unfold all_digits, BigInt_of_string. intros ->. reflexivity. Qed.

Lemma strip_leading_zeros_step (c c' : N) (s : jsstring) :
  strip_leading_zeros (c :: c' :: s)
  = if N.eqb c c_zero && is_digit c' then strip_leading_zeros (c' :: s)
    else c :: c' :: s.
Proof. reflexivity. Qed.

(** Leading zeros carry no value. *)
Lemma strip_leading_zeros_spec (s : jsstring) :
  digits_value (strip_leading_zeros s) = digits_value s
  /\ (all_digits s -> all_digits (strip_leading_zeros s))
  /\ (s <> [] -> strip_leading_zeros s <> []).
Proof.
  induction s as [| c s IH]; [repeat split; auto |].
  destruct s as [| c' s']; [repeat split; auto |].
  rewrite strip_leading_zeros_step.
  destruct (N.eqb_spec c c_zero) as [-> | Hc]; cbn [andb]; [| repeat split; auto].
  destruct (is_digit c') eqn:Hd; [| repeat split; auto].
  destruct IH as (Hval & Hdig & Hne).
  split; [| split].
  - rewrite Hval, (digits_value_cons c_zero). cbn. lia.
  - intros H. apply Hdig. unfold all_digits in *. cbn [forallb] in H.
    apply andb_true_iff in H as [_ H]. exact H.
  - intros _. apply Hne. discriminate.
Qed.

(** *** Printing a bigint *)

Lemma digits_value_rev (l : jsstring) : digits_value (rev l) = lsf_value l.
Proof.
  induction l as [| c l IH]; [reflexivity |].
  cbn [rev lsf_value fold_right]. fold (lsf_value l).
  rewrite digits_value_app, IH, digits_value_unit.
  change (strlen [c]) with 1. lia.
Qed.

Lemma digits_lsf_spec (fuel : nat) (n : Z) :
  0 <= n < 10 ^ Z.of_nat fuel ->
  lsf_value (digits_lsf fuel n) = n /\ all_digits (digits_lsf fuel n).
Proof.
  revert n. induction fuel as [| fuel IH]; intros n Hn.
  - cbn in *. split; [lia | reflexivity].
  - cbn [digits_lsf]. destruct (Z.ltb_spec n 10) as [Hsmall | Hbig].
    + destruct (digit_char_spec n ltac:(lia)) as [Hd Hv].
      split; [cbn; lia |]. unfold all_digits. cbn [forallb]. rewrite Hd. reflexivity.
    + rewrite Nat2Z.inj_succ, Z.pow_succ_r in Hn by lia.
      assert (Hq : 0 <= n / 10 < 10 ^ Z.of_nat fuel).
      { split; [apply Z.div_pos; lia | apply Z.div_lt_upper_bound; lia]. }
      destruct (IH (n / 10) Hq) as [Hval Hdig].
      pose proof (Z.mod_pos_bound n 10 ltac:(lia)) as Hm.
      destruct (digit_char_spec (n mod 10) ltac:(lia)) as [Hd Hv].
      split.
      * cbn [lsf_value fold_right]. fold (lsf_value (digits_lsf fuel (n / 10))).
        rewrite Hval, Hv. pose proof (Z.div_mod n 10 ltac:(lia)). lia.
      * unfold all_digits in *. cbn [forallb]. rewrite Hd, Hdig. reflexivity.
Qed.

Lemma digits_lsf_length (fuel : nat) (n k : Z) :
  0 <= n < 10 ^ k -> 1 <= k -> Z.of_nat (length (digits_lsf fuel n)) <= k.
Proof.
  revert n k. induction fuel as [| fuel IH]; intros n k Hn Hk.
  - cbn. lia.
  - cbn [digits_lsf]. destruct (Z.ltb_spec n 10) as [Hsmall | Hbig].
    + cbn. lia.
    + cbn [length]. rewrite Nat2Z.inj_succ.
      assert (Hk2 : 2 <= k).
      { destruct (Z.eq_dec k 1) as [-> | ]; [| lia]. change (10 ^ 1) with 10 in Hn. lia. }
      replace k with (Z.succ (k - 1)) in Hn by lia.
      rewrite Z.pow_succ_r in Hn by lia.
      assert (Hq : 0 <= n / 10 < 10 ^ (k - 1)).
      { split; [apply Z.div_pos; lia | apply Z.div_lt_upper_bound; lia]. }
      specialize (IH (n / 10) (k - 1) Hq ltac:(lia)). lia.
Qed.

Lemma toString_fuel (m : Z) : 0 <= m -> m < 10 ^ Z.of_nat (S (Z.to_nat (Z.log2 m))).
Proof.
  intros Hm. rewrite Nat2Z.inj_succ, Z2Nat.id by apply Z.log2_nonneg.
  destruct (Z.eq_dec m 0) as [-> | Hnz]; [cbn; lia |].
  pose proof (Z.log2_spec m ltac:(lia)) as [_ Hlt].
  pose proof (Z.log2_nonneg m) as Hlog.
  apply Z.lt_le_trans with (1 := Hlt).
  apply Z.pow_le_mono_l. lia.
Qed.

(** For a non-negative bigint, [toString] is a non-empty string of digits
    that reads back as the number and is no longer than the number needs. *)
Lemma BigInt_toString_nonneg (n : Z) :
  0 <= n ->
  all_digits (BigInt_toString n)
  /\ digits_value (BigInt_toString n) = n
  /\ BigInt_toString n <> []
  /\ (forall k, 1 <= k -> n < 10 ^ k -> strlen (BigInt_toString n) <= k).
Proof.
  intros Hn. unfold BigInt_toString.
  destruct (Z.ltb_spec n 0) as [| _]; [lia |].
  rewrite Z.abs_eq by assumption.
  set (fuel := S (Z.to_nat (Z.log2 n))).
  destruct (digits_lsf_spec fuel n (conj Hn (toString_fuel n Hn))) as [Hval Hdig].
  split; [| split; [| split]].
  - apply all_digits_rev, Hdig.
  - rewrite digits_value_rev. exact Hval.
  - unfold fuel. cbn [digits_lsf]. destruct (n <? 10).
    + discriminate.
    + intros H. apply (f_equal (@length N)) in H.
      rewrite length_rev in H. discriminate.
  - intros k Hk Hlt. unfold strlen. rewrite length_rev.
    apply digits_lsf_length; lia.
Qed.

(** ** What a successful parse returns *)

Lemma test_digits_spec (s : jsstring) :
  test_digits s = true <-> s <> [] /\ all_digits s.
Proof.
  unfold test_digits, all_digits. rewrite andb_true_iff.
  destruct s as [| c s]; cbn [is_empty negb]; split; intros [H1 H2];
    try discriminate; try congruence; split; auto; discriminate.
Qed.

Lemma or_zero_nonempty (s : jsstring) : s <> [] -> or_zero s = s.
Proof. destruct s; [congruence | reflexivity]. Qed.

Lemma or_zero_value (s : jsstring) :
  all_digits s ->
  all_digits (or_zero s) /\ digits_value (or_zero s) = digits_value s.
Proof. destruct s; intros H; split; auto. Qed.

Lemma int_norm_spec (s : jsstring) :
  test_digits s = true ->
  all_digits (or_zero (strip_leading_zeros s))
  /\ or_zero (strip_leading_zeros s) <> []
  /\ digits_value (or_zero (strip_leading_zeros s)) = digits_value s.
Proof.
  intros H. apply test_digits_spec in H as [Hne Hdig].
  destruct (strip_leading_zeros_spec s) as (Hval & Hd & Hn).
  rewrite or_zero_nonempty by auto. auto.
Qed.

Lemma normalizeAmountInput_digits (x : jsstring) (p : ParsedAmount) :
  normalizeAmountInput x = Ok p ->
  all_digits (int p) /\ int p <> [] /\ all_digits (frac p).
Proof.
  unfold normalizeAmountInput.
  destruct (is_empty (trim x)); [discriminate |].
  destruct (match trim x with
            | [] => (Plus, trim x)
            | c :: rest =>
                if N.eqb c c_plus then (Plus, rest)
                else if N.eqb c c_minus then (Minus, rest) else (Plus, trim x)
            end) as [sg s].
  set (body := filter _ (filter _ s)).
  destruct (if (0 <=? lastIndexOf c_dot body) || (0 <=? lastIndexOf c_comma body)
            then Some (if lastIndexOf c_comma body <? lastIndexOf c_dot body
                       then c_dot else c_comma)
            else None) as [sep |].
  - set (intPart := remove_separators (or_zero (hd [] (split sep body)))).
    set (fracPart := remove_separators (concat (tl (split sep body)))).
    destruct (test_digits intPart) eqn:Hint; cbn [negb orb]; [| discriminate].
    destruct (is_empty fracPart) eqn:Hempty; cbn [negb andb].
    + intros H. inversion H; subst; clear H. cbn [int frac].
      destruct (int_norm_spec intPart Hint) as (Hd & Hn & _).
      repeat split; auto. destruct fracPart; [reflexivity | discriminate].
    + destruct (test_digits fracPart) eqn:Hfrac; cbn [negb]; [| discriminate].
      intros H. inversion H; subst; clear H. cbn [int frac].
      destruct (int_norm_spec intPart Hint) as (Hd & Hn & _).
      apply test_digits_spec in Hfrac as [_ Hfd]. auto.
  - set (digits := remove_separators body).
    destruct (test_digits digits) eqn:Hint; cbn [negb]; [| discriminate].
    intros H. inversion H; subst; clear H. cbn [int frac].
    destruct (int_norm_spec digits Hint) as (Hd & Hn & _).
    repeat split; auto.
Qed.

(** ** [toMinor] *)

Lemma skipn_last_unit (l : jsstring) (k : nat) :
  length l = S k -> skipn k l = [nth k l c_zero].
Proof.
  revert l. induction k as [| k IH]; intros l Hl.
  - destruct l as [| c [| c' l']]; try discriminate. reflexivity.
  - destruct l as [| c l']; [discriminate |].
    cbn [skipn nth]. apply IH. cbn in Hl. lia.
Qed.

Lemma nth_digit (l : jsstring) (k : nat) : all_digits l -> is_digit (nth k l c_zero) = true.
Proof.
  unfold all_digits. revert k. induction l as [| c l IH]; intros k H.
  - destruct k; reflexivity.
  - cbn [forallb] in H. apply andb_true_iff in H as [Hc Hl].
    destruct k; [exact Hc | apply IH, Hl].
Qed.

(** The magnitude kept by padding or truncating the fraction to [d] digits
    is the exact magnitude scaled by [10^d] and truncated. *)
Lemma truncated_magnitude_eq (p : ParsedAmount) (d : Z) :
  all_digits (frac p) -> 0 <= d ->
  digits_value (int p) * 10 ^ d + digits_value (pad_or_truncate (frac p) d)
  = truncated_magnitude p d.
Proof.
  intros Hf Hd. unfold truncated_magnitude, pad_or_truncate.
  rewrite digits_value_app.
  set (I := digits_value (int p)). set (F := frac p) in *.
  pose proof (strlen_nonneg F) as HL.
  destruct (Z.leb_spec d (strlen F)) as [Hle | Hgt].
  - (* truncation: F = C ++ R *)
    rewrite <- (firstn_skipn (Z.to_nat d) F) at 2 3.
    set (C := firstn (Z.to_nat d) F). set (R := skipn (Z.to_nat d) F).
    assert (HlenR : strlen R = strlen F - d).
    { unfold R, strlen. rewrite length_skipn. unfold strlen in Hle. lia. }
    assert (HlenC : strlen C = d).
    { unfold C, strlen. rewrite length_firstn. unfold strlen in Hle. lia. }
    pose proof (digits_value_bounds R (all_digits_skipn _ _ Hf)) as HR.
    rewrite digits_value_app, strlen_app, HlenC, HlenR in *.
    replace (d + (strlen F - d)) with (strlen F) by lia.
    assert (Hpow : 10 ^ strlen F = 10 ^ (strlen F - d) * 10 ^ d).
    { rewrite <- Z.pow_add_r by lia. f_equal. lia. }
    pose proof (pow_pos_10 (strlen F - d) ltac:(lia)) as Hp1.
    pose proof (pow_pos_10 d Hd) as Hp2.
    set (a := 10 ^ (strlen F - d)) in *. set (b := 10 ^ d) in *.
    rewrite Hpow.
    apply (Z.div_unique _ (a * b) _ (digits_value R * b)); nia.
  - (* padding *)
    rewrite digits_value_app, strlen_repeat, digits_value_repeat_zero.
    rewrite Z2Nat.id by lia.
    assert (Hpow : 10 ^ d = 10 ^ (d - strlen F) * 10 ^ strlen F).
    { rewrite <- Z.pow_add_r by lia. f_equal. lia. }
    pose proof (pow_pos_10 (d - strlen F) ltac:(lia)) as Hp1.
    pose proof (pow_pos_10 (strlen F) HL) as Hp2.
    set (a := 10 ^ (d - strlen F)) in *. set (b := 10 ^ strlen F) in *.
    rewrite Hpow.
    apply (Z.div_unique_exact _ b); nia.
Qed.

Lemma toMinor_parsed (human : jsstring) (d : Z) (mode : option Rounding)
  (p : ParsedAmount) :
  0 <= d -> normalizeAmountInput human = Ok p ->
  toMinor human d mode
  = Ok (let padded := pad_or_truncate (frac p) (d + 1) in
        let retained := firstn (Z.to_nat d) padded in
        let indicator := nth (Z.to_nat d) padded c_zero in
        let base := digits_value (int p) * 10 ^ d + digits_value retained in
        let adjusted :=
          if N.eqb indicator c_zero then base
          else roundAdjust base Plus (match mode with Some m => m | None => Round end) in
        match sign p with Minus => - adjusted | Plus => adjusted end).
Proof.
  intros Hd Hparse.
  destruct (normalizeAmountInput_digits human p Hparse) as (Hint & _ & Hfrac).
  unfold toMinor.
  destruct (Z.ltb_spec d 0) as [| _]; [lia |].
  rewrite Hparse. cbn [bind].
  rewrite (slice_prefix _ (d + 1)) by lia.
  rewrite (pad_or_truncate_take (frac p) (d + 1) (d + 1)) by lia.
  set (padded := pad_or_truncate (frac p) (d + 1)).
  assert (Hpd : all_digits padded) by (apply pad_or_truncate_digits, Hfrac).
  assert (Hplen : length padded = S (Z.to_nat d)).
  { pose proof (pad_or_truncate_length (frac p) (d + 1) ltac:(lia)) as H.
    fold padded in H. unfold strlen in H. lia. }
  rewrite (slice_prefix padded d), (slice_unit padded d) by assumption.
  rewrite (skipn_last_unit padded (Z.to_nat d) Hplen). cbn [firstn or_zero].
  unfold Number_of_digits. rewrite digits_value_unit.
  rewrite (digit_value_zero_iff _ (nth_digit padded (Z.to_nat d) Hpd)).
  rewrite (BigInt_of_digits _ Hint). cbn [bind].
  rewrite pow10_spec by assumption. cbn [bind].
  destruct (or_zero_value (firstn (Z.to_nat d) padded)
              (all_digits_firstn _ _ Hpd)) as [Hcd Hcv].
  rewrite (BigInt_of_digits _ Hcd), Hcv. cbn [bind]. cbv zeta.
  destruct (N.eqb (nth (Z.to_nat d) padded c_zero) c_zero); reflexivity.
Qed.

(** C3.  On a parseable input and non-negative decimals, [toMinor] pads or
    truncates the fraction to exactly [decimals + 1] digits, keeps the first
    [decimals] of them, looks at the last one only to see whether it is
    zero, forms [base = integer * 10^decimals + retained], applies
    [roundAdjust base (+1) mode] exactly when that digit is not zero and
    negates last under a negative sign.  Under [Floor] the result is
    therefore the sign times the truncated magnitude, which on a negative
    input with discarded digits is one above the floor of the signed value:
    [toMinor "-1.2345" 3 Floor] is [-1234], the floor is [-1235]. *)
Theorem toMinor_spec :
  (forall (human : jsstring) (decimals : Z) (mode : option Rounding)
          (p : ParsedAmount),
      0 <= decimals -> normalizeAmountInput human = Ok p ->
      let padded := pad_or_truncate (frac p) (decimals + 1) in
      let retained := firstn (Z.to_nat decimals) padded in
      let indicator := nth (Z.to_nat decimals) padded c_zero in
      let base := digits_value (int p) * 10 ^ decimals + digits_value retained in
      let adjusted :=
        if N.eqb indicator c_zero then base
        else roundAdjust base Plus (match mode with Some m => m | None => Round end) in
      strlen padded = decimals + 1
      /\ all_digits padded
      /\ retained = pad_or_truncate (frac p) decimals
      /\ toMinor human decimals mode
         = Ok (match sign p with Minus => - adjusted | Plus => adjusted end)
      /\ toMinor human decimals (Some Floor)
         = Ok (sign_Z (sign p) * truncated_magnitude p decimals)
      /\ (sign p = Minus ->
          (digits_value (int p ++ frac p) * 10 ^ decimals)
            mod 10 ^ strlen (frac p) <> 0 ->
          toMinor human decimals (Some Floor) = Ok (floor_of_signed p decimals + 1)))
  /\ toMinor (lit "-1.2345") 3 (Some Floor) = Ok (-1234)
  /\ floor_div (-12345) 10 = -1235.
Proof.
  split; [| split; reflexivity].
  intros human d mode p Hd Hparse.
  destruct (normalizeAmountInput_digits human p Hparse) as (Hint & _ & Hfrac).
  assert (Hfloor : toMinor human d (Some Floor)
                   = Ok (sign_Z (sign p) * truncated_magnitude p d)).
  { rewrite (toMinor_parsed human d (Some Floor) p Hd Hparse). cbv zeta.
    cbn [roundAdjust]. rewrite pad_or_truncate_prefix by assumption.
    rewrite truncated_magnitude_eq by assumption.
    f_equal. destruct (N.eqb _ c_zero), (sign p); cbn [sign_Z]; lia. }
  cbv zeta. split; [apply pad_or_truncate_length; lia |].
  split; [apply pad_or_truncate_digits, Hfrac |].
  split; [apply pad_or_truncate_prefix, Hd |].
  split; [apply (toMinor_parsed human d mode p Hd Hparse) |].
  split; [exact Hfloor |].
  intros Hneg Hrem. rewrite Hfloor. f_equal.
  unfold floor_of_signed, floor_div, truncated_magnitude. rewrite Hneg. cbn [sign_Z].
  set (V := digits_value (int p ++ frac p) * 10 ^ d) in *.
  replace (-1 * V) with (- V) by lia.
  pose proof (pow_pos_10 (strlen (frac p)) (strlen_nonneg _)) as Hpos.
  rewrite (Z_div_nz_opp_full V (10 ^ strlen (frac p))) by (lia || exact Hrem). lia.
Qed.

Lemma toMinor_spec_witness :
  toMinor (lit "-0012,3456") 2 (Some Floor)
  = Ok (floor_of_signed (mkParsed Minus (lit "12") (lit "3456")) 2 + 1).
Proof.
  destruct toMinor_spec as [H _].
  destruct (H (lit "-0012,3456") 2 (Some Floor) (mkParsed Minus (lit "12") (lit "3456")))
    as (_ & _ & _ & _ & _ & Hfloor); [lia | reflexivity |].
  apply Hfloor; [reflexivity | vm_compute; discriminate].
Defined.

(** ** [priceRatioDecimals] *)

(** C9.  On a parseable price and non-negative [quoteDecimals],
    [priceRatioDecimals] fails exactly when the parsed sign is negative;
    otherwise the fraction is padded or truncated to exactly [quoteDecimals]
    digits, never rounded, and the ratio is [integer * 10^quoteDecimals +
    fraction] over [10^quoteDecimals]: a non-negative numerator over a
    positive power of ten; [priceRatioDecimals 2 "5.4321"] is [543 / 100]. *)
Theorem priceRatioDecimals_spec :
  (forall (quoteDecimals : Z) (priceStr : jsstring) (p : ParsedAmount),
      0 <= quoteDecimals -> normalizeAmountInput priceStr = Ok p ->
      let fraction := pad_or_truncate (frac p) quoteDecimals in
      (is_ok (priceRatioDecimals quoteDecimals priceStr) = false <-> sign p = Minus)
      /\ (sign p = Minus ->
          priceRatioDecimals quoteDecimals priceStr = Err NegativePrice)
      /\ (sign p = Plus ->
          strlen fraction = quoteDecimals
          /\ priceRatioDecimals quoteDecimals priceStr
             = Ok (mkRatio (digits_value (int p) * 10 ^ quoteDecimals
                            + digits_value fraction)
                           (10 ^ quoteDecimals))
          /\ digits_value (int p) * 10 ^ quoteDecimals + digits_value fraction
             = truncated_magnitude p quoteDecimals
          /\ 0 <= digits_value (int p) * 10 ^ quoteDecimals + digits_value fraction
          /\ 0 < 10 ^ quoteDecimals))
  /\ priceRatioDecimals 2 (lit "5.4321") = Ok (mkRatio 543 100).
Proof.
  split; [| reflexivity].
  intros q s p Hq Hparse.
  destruct (normalizeAmountInput_digits s p Hparse) as (Hint & _ & Hfrac).
  cbv zeta.
  assert (Hfd : all_digits (pad_or_truncate (frac p) q))
    by (apply pad_or_truncate_digits, Hfrac).
  assert (Hlen : strlen (pad_or_truncate (frac p) q) = q)
    by (apply pad_or_truncate_length, Hq).
  assert (Hplus : sign p = Plus ->
            priceRatioDecimals q s
            = Ok (mkRatio (digits_value (int p) * 10 ^ q
                           + digits_value (pad_or_truncate (frac p) q))
                          (10 ^ q))).
  { intros Hs. unfold priceRatioDecimals.
    destruct (Z.ltb_spec q 0) as [| _]; [lia |].
    rewrite Hparse. cbn [bind]. rewrite Hs.
    rewrite slice_prefix by assumption.
    rewrite (pad_or_truncate_take (frac p) q q) by lia.
    rewrite BigInt_of_digits by (apply all_digits_app; auto).
    cbn [bind]. rewrite pow10_spec by assumption. cbn [bind].
    rewrite digits_value_app, Hlen. reflexivity. }
  assert (Hminus : sign p = Minus -> priceRatioDecimals q s = Err NegativePrice).
  { intros Hs. unfold priceRatioDecimals.
    destruct (Z.ltb_spec q 0) as [| _]; [lia |].
    rewrite Hparse. cbn [bind]. rewrite Hs. reflexivity. }
  split; [| split; [exact Hminus |]].
  - destruct (sign p) eqn:Hs.
    + rewrite Hplus by reflexivity. cbn [is_ok]. split; discriminate.
    + rewrite Hminus by reflexivity. cbn [is_ok]. split; reflexivity.
  - intros Hs. split; [exact Hlen |]. split; [apply Hplus, Hs |].
    split; [apply truncated_magnitude_eq; assumption |].
    pose proof (digits_value_bounds _ Hint).
    pose proof (digits_value_bounds _ Hfd).
    pose proof (pow_pos_10 q Hq). split; [nia | assumption].
Qed.

Lemma priceRatioDecimals_spec_witness :
  priceRatioDecimals 3 (lit "1_000,5")
  = Ok (mkRatio (digits_value (lit "1000") * 10 ^ 3
                 + digits_value (pad_or_truncate (lit "5") 3))
                (10 ^ 3)).
Proof.
  destruct priceRatioDecimals_spec as [H _].
  destruct (H 3 (lit "1_000,5") (mkParsed Plus (lit "1000") (lit "5")))
    as (_ & _ & Hplus); [lia | reflexivity |].
  destruct (Hplus eq_refl) as (_ & Heq & _). exact Heq.
Defined.

(** ** Signs in rendered strings *)

Lemma all_digits_slice (s : jsstring) (a b : Z) : all_digits s -> all_digits (slice s a b).
Proof. intros H. unfold slice. apply all_digits_firstn, all_digits_skipn, H. Qed.

Lemma digits_no_minus (s : jsstring) :
  all_digits s -> s <> [] -> forall rest, starts_with_minus (s ++ rest) = false.
Proof.
  intros Hd Hne rest. destruct s as [| c s]; [congruence |].
  unfold all_digits in Hd. cbn [forallb] in Hd. apply andb_true_iff in Hd as [Hc _].
  cbn [app starts_with_minus]. apply (digit_plain c Hc).
Qed.

Lemma sign_prefix (neg : bool) (body rest : jsstring) :
  all_digits body -> body <> [] ->
  starts_with_minus ((if neg then [c_minus] else []) ++ body ++ rest) = neg.
Proof.
  intros Hd Hne. destruct neg; [reflexivity |].
  cbn [app]. apply digits_no_minus; assumption.
Qed.

Lemma or_zero_digits (s : jsstring) :
  all_digits s -> all_digits (or_zero s) /\ or_zero s <> [].
Proof. destruct s; intros H; split; auto; discriminate. Qed.

Lemma fromMinor_sign (m d : Z) :
  0 <= d ->
  exists str, fromMinor m d = Ok str /\ starts_with_minus str = (m <? 0).
Proof.
  intros Hd. unfold fromMinor.
  destruct (Z.ltb_spec d 0) as [| _]; [lia |].
  rewrite pow10_spec by assumption. cbn [bind].
  pose proof (pow_pos_10 d Hd) as Hp.
  set (abs := if m <? 0 then - m else m).
  assert (Habs : 0 <= abs) by (unfold abs; destruct (Z.ltb_spec m 0); lia).
  assert (Hi : 0 <= Z.quot abs (10 ^ d)) by (apply Z.quot_pos; lia).
  destruct (BigInt_toString_nonneg _ Hi) as (Hdig & _ & Hne & _).
  eexists. split; [reflexivity |].
  destruct (d =? 0).
  - rewrite <- (app_nil_r (BigInt_toString _)). apply sign_prefix; assumption.
  - apply sign_prefix; assumption.
Qed.

Lemma repeat_snoc_unit {A : Type} (x : A) (k : nat) : repeat x k ++ [x] = repeat x (S k).
Proof. induction k as [| k IH]; [reflexivity |]. cbn [repeat app]. rewrite IH. reflexivity. Qed.

Lemma divToDecimalString_zero_numerator (d s : Z) :
  d < 0 -> 0 < s ->
  divToDecimalString 0 d (Some s) = Ok (lit "-0." ++ repeat c_zero (Z.to_nat s)).
Proof.
  intros Hd Hs. unfold divToDecimalString.
  destruct (Z.eqb_spec d 0) as [| _]; [lia |].
  destruct (Z.ltb_spec s 0) as [| _]; [lia |].
  destruct (Z.ltb_spec d 0) as [_ |]; [| lia].
  rewrite pow10_spec by lia. cbn [bind].
  change (absBig 0) with 0. rewrite Z.mul_0_l, Z.quot_0_l by (rewrite absBig_abs; lia).
  change (BigInt_toString 0) with [c_zero].
  change (negb (Bool.eqb (0 <? 0) true)) with true. cbv iota.
  destruct (Z.ltb_spec 0 s) as [_ |]; [| lia].
  unfold padStart, repeat_unit. change (strlen [c_zero]) with 1.
  replace (s + 1 - 1) with s by lia.
  rewrite repeat_snoc_unit.
  set (str := repeat c_zero (S (Z.to_nat s))).
  assert (Hlen : strlen str = s + 1) by (unfold str; rewrite strlen_repeat; lia).
  unfold slice_from, slice. rewrite Hlen.
  destruct (Z.ltb_spec (- s) 0) as [_ |]; [| lia].
  destruct (Z.ltb_spec (s + 1) 0) as [| _]; [lia |].
  change (0 <? 0) with false. cbv iota.
  rewrite (Z.min_l 0) by lia. rewrite Z.max_l by lia. rewrite Z.min_id.
  replace (s + 1 + - s - 0) with 1 by lia.
  replace (s + 1 + - s) with 1 by lia.
  replace (s + 1 - 1) with s by lia.
  change (Z.to_nat 0) with 0%nat. change (Z.to_nat 1) with 1%nat.
  unfold str. cbn [repeat skipn firstn or_zero].
  rewrite firstn_all2 by (rewrite repeat_length; lia).
  reflexivity.
Qed.

Lemma divToDecimalString_sign (numer denom scale : Z) :
  denom <> 0 -> 0 <= scale ->
  exists str,
    divToDecimalString numer denom (Some scale) = Ok str
    /\ starts_with_minus str = xorb (numer <? 0) (denom <? 0).
Proof.
  intros Hden Hscale. unfold divToDecimalString.
  destruct (Z.eqb_spec denom 0) as [| _]; [contradiction |].
  destruct (Z.ltb_spec scale 0) as [| _]; [lia |].
  rewrite pow10_spec by assumption. cbn [bind].
  pose proof (pow_pos_10 scale Hscale) as Hp.
  rewrite !absBig_abs.
  assert (Hi : 0 <= Z.quot (Z.abs numer * 10 ^ scale) (Z.abs denom))
    by (apply Z.quot_pos; nia).
  destruct (BigInt_toString_nonneg _ Hi) as (Hdig & _ & _ & _).
  set (s := padStart _ _ _).
  assert (Hs : all_digits s).
  { unfold s, padStart, repeat_unit. apply all_digits_app.
    split; [apply all_digits_repeat_zero | exact Hdig]. }
  destruct (or_zero_digits (slice s 0 (- scale)) (all_digits_slice _ _ _ Hs)) as [Hhd Hhne].
  eexists. split; [reflexivity |].
  rewrite sign_prefix by assumption.
  destruct (numer <? 0), (denom <? 0); reflexivity.
Qed.

(** C10.  [divToDecimalString] puts ['-'] in front exactly when one of
    numerator and denominator is negative and the other is not, whatever the
    rendered value: a zero numerator over a negative denominator at a scale
    [s > 0] renders as ["-0."] and [s] zeros.  [fromMinor] puts ['-'] in
    front exactly when the amount is negative, so never on zero. *)
Theorem divToDecimalString_minus_zero :
  (forall numer denom scale : Z,
      denom <> 0 -> 0 <= scale ->
      exists str,
        divToDecimalString numer denom (Some scale) = Ok str
        /\ starts_with_minus str = xorb (numer <? 0) (denom <? 0))
  /\ (forall d s : Z,
         d < 0 -> 0 < s ->
         divToDecimalString 0 d (Some s)
         = Ok (lit "-0." ++ repeat c_zero (Z.to_nat s)))
  /\ (forall m d : Z,
         0 <= d ->
         exists str, fromMinor m d = Ok str /\ starts_with_minus str = (m <? 0))
  /\ (forall d : Z,
         0 <= d ->
         exists str, fromMinor 0 d = Ok str /\ starts_with_minus str = false).
Proof.
  split; [exact divToDecimalString_sign |].
  split; [exact divToDecimalString_zero_numerator |].
  split; [exact fromMinor_sign |].
  intros d Hd. apply (fromMinor_sign 0 d Hd).
Qed.

Lemma divToDecimalString_minus_zero_witness :
  divToDecimalString 0 (-7) (Some 3) = Ok (lit "-0." ++ repeat c_zero (Z.to_nat 3))
  /\ exists str, fromMinor 0 3 = Ok str /\ starts_with_minus str = false.
Proof.
  destruct divToDecimalString_minus_zero as (_ & Hzero & _ & Hfrom).
  split; [apply (Hzero (-7) 3); lia | apply (Hfrom 3); lia].
Defined.

(** ** Parsing what [fromMinor] prints *)

Lemma forallb_impl {A : Type} (f g : A -> bool) (s : list A) :
  (forall x, f x = true -> g x = true) -> forallb f s = true -> forallb g s = true.
Proof.
  intros Himp. rewrite !forallb_forall. intros H x Hx. apply Himp, H, Hx.
Qed.

Lemma filter_all {A : Type} (f : A -> bool) (s : list A) :
  forallb f s = true -> filter f s = s.
Proof.
  induction s as [| x s IH]; [reflexivity |].
  cbn [forallb filter]. intros H. apply andb_true_iff in H as [Hx Hs].
  rewrite Hx, IH by assumption. reflexivity.
Qed.

Lemma dropWhile_no_space (s : jsstring) : no_space s -> dropWhile is_space s = s.
Proof.
  unfold no_space. destruct s as [| c s]; [reflexivity |].
  cbn [forallb dropWhile]. intros H. apply andb_true_iff in H as [Hc _].
  apply negb_true_iff in Hc. rewrite Hc. reflexivity.
Qed.

Lemma trim_no_space (s : jsstring) : no_space s -> trim s = s.
Proof.
  intros H. unfold trim. rewrite (dropWhile_no_space s H).
  rewrite dropWhile_no_space; [apply rev_involutive |].
  unfold no_space in *. rewrite forallb_forall in *.
  intros x Hx. apply H, in_rev, Hx.
Qed.

Lemma lastIndexOf_from_absent (c : N) (s : jsstring) (i best : Z) :
  forallb (fun x => negb (N.eqb x c)) s = true ->
  lastIndexOf_from c s i best = best.
Proof.
  revert i best. induction s as [| x s IH]; intros i best H; [reflexivity |].
  cbn [forallb] in H. apply andb_true_iff in H as [Hx Hs].
  apply negb_true_iff in Hx. cbn [lastIndexOf_from]. rewrite Hx. apply IH, Hs.
Qed.

Lemma lastIndexOf_from_app (c : N) (a b : jsstring) (i best : Z) :
  lastIndexOf_from c (a ++ b) i best
  = lastIndexOf_from c b (i + strlen a) (lastIndexOf_from c a i best).
Proof.
  revert i best. induction a as [| x a IH]; intros i best.
  - cbn [app lastIndexOf_from]. change (strlen []) with 0. rewrite Z.add_0_r. reflexivity.
  - cbn [app lastIndexOf_from]. rewrite IH, strlen_cons. f_equal. lia.
Qed.

Lemma split_absent (sep : N) (s : jsstring) :
  forallb (fun x => negb (N.eqb x sep)) s = true -> split sep s = [s].
Proof.
  induction s as [| x s IH]; intros H; [reflexivity |].
  cbn [forallb] in H. apply andb_true_iff in H as [Hx Hs].
  apply negb_true_iff in Hx. cbn [split]. rewrite Hx, (IH Hs). reflexivity.
Qed.

Lemma split_at_first (sep : N) (a b : jsstring) :
  forallb (fun x => negb (N.eqb x sep)) a = true ->
  split sep (a ++ sep :: b) = a :: split sep b.
Proof.
  induction a as [| x a IH]; intros H.
  - cbn [app split]. rewrite N.eqb_refl. reflexivity.
  - cbn [forallb] in H. apply andb_true_iff in H as [Hx Ha].
    apply negb_true_iff in Hx. cbn [app split]. rewrite Hx, (IH Ha). reflexivity.
Qed.

Section DigitStrings.

Variable s : jsstring.
Hypothesis s_digits : all_digits s.

Lemma digits_no_space : no_space s.
Proof.
  unfold no_space. apply (forallb_impl is_digit); [| exact s_digits].
  intros c Hc. apply negb_true_iff, (digit_plain c Hc).
Qed.

Lemma digits_no_underscore : forallb (fun c => negb (N.eqb c c_underscore)) s = true.
Proof.
  apply (forallb_impl is_digit); [| exact s_digits].
  intros c Hc. apply negb_true_iff, (digit_plain c Hc).
Qed.

Lemma digits_no_dot : forallb (fun c => negb (N.eqb c c_dot)) s = true.
Proof.
  apply (forallb_impl is_digit); [| exact s_digits].
  intros c Hc. apply negb_true_iff, (digit_plain c Hc).
Qed.

Lemma digits_no_comma : forallb (fun c => negb (N.eqb c c_comma)) s = true.
Proof.
  apply (forallb_impl is_digit); [| exact s_digits].
  intros c Hc. apply negb_true_iff, (digit_plain c Hc).
Qed.

Lemma digits_no_separator : remove_separators s = s.
Proof.
  unfold remove_separators. apply filter_all.
  apply (forallb_impl is_digit); [| exact s_digits].
  intros c Hc. apply negb_true_iff, (digit_plain c Hc).
Qed.

End DigitStrings.

Lemma forallb_dotted (f : N -> bool) (a b : jsstring) :
  forallb f a = true -> f c_dot = true -> forallb f b = true ->
  forallb f (a ++ c_dot :: b) = true.
Proof.
  intros Ha Hdot Hb. rewrite forallb_app. cbn [forallb]. rewrite Ha, Hdot, Hb. reflexivity.
Qed.

Lemma normalize_digits_only (i : jsstring) :
  all_digits i -> i <> [] ->
  normalizeAmountInput i = Ok (mkParsed Plus (or_zero (strip_leading_zeros i)) []).
Proof.
  intros Hi Hne. unfold normalizeAmountInput.
  rewrite (trim_no_space i (digits_no_space i Hi)).
  destruct i as [| c i']; [congruence |]. cbn [is_empty]. cbv iota.
  assert (Hc : is_digit c = true).
  { unfold all_digits in Hi. cbn [forallb] in Hi. apply andb_true_iff in Hi. tauto. }
  destruct (digit_plain c Hc) as (_ & _ & _ & Hplus & Hminus & _).
  rewrite Hplus, Hminus.
  set (i := c :: i') in *.
  rewrite (filter_all _ i (digits_no_space i Hi)).
  rewrite (filter_all _ i (digits_no_underscore i Hi)).
  unfold lastIndexOf.
  rewrite (lastIndexOf_from_absent c_dot i _ _ (digits_no_dot i Hi)).
  rewrite (lastIndexOf_from_absent c_comma i _ _ (digits_no_comma i Hi)).
  change ((0 <=? -1) || (0 <=? -1)) with false. cbv iota.
  rewrite (digits_no_separator i Hi).
  assert (Ht : test_digits i = true) by (apply test_digits_spec; auto).
  rewrite Ht. reflexivity.
Qed.

Lemma normalize_digits_dot (i f : jsstring) :
  all_digits i -> i <> [] -> all_digits f ->
  normalizeAmountInput (i ++ c_dot :: f)
  = Ok (mkParsed Plus (or_zero (strip_leading_zeros i)) f).
Proof.
  intros Hi Hne Hf. unfold normalizeAmountInput.
  assert (Hns : no_space (i ++ c_dot :: f)).
  { apply forallb_dotted; [apply digits_no_space, Hi | reflexivity | apply digits_no_space, Hf]. }
  rewrite (trim_no_space _ Hns).
  destruct i as [| c i']; [congruence |]. cbn [is_empty app]. cbv iota.
  assert (Hc : is_digit c = true).
  { unfold all_digits in Hi. cbn [forallb] in Hi. apply andb_true_iff in Hi. tauto. }
  destruct (digit_plain c Hc) as (_ & _ & _ & Hplus & Hminus & _).
  rewrite Hplus, Hminus.
  set (i := c :: i') in *. change (c :: i' ++ c_dot :: f) with (i ++ c_dot :: f) in *.
  rewrite (filter_all _ _ Hns).
  rewrite (filter_all (fun c => negb (N.eqb c c_underscore)) (i ++ c_dot :: f))
    by (apply forallb_dotted;
        [apply digits_no_underscore, Hi | reflexivity | apply digits_no_underscore, Hf]).
  assert (Hdot : lastIndexOf c_dot (i ++ c_dot :: f) = strlen i).
  { unfold lastIndexOf. rewrite lastIndexOf_from_app.
    rewrite (lastIndexOf_from_absent c_dot i _ _ (digits_no_dot i Hi)).
    cbn [lastIndexOf_from]. rewrite N.eqb_refl.
    rewrite (lastIndexOf_from_absent c_dot f _ _ (digits_no_dot f Hf)). lia. }
  assert (Hcomma : lastIndexOf c_comma (i ++ c_dot :: f) = -1).
  { unfold lastIndexOf. apply lastIndexOf_from_absent.
    apply forallb_dotted;
      [apply digits_no_comma, Hi | reflexivity | apply digits_no_comma, Hf]. }
  rewrite Hdot, Hcomma.
  pose proof (strlen_nonneg i) as Hlen.
  destruct (Z.leb_spec 0 (strlen i)) as [_ |]; [| lia]. cbn [orb].
  destruct (Z.ltb_spec (-1) (strlen i)) as [_ |]; [| lia].
  rewrite (split_at_first c_dot i f (digits_no_dot i Hi)).
  rewrite (split_absent c_dot f (digits_no_dot f Hf)).
  cbn [hd tl concat]. rewrite app_nil_r.
  rewrite (or_zero_nonempty i Hne).
  rewrite (digits_no_separator i Hi), (digits_no_separator f Hf).
  assert (Ht : test_digits i = true) by (apply test_digits_spec; auto).
  rewrite Ht. cbn [negb orb].
  destruct f as [| c' f']; [reflexivity |].
  assert (Htf : test_digits (c' :: f') = true)
    by (apply test_digits_spec; split; [discriminate | exact Hf]).
  rewrite Htf. reflexivity.
Qed.

(** ** The round trip *)

Lemma padStart_digits (f d : Z) :
  1 <= d -> 0 <= f < 10 ^ d ->
  let padded := padStart (BigInt_toString f) d c_zero in
  all_digits padded /\ strlen padded = d /\ digits_value padded = f.
Proof.
  intros Hd Hf. cbv zeta.
  destruct (BigInt_toString_nonneg f (proj1 Hf)) as (Hdig & Hval & _ & Hlen).
  specialize (Hlen d Hd (proj2 Hf)).
  pose proof (strlen_nonneg (BigInt_toString f)).
  unfold padStart, repeat_unit. split; [| split].
  - apply all_digits_app. split; [apply all_digits_repeat_zero | exact Hdig].
  - rewrite strlen_app, strlen_repeat. lia.
  - rewrite digits_value_app, digits_value_repeat_zero, Hval. lia.
Qed.

Lemma fromMinor_nonneg (m d : Z) :
  0 <= m -> 0 <= d ->
  fromMinor m d
  = Ok (if d =? 0 then BigInt_toString m
        else BigInt_toString (m / 10 ^ d)
             ++ c_dot :: padStart (BigInt_toString (m mod 10 ^ d)) d c_zero).
Proof.
  intros Hm Hd. unfold fromMinor.
  destruct (Z.ltb_spec d 0) as [| _]; [lia |].
  destruct (Z.ltb_spec m 0) as [| _]; [lia |].
  rewrite pow10_spec by assumption. cbn [bind app].
  pose proof (pow_pos_10 d Hd) as Hp.
  destruct (Zquotrem_Zdiv_eucl_pos m (10 ^ d) Hm Hp) as [-> ->].
  destruct (Z.eqb_spec d 0) as [-> | _]; [| reflexivity].
  change (10 ^ 0) with 1. rewrite Z.div_1_r. reflexivity.
Qed.

(** A positive parse whose fraction already has [d] digits converts
    exactly, under every rounding mode. *)
Lemma toMinor_exact (human : jsstring) (d : Z) (mode : option Rounding)
  (p : ParsedAmount) :
  0 <= d -> normalizeAmountInput human = Ok p ->
  sign p = Plus -> strlen (frac p) = d ->
  toMinor human d mode = Ok (digits_value (int p) * 10 ^ d + digits_value (frac p)).
Proof.
  intros Hd Hparse Hsign Hlen.
  rewrite (toMinor_parsed human d mode p Hd Hparse). cbv zeta.
  rewrite Hsign, pad_or_truncate_prefix by assumption.
  assert (Hret : pad_or_truncate (frac p) d = frac p).
  { unfold pad_or_truncate. rewrite Hlen, Z.leb_refl.
    apply firstn_all2. unfold strlen in Hlen. lia. }
  assert (Hind : nth (Z.to_nat d) (pad_or_truncate (frac p) (d + 1)) c_zero = c_zero).
  { unfold pad_or_truncate. rewrite Hlen.
    destruct (Z.leb_spec (d + 1) d) as [| _]; [lia |].
    rewrite app_nth2 by (unfold strlen in Hlen; lia).
    replace (d + 1 - d) with 1 by lia. cbn [Z.to_nat Pos.to_nat Pos.iter_op repeat].
    destruct (Z.to_nat d - length (frac p))%nat as [| [| k]]; reflexivity. }
  rewrite Hret, Hind, N.eqb_refl. reflexivity.
Qed.

(** C2.  For every non-negative amount [m] and non-negative [d], parsing
    what [fromMinor m d] prints at the same [d] gives [m] back, whatever the
    rounding mode. *)
Theorem toMinor_fromMinor_roundtrip (m d : Z) (mode : option Rounding) :
  0 <= m -> 0 <= d ->
  exists str, fromMinor m d = Ok str /\ toMinor str d mode = Ok m.
Proof.
  intros Hm Hd. rewrite (fromMinor_nonneg m d Hm Hd).
  eexists. split; [reflexivity |].
  pose proof (pow_pos_10 d Hd) as Hp.
  destruct (Z.eqb_spec d 0) as [-> | Hnz].
  - destruct (BigInt_toString_nonneg m Hm) as (Hdig & Hval & Hne & _).
    rewrite (toMinor_exact _ 0 mode _ (Z.le_refl 0)
               (normalize_digits_only _ Hdig Hne) eq_refl eq_refl).
    cbn [int frac].
    destruct (int_norm_spec (BigInt_toString m)) as (_ & _ & ->);
      [apply test_digits_spec; auto |].
    rewrite Hval. f_equal. change (digits_value []) with 0. change (10 ^ 0) with 1. lia.
  - assert (Hi : 0 <= m / 10 ^ d) by (apply Z.div_pos; lia).
    pose proof (Z.mod_pos_bound m (10 ^ d) Hp) as Hf.
    destruct (BigInt_toString_nonneg _ Hi) as (Hdig & Hval & Hne & _).
    destruct (padStart_digits (m mod 10 ^ d) d ltac:(lia) Hf) as (Hfd & Hfl & Hfv).
    rewrite (toMinor_exact _ d mode _ Hd
               (normalize_digits_dot _ _ Hdig Hne Hfd) eq_refl Hfl).
    cbn [int frac].
    destruct (int_norm_spec (BigInt_toString (m / 10 ^ d))) as (_ & _ & ->);
      [apply test_digits_spec; auto |].
    rewrite Hval, Hfv. f_equal.
    pose proof (Z.div_mod m (10 ^ d) ltac:(lia)). lia.
Qed.

Lemma toMinor_fromMinor_roundtrip_witness :
  exists str, fromMinor 1234567 4 = Ok str /\ toMinor str 4 None = Ok 1234567.
Proof. apply (toMinor_fromMinor_roundtrip 1234567 4 None); lia. Defined.

(* ===================================================================== *)
(** * Further properties of the code *)
(* ===================================================================== *)

(** ** The power-of-ten cache *)

(** X1.  [pow10] returns the power of ten for every non-negative exponent,
    from the 39-entry cache or computed past it, so the two paths agree at
    the boundary; a negative exponent is refused. *)
Theorem pow10_cache_agrees (n : Z) :
  (0 <= n -> pow10 n = Ok (10 ^ n))
  /\ (n < 0 -> pow10 n = Err Pow10Argument)
  /\ length POW10 = 39%nat
  /\ (0 <= n < 39 -> nth (Z.to_nat n) POW10 0 = 10 ^ n).
Proof.
  split; [apply pow10_spec |]. split; [apply pow10_error |].
  split; [reflexivity |].
  intros Hn. pose proof (pow10_spec n (proj1 Hn)) as H. unfold pow10 in H.
  destruct (Z.ltb_spec n 0) as [| _]; [lia |].
  destruct (Z.ltb_spec n (Z.of_nat (length POW10))) as [_ | Hge].
  - congruence.
  - change (Z.of_nat (length POW10)) with 39 in Hge. lia.
Qed.

Lemma pow10_cache_agrees_witness :
  pow10 38 = Ok (10 ^ 38) /\ pow10 39 = Ok (10 ^ 39) /\ pow10 (-1) = Err Pow10Argument.
Proof.
  destruct (pow10_cache_agrees 38) as (H38 & _).
  destruct (pow10_cache_agrees 39) as (H39 & _).
  destruct (pow10_cache_agrees (-1)) as (_ & Hneg & _).
  split; [apply H38; lia |]. split; [apply H39; lia | apply Hneg; lia].
Defined.

(** ** More on the rounding engine *)

Lemma divRound_policy_floor (n d : Z) :
  d <> 0 -> divRound_policy n d Floor = floor_div n d.
Proof.
  intros Hd. pose proof (divRound_floor n d Hd) as H.
  rewrite divRound_policy_ok in H by assumption. congruence.
Qed.

Lemma divRound_policy_ceil (n d : Z) :
  d <> 0 -> divRound_policy n d Ceil = ceil_div n d.
Proof.
  intros Hd. pose proof (divRound_ceil n d Hd) as H.
  rewrite divRound_policy_ok in H by assumption. congruence.
Qed.

(** The facts about the truncating quotient and remainder every case
    analysis below starts from. *)
Lemma quot_rem_facts (n d : Z) :
  d <> 0 ->
  n = d * Z.quot n d + Z.rem n d
  /\ Z.abs (Z.rem n d) < Z.abs d
  /\ (Z.rem n d <> 0 ->
      (0 < n /\ 0 < Z.rem n d) \/ (n < 0 /\ Z.rem n d < 0)).
Proof.
  intros Hd. split; [apply Z.quot_rem' |].
  split; [apply Z.rem_bound_abs, Hd | apply rem_sign_cases, Hd].
Qed.

(** X2.  Whatever the mode, the result of [divRound] lies between the floor
    and the ceiling of the exact quotient, which are at most one apart, and
    all four modes return the exact quotient when the division is exact. *)
Theorem divRound_between_floor_and_ceil (n d : Z) (mode : Rounding) :
  d <> 0 ->
  exists r,
    divRound n d mode = Ok r
    /\ floor_div n d <= r <= ceil_div n d
    /\ ceil_div n d - floor_div n d <= 1
    /\ (Z.rem n d = 0 -> r = Z.quot n d /\ n = d * r).
Proof.
  intros Hd. exists (divRound_policy n d mode).
  split; [apply divRound_policy_ok, Hd |].
  rewrite <- (divRound_policy_floor n d Hd), <- (divRound_policy_ceil n d Hd).
  destruct (quot_rem_facts n d Hd) as (Hqr & Hbound & Hsign).
  unfold divRound_policy, share_sign.
  set (q := Z.quot n d) in *. set (r := Z.rem n d) in *.
  destruct (Z.eqb_spec r 0) as [Hr | Hr].
  - rewrite Hr in *. cbn [negb andb]. rewrite !andb_false_r.
    repeat split; destruct mode; split_ifs; lia.
  - specialize (Hsign Hr). cbn [negb]. rewrite !andb_true_r.
    repeat split; try (intros; contradiction);
      destruct mode; split_ifs; lia.
Qed.

Lemma divRound_between_floor_and_ceil_witness :
  exists r, divRound (-7) 2 Bankers = Ok r
            /\ floor_div (-7) 2 <= r <= ceil_div (-7) 2.
Proof.
  destruct (divRound_between_floor_and_ceil (-7) 2 Bankers) as (r & Hr & Hb & _); [lia |].
  exists r. split; assumption.
Defined.

(** X3.  Under [Round] and [Bankers] the result is a nearest integer: the
    numerator is at most half a denominator away from [d * result]. *)
Theorem divRound_nearest (n d : Z) (mode : Rounding) :
  d <> 0 -> mode = Round \/ mode = Bankers ->
  exists r, divRound n d mode = Ok r /\ 2 * Z.abs (n - d * r) <= Z.abs d.
Proof.
  intros Hd Hmode. exists (divRound_policy n d mode).
  split; [apply divRound_policy_ok, Hd |].
  destruct (quot_rem_facts n d Hd) as (Hqr & Hbound & Hsign).
  unfold divRound_policy, share_sign.
  set (q := Z.quot n d) in *. set (r := Z.rem n d) in *.
  destruct (Z.eq_dec r 0) as [Hr | Hr].
  - rewrite Hr in *. destruct Hmode as [-> | ->]; split_ifs; nia.
  - specialize (Hsign Hr).
    destruct Hmode as [-> | ->]; split_ifs; nia.
Qed.

Lemma divRound_nearest_witness :
  exists r, divRound 7 (-2) Round = Ok r /\ 2 * Z.abs (7 - (-2) * r) <= Z.abs (-2).
Proof. apply (divRound_nearest 7 (-2) Round); [lia | left; reflexivity]. Defined.

(** X4.  On an exact tie, [2 * |r| = |d|], [Bankers] returns an even
    integer and [Round] returns the neighbour away from zero. *)
Theorem divRound_tie_break (n d : Z) :
  d <> 0 -> 2 * Z.abs (Z.rem n d) = Z.abs d ->
  (exists b, divRound n d Bankers = Ok b /\ Z.even b = true)
  /\ (exists a, divRound n d Round = Ok a /\ Z.abs a = Z.abs (Z.quot n d) + 1).
Proof.
  intros Hd Htie.
  destruct (quot_rem_facts n d Hd) as (Hqr & Hbound & Hsign).
  assert (Hr : Z.rem n d <> 0) by lia. specialize (Hsign Hr).
  split.
  - exists (divRound_policy n d Bankers).
    split; [apply divRound_policy_ok, Hd |].
    unfold divRound_policy, share_sign.
    destruct (Z.ltb_spec (Z.abs d) (2 * Z.abs (Z.rem n d))); [lia |].
    destruct (Z.ltb_spec (2 * Z.abs (Z.rem n d)) (Z.abs d)); [lia |].
    destruct (Z.odd (Z.quot n d)) eqn:Hodd.
    + rewrite Z.even_add, <- Z.negb_odd, Hodd.
      destruct (Z.sgn n =? Z.sgn d); reflexivity.
    + rewrite <- Z.negb_odd, Hodd. reflexivity.
  - exists (divRound_policy n d Round).
    split; [apply divRound_policy_ok, Hd |].
    unfold divRound_policy, share_sign.
    set (q := Z.quot n d) in *. set (r := Z.rem n d) in *.
    destruct (Z.leb_spec (Z.abs d) (2 * Z.abs r)); [| lia].
    destruct (Z.eqb_spec (Z.sgn n) (Z.sgn d)); nia.
Qed.

Lemma divRound_tie_break_witness :
  (exists b, divRound 5 2 Bankers = Ok b /\ Z.even b = true)
  /\ (exists a, divRound 5 2 Round = Ok a /\ Z.abs a = Z.abs (Z.quot 5 2) + 1).
Proof. apply (divRound_tie_break 5 2); [lia | reflexivity]. Defined.

(** X5.  Negating both operands changes nothing; negating the numerator
    negates the result under [Round] and [Bankers] and swaps [Floor] with
    [Ceil]. *)
Theorem divRound_negation (n d : Z) (mode : Rounding) :
  d <> 0 ->
  divRound (- n) (- d) mode = divRound n d mode
  /\ (forall r, divRound n d Round = Ok r -> divRound (- n) d Round = Ok (- r))
  /\ (forall r, divRound n d Bankers = Ok r -> divRound (- n) d Bankers = Ok (- r))
  /\ (forall r, divRound n d Ceil = Ok r -> divRound (- n) d Floor = Ok (- r))
  /\ (forall r, divRound n d Floor = Ok r -> divRound (- n) d Ceil = Ok (- r)).
Proof.
  intros Hd.
  assert (Hpol : forall m r, divRound n d m = Ok r -> r = divRound_policy n d m).
  { intros m r H. rewrite divRound_policy_ok in H by assumption. congruence. }
  assert (Hsgn : Z.sgn (- n) = - Z.sgn n) by lia.
  split; [| split; [| split; [| split]]].
  - rewrite !divRound_policy_ok by lia. f_equal.
    unfold divRound_policy, share_sign.
    rewrite Z.quot_opp_opp, Z.rem_opp_opp by assumption.
    rewrite !Z.abs_opp.
    replace (Z.sgn (- n) =? Z.sgn (- d)) with (Z.sgn n =? Z.sgn d)
      by (destruct (Z.eqb_spec (Z.sgn n) (Z.sgn d)), (Z.eqb_spec (Z.sgn (- n)) (Z.sgn (- d))); lia).
    replace (- Z.rem n d =? 0) with (Z.rem n d =? 0)
      by (destruct (Z.eqb_spec (Z.rem n d) 0), (Z.eqb_spec (- Z.rem n d) 0); lia).
    reflexivity.
  - intros r H. apply Hpol in H. subst r.
    rewrite divRound_policy_ok by assumption. f_equal.
    destruct (quot_rem_facts n d Hd) as (Hqr & Hbound & Hsign).
    unfold divRound_policy, share_sign.
    rewrite Z.quot_opp_l, Z.rem_opp_l, Z.abs_opp by assumption.
    destruct (Z.eq_dec n 0) as [-> | Hn].
    + rewrite Z.rem_0_l in * by assumption. split_ifs; lia.
    + split_ifs; lia.
  - intros r H. apply Hpol in H. subst r.
    rewrite divRound_policy_ok by assumption. f_equal.
    destruct (quot_rem_facts n d Hd) as (Hqr & Hbound & Hsign).
    unfold divRound_policy, share_sign.
    rewrite Z.quot_opp_l, Z.rem_opp_l, Z.abs_opp, Z.odd_opp by assumption.
    destruct (Z.eq_dec n 0) as [-> | Hn].
    + rewrite Z.rem_0_l in * by assumption. split_ifs; lia.
    + split_ifs; lia.
  - intros r H. rewrite divRound_ceil in H by assumption.
    rewrite divRound_floor by assumption. unfold floor_div, ceil_div in *.
    f_equal. injection H as <-. lia.
  - intros r H. rewrite divRound_floor in H by assumption.
    rewrite divRound_ceil by assumption. unfold floor_div, ceil_div in *.
    f_equal. injection H as <-. rewrite Z.opp_involutive. reflexivity.
Qed.

Lemma divRound_negation_witness :
  divRound (- 7) (- 2) Bankers = divRound 7 2 Bankers
  /\ divRound (- 5) 2 Round = Ok (- 3).
Proof.
  destruct (divRound_negation 7 2 Bankers) as [H _]; [lia |].
  destruct (divRound_negation 5 2 Round) as (_ & H' & _); [lia |].
  split; [exact H | exact (H' 3 eq_refl)].
Defined.

(** ** More on basis points and slippage *)

Lemma Qtrunc_inject (z : Z) : Qtrunc (inject_Z z) = z.
Proof. unfold Qtrunc, inject_Z; cbn [Qnum Qden]. apply Z.quot_1_r. Qed.

Lemma clampBps_fin (q : Q) :
  clampBps (Fin q) = number_of_Z (Z.max 0 (Z.min 10000 (Qtrunc q))).
Proof.
  unfold clampBps, number_of_Z. cbn [Math_trunc].
  rewrite Math_min_inject, Math_max_inject. reflexivity.
Qed.

(** X6.  [clampBps] is idempotent on every number; on everything but NaN
    its result is an integer between 0 and 10000 (the infinities clamp to
    the two ends), and NaN comes back as NaN. *)
Theorem clampBps_idempotent_in_range (bps : number) :
  clampBps (clampBps bps) = clampBps bps
  /\ (bps <> NaN -> exists b, clampBps bps = number_of_Z b /\ 0 <= b <= 10000)
  /\ clampBps NaN = NaN
  /\ clampBps PosInf = number_of_Z 10000
  /\ clampBps NegInf = number_of_Z 0.
Proof.
  assert (Hfix : forall b, 0 <= b <= 10000 ->
            clampBps (number_of_Z b) = number_of_Z b).
  { intros b Hb. unfold number_of_Z at 1. rewrite clampBps_fin, Qtrunc_inject.
    f_equal. lia. }
  split; [| split; [| repeat split]].
  - destruct bps as [| | | q]; try reflexivity.
    rewrite clampBps_fin. apply Hfix. lia.
  - intros Hnan. destruct bps as [| | | q].
    + congruence.
    + exists 10000. split; [reflexivity | lia].
    + exists 0. split; [reflexivity | lia].
    + eexists. split; [apply clampBps_fin | lia].
Qed.

Lemma clampBps_idempotent_in_range_witness :
  exists b, clampBps (Fin (-7 # 2)) = number_of_Z b /\ 0 <= b <= 10000.
Proof.
  destruct (clampBps_idempotent_in_range (Fin (-7 # 2))) as (_ & H & _).
  apply H. discriminate.
Defined.

Lemma slippageDown_value (amount : Z) (bps : number) (b : Z) :
  clamp_bps_value bps = Some b ->
  slippageDown amount bps = Ok (Z.quot (amount * (10000 - b)) 10000).
Proof.
  intros Hb. destruct (clampBps_value bps b Hb) as [Hclamp _].
  unfold slippageDown. rewrite Hclamp. reflexivity.
Qed.

Lemma slippageUp_value (amount : Z) (bps : number) (b : Z) :
  clamp_bps_value bps = Some b ->
  slippageUp amount bps
  = Ok (if Z.rem (amount * (10000 + b)) 10000 =? 0
        then Z.quot (amount * (10000 + b)) 10000
        else Z.quot (amount * (10000 + b)) 10000 + 1).
Proof.
  intros Hb. destruct (clampBps_value bps b Hb) as [Hclamp _].
  unfold slippageUp. rewrite Hclamp. reflexivity.
Qed.

(** X7.  For a non-negative amount and any bps but NaN the two protections
    bracket the amount, [0 <= slippageDown <= amount <= slippageUp <=
    2 * amount], and each is the exact share rounded against the trader by
    less than one unit. *)
Theorem slippage_brackets_amount (amount : Z) (bps : number) (b : Z) :
  0 <= amount -> clamp_bps_value bps = Some b ->
  exists lo hi,
    slippageDown amount bps = Ok lo
    /\ slippageUp amount bps = Ok hi
    /\ 0 <= lo <= amount /\ amount <= hi <= 2 * amount
    /\ 10000 * lo <= amount * (10000 - b) < 10000 * (lo + 1)
    /\ 10000 * (hi - 1) < amount * (10000 + b) <= 10000 * hi.
Proof.
  intros Ha Hb. destruct (clampBps_value bps b Hb) as [_ Hrange].
  rewrite (slippageDown_value amount bps b Hb), (slippageUp_value amount bps b Hb).
  rewrite (bump_is_ceil_nonneg (amount * (10000 + b)) 10000) by nia.
  rewrite Z.quot_div_nonneg by nia.
  do 2 eexists. split; [reflexivity |]. split; [reflexivity |].
  unfold ceil_div.
  pose proof (Z.div_mod (amount * (10000 - b)) 10000 ltac:(lia)) as Hlo.
  pose proof (Z.mod_pos_bound (amount * (10000 - b)) 10000 ltac:(lia)) as Hlob.
  pose proof (Z.div_mod (- (amount * (10000 + b))) 10000 ltac:(lia)) as Hhi.
  pose proof (Z.mod_pos_bound (- (amount * (10000 + b))) 10000 ltac:(lia)) as Hhib.
  set (lo := amount * (10000 - b) / 10000) in *.
  set (nhi := - (amount * (10000 + b)) / 10000) in *.
  repeat split; nia.
Qed.

Lemma slippage_brackets_amount_witness :
  exists lo hi,
    slippageDown 12345 (Fin (299 # 2)) = Ok lo
    /\ slippageUp 12345 (Fin (299 # 2)) = Ok hi
    /\ 0 <= lo <= 12345 /\ 12345 <= hi <= 2 * 12345.
Proof.
  destruct (slippage_brackets_amount 12345 (Fin (299 # 2)) 149) as
    (lo & hi & Hlo & Hhi & H1 & H2 & _); [lia | reflexivity |].
  exists lo, hi. split; [exact Hlo |]. split; [exact Hhi |]. split; assumption.
Defined.

(** X8.  On a finite bps between 0 and 10000 [slippageDown] and
    [applySlippage] agree for every amount; above 10000 [applySlippage]
    does not cap: on a positive amount its result is zero or negative,
    where [slippageDown] returns exactly zero. *)
Theorem applySlippage_vs_slippageDown (amount : Z) (q : Q) :
  number_ltb0 (Fin q) = false ->
  (Qtrunc q <= 10000 -> applySlippage amount (Fin q) = slippageDown amount (Fin q))
  /\ (10000 < Qtrunc q -> 0 < amount ->
      slippageDown amount (Fin q) = Ok 0
      /\ exists r, applySlippage amount (Fin q) = Ok r /\ r <= 0
                   /\ (10000 <= amount * (Qtrunc q - 10000) -> r < 0)).
Proof.
  intros Hneg.
  assert (Hq : 0 <= Qtrunc q).
  { unfold Qtrunc. apply Z.quot_pos; [| lia].
    cbn [number_ltb0] in Hneg. destruct (Z.ltb_spec (Qnum q) 0); [discriminate | lia]. }
  rewrite applySlippage_value by assumption.
  split.
  - intros Hle. rewrite (slippageDown_value amount (Fin q) (Qtrunc q)); [reflexivity |].
    cbn [clamp_bps_value]. f_equal. lia.
  - intros Hgt Ha. split.
    + rewrite (slippageDown_value amount (Fin q) 10000).
      * rewrite Z.sub_diag, Z.mul_0_r. reflexivity.
      * cbn [clamp_bps_value]. f_equal. lia.
    + eexists. split; [reflexivity |].
      set (e := Qtrunc q - 10000).
      replace (amount * (10000 - Qtrunc q)) with (- (amount * e)) by (unfold e; lia).
      rewrite Z.quot_opp_l by lia.
      assert (He : 0 <= amount * e) by (unfold e; nia).
      rewrite Z.quot_div_nonneg by lia.
      pose proof (Z.div_pos (amount * e) 10000 He ltac:(lia)).
      split; [lia |]. intros Hbig.
      pose proof (Z.div_le_mono 10000 (amount * e) 10000 ltac:(lia) Hbig) as Hm.
      rewrite Z.div_same in Hm by lia. lia.
Qed.

Lemma applySlippage_vs_slippageDown_witness :
  applySlippage (-7) (Fin (101 # 2)) = slippageDown (-7) (Fin (101 # 2))
  /\ slippageDown 5 (Fin (20000 # 1)) = Ok 0.
Proof.
  destruct (applySlippage_vs_slippageDown (-7) (101 # 2) eq_refl) as [H _].
  destruct (applySlippage_vs_slippageDown 5 (20000 # 1) eq_refl) as [_ H'].
  split; [apply H; vm_compute; discriminate |].
  apply H'; [reflexivity | lia].
Defined.

Lemma applyBps_value (units : Z) (q : Q) (mode : Rounding) :
  applyBps units (Fin q) mode = divRound (units * Qtrunc q) 10000 mode.
Proof.
  unfold applyBps, mulDiv. cbn [to_bigint]. rewrite BigInt_of_trunc. reflexivity.
Qed.

(** X9.  [applyBps] fails exactly on NaN and the infinities, with the
    RangeError of the BigInt conversion and never with DivisionByZero; on a
    finite bps it is [divRound (units * trunc bps) 10000]; 10000 bps give
    the amount back and 0 bps give 0 under every mode. *)
Theorem applyBps_behaviour (units : Z) (bps : number) (mode : Rounding) :
  (Number_isFinite bps = false -> applyBps units bps mode = Err RangeError)
  /\ (forall q, bps = Fin q ->
        exists r, applyBps units bps mode = Ok r
                  /\ divRound (units * Qtrunc q) 10000 mode = Ok r)
  /\ applyBps units (number_of_Z 10000) mode = Ok units
  /\ applyBps units (number_of_Z 0) mode = Ok 0.
Proof.
  split; [| split; [| split]].
  - destruct bps; try reflexivity. discriminate.
  - intros q ->. rewrite applyBps_value.
    rewrite divRound_policy_ok by lia. eexists. split; reflexivity.
  - unfold number_of_Z. rewrite applyBps_value, Qtrunc_inject.
    apply divRound_exact. lia.
  - unfold number_of_Z. rewrite applyBps_value, Qtrunc_inject, Z.mul_0_r.
    reflexivity.
Qed.

Lemma applyBps_behaviour_witness :
  applyBps 7 PosInf Round = Err RangeError
  /\ exists r, applyBps 1000000 (Fin (51 # 2)) Round = Ok r
               /\ divRound (1000000 * 25) 10000 Round = Ok r.
Proof.
  destruct (applyBps_behaviour 7 PosInf Round) as [H _].
  destruct (applyBps_behaviour 1000000 (Fin (51 # 2)) Round) as (_ & H' & _).
  split; [apply H; reflexivity | apply (H' (51 # 2)); reflexivity].
Defined.

(** X10.  What [slippageDown] keeps and what [applyBps] takes under [Ceil]
    add up to the amount: for a non-negative amount and an integer bps in
    [0, 10000], [slippageDown amount bps = amount - applyBps amount bps Ceil]. *)
Theorem slippageDown_complements_applyBps (amount b : Z) :
  0 <= amount -> 0 <= b <= 10000 ->
  exists lo fee,
    slippageDown amount (number_of_Z b) = Ok lo
    /\ applyBps amount (number_of_Z b) Ceil = Ok fee
    /\ lo + fee = amount.
Proof.
  intros Ha Hb.
  rewrite (slippageDown_value amount (number_of_Z b) b)
    by (cbn [number_of_Z clamp_bps_value]; rewrite Qtrunc_inject; f_equal; lia).
  unfold number_of_Z. rewrite applyBps_value, Qtrunc_inject.
  rewrite divRound_ceil by lia.
  do 2 eexists. split; [reflexivity |]. split; [reflexivity |].
  rewrite Z.quot_div_nonneg by nia. unfold ceil_div.
  replace (amount * (10000 - b)) with (- (amount * b) + amount * 10000) by lia.
  rewrite Z.div_add by lia. lia.
Qed.

Lemma slippageDown_complements_applyBps_witness :
  exists lo fee,
    slippageDown 999 (number_of_Z 33) = Ok lo
    /\ applyBps 999 (number_of_Z 33) Ceil = Ok fee
    /\ lo + fee = 999.
Proof. apply (slippageDown_complements_applyBps 999 33); lia. Defined.

(** ** More on precision scaling *)

Lemma decimals_guard (u v : Z) :
  (u <? 0) || (v <? 0) = false <-> 0 <= u /\ 0 <= v.
Proof.
  destruct (Z.ltb_spec u 0) as [Hu | Hu], (Z.ltb_spec v 0) as [Hv | Hv]; cbn [orb];
    split; intros G; try discriminate; try lia; reflexivity.
Qed.

Lemma scaleUnits_same (x a : Z) (mode : option Rounding) :
  0 <= a -> scaleUnits x a a mode = Ok x.
Proof.
  intros Ha. unfold scaleUnits.
  rewrite (proj2 (decimals_guard a a)) by lia. rewrite Z.eqb_refl. reflexivity.
Qed.

Lemma scaleUnits_widen (x a b : Z) (mode : option Rounding) :
  0 <= a -> a <= b -> scaleUnits x a b mode = Ok (x * 10 ^ (b - a)).
Proof.
  intros Ha Hab. unfold scaleUnits.
  rewrite (proj2 (decimals_guard a b)) by lia.
  destruct (Z.eqb_spec a b) as [<- | Hne].
  - rewrite Z.sub_diag. f_equal. change (10 ^ 0) with 1. lia.
  - destruct (Z.ltb_spec a b); [| lia]. rewrite pow10_spec by lia. reflexivity.
Qed.

Lemma scaleUnits_narrow (x a b : Z) (mode : option Rounding) :
  0 <= b -> b < a ->
  scaleUnits x a b mode
  = divRound x (10 ^ (a - b)) (match mode with Some m => m | None => Floor end).
Proof.
  intros Hb Hba. unfold scaleUnits.
  rewrite (proj2 (decimals_guard a b)) by lia.
  destruct (Z.eqb_spec a b); [lia |].
  destruct (Z.ltb_spec a b); [lia |]. rewrite pow10_spec by lia. reflexivity.
Qed.

(** X11.  [scaleUnits] fails exactly when one of the two precisions is
    negative, with the invalid-decimals error; in particular it never
    reports a division by zero. *)
Theorem scaleUnits_fails_iff (x a b : Z) (mode : option Rounding) :
  (is_ok (scaleUnits x a b mode) = false <-> a < 0 \/ b < 0)
  /\ (a < 0 \/ b < 0 -> scaleUnits x a b mode = Err InvalidDecimals).
Proof.
  assert (Hbad : a < 0 \/ b < 0 -> scaleUnits x a b mode = Err InvalidDecimals).
  { intros H. unfold scaleUnits.
    destruct ((a <? 0) || (b <? 0)) eqn:Hg; [reflexivity |].
    apply decimals_guard in Hg. lia. }
  split; [| exact Hbad]. split.
  - intros Hfail.
    destruct (Z.lt_ge_cases a 0) as [| Ha]; [left; assumption |].
    destruct (Z.lt_ge_cases b 0) as [| Hb]; [right; assumption |].
    exfalso. destruct (Z.le_gt_cases a b) as [Hab | Hba].
    + rewrite scaleUnits_widen in Hfail by assumption. discriminate.
    + rewrite scaleUnits_narrow in Hfail by assumption.
      rewrite divRound_policy_ok in Hfail
        by (pose proof (pow_pos_10 (a - b)); lia).
      discriminate.
  - intros H. rewrite (Hbad H). reflexivity.
Qed.

Lemma scaleUnits_fails_iff_witness :
  scaleUnits 5 (-1) 2 None = Err InvalidDecimals.
Proof.
  destruct (scaleUnits_fails_iff 5 (-1) 2 None) as [_ H]. apply H. left. lia.
Defined.

(** X12.  Narrowing with the default [Floor] and widening back loses less
    than one unit of the coarser precision and never gains: the result [z]
    satisfies [z <= x < z + 10^(a-b)]. *)
Theorem scaleUnits_narrow_widen_loss (x a b : Z) (mode : option Rounding) :
  0 <= b -> b <= a ->
  exists y z,
    scaleUnits x a b None = Ok y
    /\ scaleUnits y b a mode = Ok z
    /\ z <= x < z + 10 ^ (a - b).
Proof.
  intros Hb Hba.
  pose proof (pow_pos_10 (a - b) ltac:(lia)) as Hp.
  destruct (Z.eq_dec a b) as [<- | Hne].
  - exists x, x. rewrite !scaleUnits_same by assumption.
    rewrite Z.sub_diag. change (10 ^ 0) with 1. repeat split; lia.
  - rewrite scaleUnits_narrow by lia. rewrite divRound_floor by lia.
    eexists. eexists. split; [reflexivity |].
    rewrite scaleUnits_widen by lia. split; [reflexivity |].
    unfold floor_div.
    pose proof (Z.div_mod x (10 ^ (a - b)) ltac:(lia)).
    pose proof (Z.mod_pos_bound x (10 ^ (a - b)) Hp). nia.
Qed.

Lemma scaleUnits_narrow_widen_loss_witness :
  exists y z,
    scaleUnits (-1234567) 7 2 None = Ok y
    /\ scaleUnits y 2 7 None = Ok z
    /\ z <= -1234567 < z + 10 ^ (7 - 2).
Proof. apply (scaleUnits_narrow_widen_loss (-1234567) 7 2 None); lia. Defined.

(** X13.  Widening in two steps is widening in one step, and so is
    narrowing in two steps under [Floor]; under [Round] it is not: 149 at
    two decimals goes to 15 and then 2 in two steps, to 1 in one. *)
Theorem scaleUnits_composes :
  (forall (x a b c : Z) (m1 m2 m3 : option Rounding),
      0 <= a -> a <= b -> b <= c ->
      (do y <- scaleUnits x a b m1; scaleUnits y b c m2) = scaleUnits x a c m3)
  /\ (forall x a b c : Z,
         0 <= c -> c <= b -> b <= a ->
         (do y <- scaleUnits x a b (Some Floor); scaleUnits y b c (Some Floor))
         = scaleUnits x a c (Some Floor))
  /\ (do y <- scaleUnits 149 2 1 (Some Round); scaleUnits y 1 0 (Some Round)) = Ok 2
  /\ scaleUnits 149 2 0 (Some Round) = Ok 1.
Proof.
  split; [| split; [| split; reflexivity]].
  - intros x a b c m1 m2 m3 Ha Hab Hbc.
    rewrite !scaleUnits_widen by lia. cbn [bind].
    rewrite scaleUnits_widen by lia. f_equal.
    replace (c - a) with ((b - a) + (c - b)) by lia.
    rewrite Z.pow_add_r by lia. lia.
  - intros x a b c Hc Hcb Hba.
    destruct (Z.eq_dec a b) as [<- | Hab].
    { rewrite scaleUnits_same by lia. reflexivity. }
    destruct (Z.eq_dec b c) as [<- | Hbc].
    { destruct (scaleUnits x a b (Some Floor)) eqn:E; cbn [bind]; [| reflexivity].
      apply scaleUnits_same. lia. }
    pose proof (pow_pos_10 (a - b) ltac:(lia)).
    pose proof (pow_pos_10 (b - c) ltac:(lia)).
    pose proof (pow_pos_10 (a - c) ltac:(lia)).
    rewrite !scaleUnits_narrow by lia. rewrite !divRound_floor by lia. cbn [bind].
    rewrite scaleUnits_narrow by lia. rewrite divRound_floor by lia.
    f_equal. unfold floor_div.
    rewrite Z.div_div by lia. rewrite <- Z.pow_add_r by lia.
    do 2 f_equal. lia.
Qed.

Lemma scaleUnits_composes_witness :
  (do y <- scaleUnits (-98765) 5 3 (Some Floor); scaleUnits y 3 1 (Some Floor))
  = scaleUnits (-98765) 5 1 (Some Floor).
Proof.
  destruct scaleUnits_composes as (_ & H & _). apply (H (-98765) 5 3 1); lia.
Defined.

(** ** Conversion through a price ratio *)

Lemma mulDiv_bigint (a b c : Z) (mode : Rounding) :
  mulDiv a (IsBigint b) (IsBigint c) mode = divRound (a * b) c mode.
Proof.
  unfold mulDiv. cbn [to_bigint bind].
  destruct (Z.eqb_spec c 0) as [-> | _]; reflexivity.
Qed.

Lemma divRound_by_one (x : Z) (mode : Rounding) : divRound x 1 mode = Ok x.
Proof. rewrite <- (Z.mul_1_r x) at 1. apply divRound_exact. lia. Qed.

(** X14.  At a price of one, that is a ratio with equal non-zero numerator
    and denominator, [convertUnitsByDecimals] is exactly [scaleUnits] under
    the same mode. *)
Theorem convertUnitsByDecimals_unit_price (x f t n : Z) (mode : Rounding) :
  n <> 0 -> 0 <= f -> 0 <= t ->
  convertUnitsByDecimals x f t (mkRatio n n) (Some mode)
  = scaleUnits x f t (Some mode).
Proof.
  intros Hn Hf Ht. unfold convertUnitsByDecimals. cbn [num den].
  rewrite (proj2 (decimals_guard f t)) by lia.
  rewrite mulDiv_bigint, divRound_exact by assumption.
  destruct (Z.leb_spec 0 (t - f)) as [Hwide | Hnarrow].
  - destruct (Z.ltb_spec (t - f) 0) as [| _]; [lia |].
    rewrite pow10_spec by lia. cbn [bind].
    rewrite mulDiv_bigint, divRound_by_one.
    rewrite scaleUnits_widen by lia. reflexivity.
  - destruct (Z.ltb_spec (t - f) 0) as [_ |]; [| lia].
    rewrite pow10_spec by lia. cbn [bind].
    rewrite mulDiv_bigint, Z.mul_1_r.
    rewrite scaleUnits_narrow by lia. do 2 f_equal. lia.
Qed.

Lemma convertUnitsByDecimals_unit_price_witness :
  convertUnitsByDecimals 12345 6 2 (mkRatio 100 100) (Some Bankers)
  = scaleUnits 12345 6 2 (Some Bankers).
Proof. apply (convertUnitsByDecimals_unit_price 12345 6 2 100 Bankers); lia. Defined.

(** X15.  [convertUnitsByDecimals] checks the decimals first and the ratio
    second: negative decimals give the invalid-decimals error whatever the
    ratio, otherwise a zero denominator gives DivisionByZero, and otherwise
    it succeeds; when the target precision is not coarser, the only rounding
    is that of the price multiplication, whose result is scaled exactly. *)
Theorem convertUnitsByDecimals_behaviour (x f t : Z) (price : PriceRatio)
  (mode : option Rounding) :
  (f < 0 \/ t < 0 -> convertUnitsByDecimals x f t price mode = Err InvalidDecimals)
  /\ (0 <= f -> 0 <= t -> den price = 0 ->
      convertUnitsByDecimals x f t price mode = Err DivisionByZero)
  /\ (0 <= f -> 0 <= t -> den price <> 0 ->
      exists r, convertUnitsByDecimals x f t price mode = Ok r)
  /\ (0 <= f -> f <= t -> den price <> 0 ->
      exists r,
        divRound (x * num price) (den price)
                 (match mode with Some m => m | None => Round end) = Ok r
        /\ convertUnitsByDecimals x f t price mode = Ok (r * 10 ^ (t - f))).
Proof.
  set (m := match mode with Some m => m | None => Round end).
  assert (Hconv : 0 <= f -> 0 <= t ->
            convertUnitsByDecimals x f t price mode
            = (do inner <- divRound (x * num price) (den price) m;
               divRound (inner * (if 0 <=? t - f then 10 ^ (t - f) else 1))
                        (if t - f <? 0 then 10 ^ (f - t) else 1) m)).
  { intros Hf Ht. unfold convertUnitsByDecimals. fold m.
    rewrite (proj2 (decimals_guard f t)) by lia.
    destruct (Z.leb_spec 0 (t - f)), (Z.ltb_spec (t - f) 0); try lia;
      rewrite pow10_spec by lia; cbn [bind]; rewrite mulDiv_bigint.
    - destruct (divRound (x * num price) (den price) m); cbn [bind];
        [apply mulDiv_bigint | reflexivity].
    - destruct (divRound (x * num price) (den price) m); cbn [bind];
        [| reflexivity].
      rewrite mulDiv_bigint. do 2 f_equal. lia. }
  split; [| split; [| split]].
  - intros H. unfold convertUnitsByDecimals.
    destruct ((f <? 0) || (t <? 0)) eqn:Hg; [reflexivity |].
    apply decimals_guard in Hg. lia.
  - intros Hf Ht Hden. rewrite Hconv by assumption. rewrite Hden. reflexivity.
  - intros Hf Ht Hden. rewrite Hconv by assumption.
    rewrite (divRound_policy_ok _ _ m Hden). cbn [bind].
    rewrite divRound_policy_ok; [eexists; reflexivity |].
    destruct (Z.ltb_spec (t - f) 0); [| lia].
    pose proof (pow_pos_10 (f - t)). lia.
  - intros Hf Hft Hden. rewrite Hconv by lia.
    rewrite (divRound_policy_ok _ _ m Hden). cbn [bind].
    eexists. split; [reflexivity |].
    destruct (Z.leb_spec 0 (t - f)); [| lia].
    destruct (Z.ltb_spec (t - f) 0); [lia |].
    apply divRound_by_one.
Qed.

Lemma convertUnitsByDecimals_behaviour_witness :
  convertUnitsByDecimals 1 (-1) 2 (mkRatio 1 0) None = Err InvalidDecimals
  /\ convertUnitsByDecimals 1 1 2 (mkRatio 1 0) None = Err DivisionByZero
  /\ exists r, divRound (1050 * 543) 100 Round = Ok r
               /\ convertUnitsByDecimals 1050 2 7 (mkRatio 543 100) None
                  = Ok (r * 10 ^ (7 - 2)).
Proof.
  destruct (convertUnitsByDecimals_behaviour 1 (-1) 2 (mkRatio 1 0) None) as (H1 & _).
  destruct (convertUnitsByDecimals_behaviour 1 1 2 (mkRatio 1 0) None) as (_ & H2 & _).
  destruct (convertUnitsByDecimals_behaviour 1050 2 7 (mkRatio 543 100) None)
    as (_ & _ & _ & H3).
  split; [apply H1; left; lia |].
  split; [apply H2; [lia | lia | reflexivity] |].
  apply H3; [lia | lia | cbn; lia].
Defined.

(** ** More on lot splitting *)

Lemma splitAmount_closed (total lot : Z) :
  0 < lot -> splitAmount total lot = Ok (lot_chunks total lot).
Proof.
  intros Hlot. unfold splitAmount, lot_chunks.
  destruct (Z_lt_dec 0 lot) as [Hl | Hl]; [| contradiction].
  rewrite splitLoop_closed. cbn [app]. f_equal.
  destruct (0 <? total - Z.of_nat (Z.to_nat (total / lot)) * lot);
    [reflexivity | symmetry; apply app_nil_r].
Qed.

(** X16.  With a positive lot size every chunk is positive and at most the
    lot size, every chunk but the last is exactly the lot size, a total
    that is zero or negative gives no chunk at all, and a non-negative total
    gives as many chunks as the ceiling of [total / lot]. *)
Theorem splitAmount_chunks (total lot : Z) :
  0 < lot ->
  exists chunks,
    splitAmount total lot = Ok chunks
    /\ Forall (fun c => 0 < c <= lot) chunks
    /\ (forall i, (S i < length chunks)%nat -> nth i chunks 0 = lot)
    /\ (total <= 0 -> chunks = [])
    /\ (0 <= total -> Z.of_nat (length chunks) = ceil_div total lot).
Proof.
  intros Hlot. exists (lot_chunks total lot).
  split; [apply splitAmount_closed, Hlot |].
  unfold lot_chunks.
  set (k := Z.to_nat (total / lot)).
  set (leftover := total - Z.of_nat k * lot).
  assert (Hleft : leftover < lot).
  { unfold leftover, k.
    destruct (Z.le_gt_cases 0 total) as [Hnn | Hn].
    - pose proof (Z.div_pos total lot Hnn Hlot).
      pose proof (Z.div_mod total lot ltac:(lia)).
      pose proof (Z.mod_pos_bound total lot Hlot).
      rewrite Z2Nat.id by assumption. nia.
    - pose proof (Z.div_lt_upper_bound total lot 0 Hlot ltac:(lia)).
      replace (Z.to_nat (total / lot)) with 0%nat by lia. lia. }
  split; [| split; [| split]].
  - apply Forall_app. split.
    + apply Forall_forall. intros c Hc. apply repeat_spec in Hc. lia.
    + destruct (Z.ltb_spec 0 leftover); constructor; [lia | constructor].
  - intros i Hi. rewrite length_app, repeat_length in Hi.
    assert (Hik : (i < k)%nat).
    { destruct (0 <? leftover); cbn [length] in Hi; lia. }
    rewrite app_nth1 by (rewrite repeat_length; exact Hik).
    apply nth_repeat_lt. exact Hik.
  - intros Hneg.
    assert (Hk : k = 0%nat).
    { unfold k. destruct (Z.eq_dec total 0) as [-> | Hnz]; [reflexivity |].
      pose proof (Z.div_lt_upper_bound total lot 0 Hlot ltac:(lia)). lia. }
    unfold leftover. rewrite Hk. cbn [repeat app Z.of_nat].
    destruct (Z.ltb_spec 0 (total - 0 * lot)); [lia | reflexivity].
  - intros Hnn. rewrite length_app, repeat_length. unfold ceil_div.
    pose proof (Z.div_pos total lot Hnn Hlot) as Hq.
    pose proof (Z.div_mod total lot ltac:(lia)) as Hdm.
    pose proof (Z.mod_pos_bound total lot Hlot) as Hb.
    assert (Hl : leftover = total mod lot).
    { unfold leftover, k. rewrite Z2Nat.id by assumption. lia. }
    unfold k. rewrite Nat2Z.inj_add, Z2Nat.id by assumption.
    destruct (Z.ltb_spec 0 leftover) as [Hpos | Hzero]; cbn [length].
    + enough (- (total / lot + 1) = - total / lot) by lia.
      apply (Z.div_unique (- total) lot _ (lot - total mod lot)); lia.
    + enough (- (total / lot) = - total / lot) by lia.
      apply (Z.div_unique_exact (- total) lot); lia.
Qed.

Lemma splitAmount_chunks_witness :
  exists chunks,
    splitAmount 10 3 = Ok chunks
    /\ Forall (fun c => 0 < c <= 3) chunks
    /\ (forall i, (S i < length chunks)%nat -> nth i chunks 0 = 3).
Proof.
  destruct (splitAmount_chunks 10 3) as (chunks & H1 & H2 & H3 & _); [lia |].
  exists chunks. split; [exact H1 |]. split; assumption.
Defined.

(** ** More on the parser *)

Lemma normalizeAmountInput_steps (x : jsstring) :
  normalizeAmountInput x
  = if is_empty (trim x) then Err EmptyAmount
    else parse_unsigned (fst (sign_split (trim x))) (snd (sign_split (trim x))).
Proof.
  unfold normalizeAmountInput, sign_split.
  destruct (is_empty (trim x)); [reflexivity |].
  destruct (trim x) as [| c rest]; [reflexivity |].
  destruct (N.eqb c c_plus); [reflexivity |].
  destruct (N.eqb c c_minus); reflexivity.
Qed.

(** The sign is only carried along by the second step. *)
Lemma parse_unsigned_sign (sg sg' : Sign) (s : jsstring) :
  parse_unsigned sg' s
  = match parse_unsigned sg s with
    | Ok p => Ok (mkParsed sg' (int p) (frac p))
    | Err e => Err e
    end.
Proof.
  unfold parse_unsigned.
  repeat match goal with
         | |- context [match ?o with Some _ => _ | None => _ end] => destruct o
         | |- context [if ?b then _ else _] => destruct b
         end; reflexivity.
Qed.

Lemma parse_unsigned_result (sg : Sign) (s : jsstring) (p : ParsedAmount) :
  parse_unsigned sg s = Ok p -> sign p = sg.
Proof.
  unfold parse_unsigned.
  repeat match goal with
         | |- context [match ?o with Some _ => _ | None => _ end] => destruct o
         | |- context [if ?b then _ else _] => destruct b
         end; intros H; inversion H; reflexivity.
Qed.

Lemma parse_unsigned_not_empty_error (sg : Sign) (s : jsstring) :
  parse_unsigned sg s <> Err EmptyAmount.
Proof.
  unfold parse_unsigned.
  repeat match goal with
         | |- context [match ?o with Some _ => _ | None => _ end] => destruct o
         | |- context [if ?b then _ else _] => destruct b
         end; discriminate.
Qed.

Lemma dropWhile_all (p : N -> bool) (s : jsstring) :
  dropWhile p s = [] <-> forallb p s = true.
Proof.
  induction s as [| c s IH]; [split; reflexivity |].
  cbn [dropWhile forallb]. destruct (p c); cbn [andb]; [exact IH |].
  split; discriminate.
Qed.

Lemma trim_empty_iff (x : jsstring) : trim x = [] <-> forallb is_space x = true.
Proof.
  unfold trim. split.
  - intros H. apply (f_equal (@rev N)) in H. rewrite rev_involutive in H. cbn in H.
    apply dropWhile_all in H.
    destruct (dropWhile is_space x) as [| c s] eqn:E.
    + apply dropWhile_all, E.
    + exfalso.
      assert (Hc : is_space c = false).
      { clear H. induction x as [| a x IH]; [discriminate |].
        cbn [dropWhile] in E. destruct (is_space a) eqn:Ha; [apply IH, E |].
        inversion E; subst. exact Ha. }
      rewrite forallb_forall in H.
      specialize (H c ltac:(apply -> in_rev; left; reflexivity)). congruence.
  - intros H. apply dropWhile_all in H. rewrite H. reflexivity.
Qed.

(** X17.  [normalizeAmountInput] reports an empty amount exactly when the
    input is empty or all white space; every other failure is the
    invalid-amount error. *)
Theorem normalizeAmountInput_empty_iff (x : jsstring) :
  (normalizeAmountInput x = Err EmptyAmount <-> forallb is_space x = true)
  /\ (forall e, normalizeAmountInput x = Err e ->
        e = EmptyAmount \/ e = InvalidAmountFormat).
Proof.
  split.
  - rewrite normalizeAmountInput_steps, <- trim_empty_iff.
    destruct (trim x) as [| c s] eqn:E; cbn [is_empty].
    + split; reflexivity.
    + split; [| discriminate]. intros H. exfalso.
      exact (parse_unsigned_not_empty_error _ _ H).
  - intros e. rewrite normalizeAmountInput_steps.
    destruct (is_empty (trim x)).
    + intros H. inversion H. left. reflexivity.
    + unfold parse_unsigned.
      repeat match goal with
             | |- context [match ?o with Some _ => _ | None => _ end] => destruct o
             | |- context [if ?b then _ else _] => destruct b
             end; intros H; inversion H; right; reflexivity.
Qed.

Lemma normalizeAmountInput_empty_iff_witness :
  normalizeAmountInput (lit "   ") = Err EmptyAmount.
Proof.
  destruct (normalizeAmountInput_empty_iff (lit "   ")) as [[_ H] _].
  apply H. reflexivity.
Defined.

(** A string of digits that [strip_leading_zeros] leaves alone. *)
Lemma strip_leading_zeros_canonical (s : jsstring) :
  all_digits s -> s <> [] ->
  strip_leading_zeros s = [c_zero]
  \/ (exists c rest, strip_leading_zeros s = c :: rest /\ c <> c_zero).
Proof.
  induction s as [| c s IH]; [congruence |]. intros Hd _.
  unfold all_digits in Hd. cbn [forallb] in Hd. apply andb_true_iff in Hd as [Hc Hs].
  destruct s as [| c' s'].
  - destruct (N.eq_dec c c_zero) as [-> | Hne]; [left; reflexivity |].
    right. exists c, []. split; [reflexivity | exact Hne].
  - rewrite strip_leading_zeros_step.
    destruct (N.eqb_spec c c_zero) as [-> | Hne]; cbn [andb].
    + assert (Hc' : is_digit c' = true).
      { cbn [forallb] in Hs. apply andb_true_iff in Hs. tauto. }
      rewrite Hc'. apply IH; [exact Hs | discriminate].
    + right. exists c, (c' :: s'). split; [reflexivity | exact Hne].
Qed.

Lemma strip_leading_zeros_fixed (s : jsstring) :
  s = [c_zero] \/ (exists c rest, s = c :: rest /\ c <> c_zero) ->
  strip_leading_zeros s = s.
Proof.
  intros [-> | (c & rest & -> & Hne)]; [reflexivity |].
  destruct rest as [| c' rest']; [reflexivity |].
  rewrite strip_leading_zeros_step.
  destruct (N.eqb_spec c c_zero); [contradiction | reflexivity].
Qed.

Lemma parse_unsigned_digits_dot (sg : Sign) (i f : jsstring) :
  all_digits i -> i <> [] -> all_digits f ->
  parse_unsigned sg (i ++ c_dot :: f)
  = Ok (mkParsed sg (or_zero (strip_leading_zeros i)) f).
Proof.
  intros Hi Hne Hf.
  pose proof (normalize_digits_dot i f Hi Hne Hf) as H.
  rewrite normalizeAmountInput_steps in H.
  assert (Hns : no_space (i ++ c_dot :: f)).
  { apply forallb_dotted; [apply digits_no_space, Hi | reflexivity | apply digits_no_space, Hf]. }
  rewrite (trim_no_space _ Hns) in H.
  destruct i as [| c i']; [congruence |]. cbn [app is_empty] in H.
  assert (Hc : is_digit c = true).
  { unfold all_digits in Hi. cbn [forallb] in Hi. apply andb_true_iff in Hi. tauto. }
  destruct (digit_plain c Hc) as (_ & _ & _ & Hplus & Hminus & _).
  unfold sign_split in H. rewrite Hplus, Hminus in H. cbn [fst snd] in H.
  rewrite (parse_unsigned_sign Plus sg). cbn [app]. rewrite H. reflexivity.
Qed.

Lemma normalize_signed_digits_dot (sg : Sign) (i f : jsstring) :
  all_digits i -> i <> [] -> all_digits f ->
  normalizeAmountInput (sign_text sg ++ i ++ c_dot :: f)
  = Ok (mkParsed sg (or_zero (strip_leading_zeros i)) f).
Proof.
  intros Hi Hne Hf. destruct sg; cbn [sign_text app].
  - apply normalize_digits_dot; assumption.
  - rewrite normalizeAmountInput_steps.
    assert (Hns : no_space (c_minus :: i ++ c_dot :: f)).
    { unfold no_space. cbn [forallb]. apply andb_true_iff. split; [reflexivity |].
      apply forallb_dotted;
        [apply digits_no_space, Hi | reflexivity | apply digits_no_space, Hf]. }
    rewrite (trim_no_space _ Hns). cbn [is_empty sign_split].
    change (N.eqb c_minus c_plus) with false.
    change (N.eqb c_minus c_minus) with true. cbn [fst snd].
    apply parse_unsigned_digits_dot; assumption.
Qed.

(** X18.  A successful parse is canonical: the integer part is a non-empty
    string of digits without a leading zero (or is exactly ["0"]), the
    fraction is a string of digits, and writing the result back as
    [sign int "." frac] parses to the same result. *)
Theorem normalizeAmountInput_canonical (x : jsstring) (p : ParsedAmount) :
  normalizeAmountInput x = Ok p ->
  all_digits (int p) /\ all_digits (frac p)
  /\ (int p = [c_zero] \/ exists c rest, int p = c :: rest /\ c <> c_zero)
  /\ normalizeAmountInput (sign_text (sign p) ++ int p ++ c_dot :: frac p) = Ok p.
Proof.
  intros Hparse.
  destruct (normalizeAmountInput_digits x p Hparse) as (Hint & Hne & Hfrac).
  assert (Hcanon : int p = [c_zero] \/ exists c rest, int p = c :: rest /\ c <> c_zero).
  { clear Hint Hne Hfrac. revert Hparse. unfold normalizeAmountInput.
    destruct (is_empty (trim x)); [discriminate |].
    destruct (match trim x with
              | [] => (Plus, trim x)
              | c :: rest =>
                  if N.eqb c c_plus then (Plus, rest)
                  else if N.eqb c c_minus then (Minus, rest) else (Plus, trim x)
              end) as [sg s].
    assert (Hnorm : forall t, test_digits t = true ->
              or_zero (strip_leading_zeros t) = [c_zero]
              \/ exists c rest, or_zero (strip_leading_zeros t) = c :: rest /\ c <> c_zero).
    { intros t Ht. apply test_digits_spec in Ht as [Htne Htd].
      destruct (strip_leading_zeros_spec t) as (_ & _ & Hn).
      rewrite or_zero_nonempty by auto.
      apply strip_leading_zeros_canonical; assumption. }
    repeat match goal with
           | |- context [match ?o with Some _ => _ | None => _ end] => destruct o
           end.
    - destruct (test_digits (remove_separators (or_zero (hd [] (split _ _))))) eqn:Ht;
        cbn [negb orb]; [| discriminate].
      destruct (_ && _); [discriminate |].
      intros H. inversion H; subst. cbn [int]. apply Hnorm, Ht.
    - destruct (test_digits (remove_separators _)) eqn:Ht; cbn [negb]; [| discriminate].
      intros H. inversion H; subst. cbn [int]. apply Hnorm, Ht. }
  split; [exact Hint |]. split; [exact Hfrac |]. split; [exact Hcanon |].
  rewrite (normalize_signed_digits_dot (sign p) (int p) (frac p) Hint Hne Hfrac).
  rewrite (strip_leading_zeros_fixed _ Hcanon), (or_zero_nonempty _ Hne).
  destruct p; reflexivity.
Qed.

Lemma normalizeAmountInput_canonical_witness :
  normalizeAmountInput (lit "-12.30") = Ok (mkParsed Minus (lit "12") (lit "30")).
Proof.
  destruct (normalizeAmountInput_canonical (lit "  -0_012,30 ")
              (mkParsed Minus (lit "12") (lit "30")) eq_refl) as (_ & _ & _ & H).
  exact H.
Defined.

(** ** More on the minor-unit codec *)

Lemma dropWhile_snoc (p : N -> bool) (l : jsstring) (c : N) :
  p c = false -> exists l', dropWhile p (l ++ [c]) = l' ++ [c].
Proof.
  intros Hc. induction l as [| x l IH].
  - exists []. cbn. rewrite Hc. reflexivity.
  - cbn [app dropWhile]. destruct (p x); [exact IH |].
    exists (x :: l). reflexivity.
Qed.

Lemma dropWhile_app_keep (p : N -> bool) (l m : jsstring) :
  dropWhile p l <> [] -> dropWhile p (l ++ m) = dropWhile p l ++ m.
Proof.
  induction l as [| x l IH]; [intros H; exfalso; apply H; reflexivity |].
  cbn [app dropWhile]. destruct (p x); [exact IH | reflexivity].
Qed.

(** What [trim] returns on a string that starts with a visible unit. *)
Lemma trim_head (c : N) (rest : jsstring) :
  is_space c = false -> exists tail, trim (c :: rest) = c :: tail
    /\ forall a, is_space a = false -> trim (a :: c :: rest) = a :: c :: tail.
Proof.
  intros Hc. unfold trim.
  destruct (dropWhile_snoc is_space (rev rest) c Hc) as [l' Hl'].
  exists (rev l'). split.
  - cbn [dropWhile]. rewrite Hc. cbn [rev]. rewrite Hl', rev_app_distr. reflexivity.
  - intros a Ha. cbn [dropWhile]. rewrite Ha. cbn [rev].
    rewrite dropWhile_app_keep by (rewrite Hl'; destruct l'; discriminate).
    rewrite Hl', !rev_app_distr. reflexivity.
Qed.

(** A minus sign in front of an unsigned input only flips the sign of the
    parse. *)
Lemma normalize_minus_prefix (c : N) (rest : jsstring) :
  is_space c = false -> c <> c_plus -> c <> c_minus ->
  normalizeAmountInput (c_minus :: c :: rest)
  = match normalizeAmountInput (c :: rest) with
    | Ok p => Ok (mkParsed Minus (int p) (frac p))
    | Err e => Err e
    end
  /\ forall p, normalizeAmountInput (c :: rest) = Ok p -> sign p = Plus.
Proof.
  intros Hc Hplus Hminus.
  destruct (trim_head c rest Hc) as (tail & Htrim & Htrim').
  rewrite !normalizeAmountInput_steps.
  rewrite (Htrim' c_minus eq_refl), Htrim. cbn [is_empty sign_split].
  change (N.eqb c_minus c_plus) with false.
  change (N.eqb c_minus c_minus) with true.
  destruct (N.eqb_spec c c_plus); [contradiction |].
  destruct (N.eqb_spec c c_minus); [contradiction |]. cbn [fst snd].
  split; [apply parse_unsigned_sign |].
  intros p. apply parse_unsigned_result.
Qed.

Lemma toMinor_negated_prefix (c : N) (rest : jsstring) (decimals : Z)
  (mode : option Rounding) :
  is_space c = false -> c <> c_plus -> c <> c_minus ->
  toMinor (c_minus :: c :: rest) decimals mode
  = negated (toMinor (c :: rest) decimals mode).
Proof.
  intros Hc Hplus Hminus.
  destruct (normalize_minus_prefix c rest Hc Hplus Hminus) as [Hneg Hsign].
  unfold toMinor. destruct (decimals <? 0); [reflexivity |].
  rewrite Hneg. destruct (normalizeAmountInput (c :: rest)) as [p | e]; [| reflexivity].
  cbn [bind int frac sign]. rewrite (Hsign p eq_refl).
  destruct (BigInt_of_string (int p)); [| reflexivity]. cbn [bind].
  destruct (pow10 decimals); [| reflexivity]. cbn [bind].
  destruct (BigInt_of_string _); reflexivity.
Qed.

(** X19.  A minus sign put in front of an input that starts with a visible
    unit other than a sign negates what [toMinor] returns, under every mode,
    and leaves a failure as it is: rounding never looks at the sign. *)
Theorem toMinor_minus_prefix (c : N) (rest : jsstring) (decimals : Z)
  (mode : option Rounding) :
  is_space c = false -> c <> c_plus -> c <> c_minus ->
  toMinor (c_minus :: c :: rest) decimals mode
  = negated (toMinor (c :: rest) decimals mode).
Proof. apply toMinor_negated_prefix. Qed.

Lemma toMinor_minus_prefix_witness :
  toMinor (lit "-1.2345") 3 (Some Bankers) = negated (toMinor (lit "1.2345") 3 (Some Bankers)).
Proof.
  apply (toMinor_minus_prefix 49%N (lit ".2345") 3 (Some Bankers));
    [reflexivity | discriminate | discriminate].
Defined.

Lemma toMinor_of_fromMinor_nonneg (m d : Z) (mode : option Rounding) :
  0 <= m -> 0 <= d ->
  exists c rest,
    fromMinor m d = Ok (c :: rest) /\ is_digit c = true
    /\ toMinor (c :: rest) d mode = Ok m.
Proof.
  intros Hm Hd. rewrite (fromMinor_nonneg m d Hm Hd).
  pose proof (pow_pos_10 d Hd) as Hp.
  assert (Hhead : forall i tail, all_digits i -> i <> [] ->
            exists c rest, i ++ tail = c :: rest /\ is_digit c = true).
  { intros i tail Hi Hne. destruct i as [| c i']; [congruence |].
    exists c, (i' ++ tail). split; [reflexivity |].
    unfold all_digits in Hi. cbn [forallb] in Hi. apply andb_true_iff in Hi. tauto. }
  destruct (Z.eqb_spec d 0) as [-> | Hnz].
  - destruct (BigInt_toString_nonneg m Hm) as (Hdig & Hval & Hne & _).
    destruct (Hhead _ [] Hdig Hne) as (c & rest & Heq & Hc).
    rewrite app_nil_r in Heq. exists c, rest. rewrite <- Heq.
    split; [reflexivity |]. split; [exact Hc |].
    rewrite (toMinor_exact _ 0 mode _ (Z.le_refl 0)
               (normalize_digits_only _ Hdig Hne) eq_refl eq_refl).
    cbn [int frac].
    destruct (int_norm_spec (BigInt_toString m)) as (_ & _ & ->);
      [apply test_digits_spec; auto |].
    rewrite Hval. f_equal. change (digits_value []) with 0. change (10 ^ 0) with 1. lia.
  - assert (Hi : 0 <= m / 10 ^ d) by (apply Z.div_pos; lia).
    pose proof (Z.mod_pos_bound m (10 ^ d) Hp) as Hf.
    destruct (BigInt_toString_nonneg _ Hi) as (Hdig & Hval & Hne & _).
    destruct (padStart_digits (m mod 10 ^ d) d ltac:(lia) Hf) as (Hfd & Hfl & Hfv).
    destruct (Hhead _ (c_dot :: padStart (BigInt_toString (m mod 10 ^ d)) d c_zero)
                Hdig Hne) as (c & rest & Heq & Hc).
    exists c, rest. rewrite <- Heq.
    split; [reflexivity |]. split; [exact Hc |].
    rewrite (toMinor_exact _ d mode _ Hd
               (normalize_digits_dot _ _ Hdig Hne Hfd) eq_refl Hfl).
    cbn [int frac].
    destruct (int_norm_spec (BigInt_toString (m / 10 ^ d))) as (_ & _ & ->);
      [apply test_digits_spec; auto |].
    rewrite Hval, Hfv. f_equal.
    pose proof (Z.div_mod m (10 ^ d) ltac:(lia)). lia.
Qed.

Lemma fromMinor_negative (m d : Z) :
  m < 0 -> 0 <= d ->
  forall str, fromMinor (- m) d = Ok str -> fromMinor m d = Ok (c_minus :: str).
Proof.
  intros Hm Hd str. unfold fromMinor.
  destruct (Z.ltb_spec d 0) as [| _]; [lia |].
  destruct (Z.ltb_spec m 0) as [_ |]; [| lia].
  destruct (Z.ltb_spec (- m) 0) as [| _]; [lia |].
  destruct (pow10 d); cbn [bind app]; [| discriminate].
  intros H. inversion H. reflexivity.
Qed.

Lemma toMinor_of_fromMinor_signed (m d : Z) (mode : option Rounding) :
  0 <= d ->
  exists str, fromMinor m d = Ok str /\ toMinor str d mode = Ok m.
Proof.
  intros Hd. destruct (Z.lt_ge_cases m 0) as [Hneg | Hnn].
  - destruct (toMinor_of_fromMinor_nonneg (- m) d mode ltac:(lia) Hd)
      as (c & rest & Hfrom & Hc & Hto).
    exists (c_minus :: c :: rest).
    split; [apply fromMinor_negative; assumption |].
    destruct (digit_plain c Hc) as (Hsp & _ & _ & Hp & Hm & _).
    rewrite toMinor_negated_prefix;
      [| exact Hsp | intros ->; discriminate | intros ->; discriminate].
    rewrite Hto. cbn [negated]. f_equal. lia.
  - destruct (toMinor_of_fromMinor_nonneg m d mode Hnn Hd)
      as (c & rest & Hfrom & _ & Hto).
    exists (c :: rest). split; assumption.
Qed.

(** X20.  The round trip holds for every integer amount, negative ones
    included: for every [m] and non-negative [d], parsing what [fromMinor]
    prints gives [m] back under every mode. *)
Theorem toMinor_fromMinor_roundtrip_signed (m d : Z) (mode : option Rounding) :
  0 <= d ->
  exists str, fromMinor m d = Ok str /\ toMinor str d mode = Ok m.
Proof. apply toMinor_of_fromMinor_signed. Qed.

Lemma toMinor_fromMinor_roundtrip_signed_witness :
  exists str, fromMinor (-1234567) 4 = Ok str /\ toMinor str 4 (Some Ceil) = Ok (-1234567).
Proof. apply (toMinor_fromMinor_roundtrip_signed (-1234567) 4 (Some Ceil)); lia. Defined.

Lemma toMinor_magnitude (human : jsstring) (d : Z) (mode : option Rounding)
  (p : ParsedAmount) :
  0 <= d -> normalizeAmountInput human = Ok p ->
  toMinor human d mode
  = Ok (sign_Z (sign p)
        * (if N.eqb (nth (Z.to_nat d) (pad_or_truncate (frac p) (d + 1)) c_zero) c_zero
           then truncated_magnitude p d
           else roundAdjust (truncated_magnitude p d) Plus
                  (match mode with Some m => m | None => Round end))).
Proof.
  intros Hd Hparse.
  destruct (normalizeAmountInput_digits human p Hparse) as (_ & _ & Hfrac).
  rewrite (toMinor_parsed human d mode p Hd Hparse). cbv zeta.
  rewrite pad_or_truncate_prefix, truncated_magnitude_eq by assumption.
  f_equal. destruct (sign p); cbn [sign_Z]; lia.
Qed.

(** X21.  [Round] in [toMinor] is not half-up: it behaves exactly as [Ceil]
    on every input, failures included, and with it any non-zero first
    discarded digit adds one to the magnitude, whatever that digit is. *)
Theorem toMinor_round_is_ceil :
  (forall (human : jsstring) (decimals : Z),
      toMinor human decimals (Some Round) = toMinor human decimals (Some Ceil)
      /\ toMinor human decimals None = toMinor human decimals (Some Ceil))
  /\ (forall (human : jsstring) (decimals : Z) (p : ParsedAmount),
         0 <= decimals -> normalizeAmountInput human = Ok p ->
         nth (Z.to_nat decimals) (pad_or_truncate (frac p) (decimals + 1)) c_zero
           <> c_zero ->
         toMinor human decimals None
         = Ok (sign_Z (sign p) * (truncated_magnitude p decimals + 1)))
  /\ toMinor (lit "1.2341") 3 None = Ok 1235.
Proof.
  split; [| split; [| reflexivity]].
  - intros human decimals. split; reflexivity.
  - intros human d p Hd Hparse Hind.
    rewrite (toMinor_magnitude human d None p Hd Hparse).
    destruct (N.eqb_spec (nth (Z.to_nat d) (pad_or_truncate (frac p) (d + 1)) c_zero)
                c_zero); [contradiction | reflexivity].
Qed.

Lemma toMinor_round_is_ceil_witness :
  toMinor (lit "-0.101") 2 None
  = Ok (sign_Z Minus * (truncated_magnitude (mkParsed Minus (lit "0") (lit "101")) 2 + 1)).
Proof.
  destruct toMinor_round_is_ceil as (_ & H & _).
  apply (H (lit "-0.101") 2 (mkParsed Minus (lit "0") (lit "101")));
    [lia | reflexivity | vm_compute; discriminate].
Defined.

Lemma indicator_of_fraction (f : jsstring) (d : Z) :
  0 <= d ->
  nth (Z.to_nat d) (pad_or_truncate f (d + 1)) c_zero = nth (Z.to_nat d) f c_zero.
Proof.
  intros Hd. unfold pad_or_truncate.
  destruct (Z.leb_spec (d + 1) (strlen f)) as [Hle | Hgt].
  - unfold strlen in Hle. rewrite nth_firstn.
    destruct (Nat.ltb_spec (Z.to_nat d) (Z.to_nat (d + 1))); [reflexivity | lia].
  - unfold strlen in Hgt.
    rewrite app_nth2 by lia. rewrite (nth_overflow f) by lia.
    apply nth_repeat.
Qed.

(** Nothing is lost when the fraction has no more than [d] digits. *)
Lemma toMinor_no_loss (human : jsstring) (d : Z) (mode : option Rounding)
  (p : ParsedAmount) :
  0 <= d -> normalizeAmountInput human = Ok p -> strlen (frac p) <= d ->
  toMinor human d mode = Ok (sign_Z (sign p) * truncated_magnitude p d)
  /\ truncated_magnitude p d * 10 ^ strlen (frac p)
     = digits_value (int p ++ frac p) * 10 ^ d.
Proof.
  intros Hd Hparse Hlen.
  destruct (normalizeAmountInput_digits human p Hparse) as (Hint & _ & Hfrac).
  rewrite (toMinor_magnitude human d mode p Hd Hparse).
  rewrite indicator_of_fraction by assumption.
  rewrite (nth_overflow (frac p)) by (unfold strlen in Hlen; lia).
  rewrite N.eqb_refl. split; [reflexivity |].
  rewrite <- truncated_magnitude_eq by assumption.
  unfold pad_or_truncate.
  pose proof (strlen_nonneg (frac p)) as HL.
  rewrite digits_value_app.
  destruct (Z.leb_spec d (strlen (frac p))) as [Hle | Hgt].
  - assert (Heq : strlen (frac p) = d) by lia.
    rewrite firstn_all2 by (unfold strlen in Heq; lia). rewrite Heq. ring.
  - rewrite digits_value_app, strlen_repeat, digits_value_repeat_zero.
    rewrite Z2Nat.id by lia.
    replace (10 ^ d) with (10 ^ (d - strlen (frac p)) * 10 ^ strlen (frac p))
      by (rewrite <- Z.pow_add_r by lia; f_equal; lia).
    ring.
Qed.

(** X22.  Whatever the mode, [toMinor] returns the sign times the truncated
    magnitude or that magnitude plus one; it is exactly the truncated
    magnitude when the fraction has no more than [decimals] digits (nothing
    is discarded and the value is exact), and also whenever the first
    discarded digit is zero, later non-zero digits being ignored even under
    [Ceil]. *)
Theorem toMinor_magnitude_bounds (human : jsstring) (decimals : Z)
  (mode : option Rounding) (p : ParsedAmount) :
  0 <= decimals -> normalizeAmountInput human = Ok p ->
  (exists a, (a = 0 \/ a = 1)
             /\ toMinor human decimals mode
                = Ok (sign_Z (sign p) * (truncated_magnitude p decimals + a)))
  /\ (nth (Z.to_nat decimals) (frac p) c_zero = c_zero ->
      toMinor human decimals mode
      = Ok (sign_Z (sign p) * truncated_magnitude p decimals))
  /\ (strlen (frac p) <= decimals ->
      toMinor human decimals mode
      = Ok (sign_Z (sign p) * truncated_magnitude p decimals)
      /\ truncated_magnitude p decimals * 10 ^ strlen (frac p)
         = digits_value (int p ++ frac p) * 10 ^ decimals).
Proof.
  intros Hd Hparse.
  destruct (normalizeAmountInput_digits human p Hparse) as (Hint & _ & Hfrac).
  rewrite (toMinor_magnitude human decimals mode p Hd Hparse).
  set (T := truncated_magnitude p decimals).
  pose proof (indicator_of_fraction (frac p) decimals Hd) as Hnth.
  split; [| split].
  - destruct (N.eqb _ c_zero).
    + exists 0. split; [left; reflexivity | rewrite Z.add_0_r; reflexivity].
    + destruct mode as [[| | |] |]; cbn [roundAdjust sign_Z].
      * exists 0. split; [left; reflexivity | rewrite Z.add_0_r; reflexivity].
      * exists 1. split; [right; reflexivity | reflexivity].
      * exists 1. split; [right; reflexivity | reflexivity].
      * destruct (Z.rem T 2 =? 0).
        -- exists 0. split; [left; reflexivity | rewrite Z.add_0_r; reflexivity].
        -- exists 1. split; [right; reflexivity | reflexivity].
      * exists 1. split; [right; reflexivity | reflexivity].
  - intros Hzero. rewrite Hnth, Hzero, N.eqb_refl. reflexivity.
  - intros Hlen.
    destruct (toMinor_no_loss human decimals mode p Hd Hparse Hlen) as [H1 H2].
    rewrite (toMinor_magnitude human decimals mode p Hd Hparse) in H1.
    split; [exact H1 | exact H2].
Qed.

Lemma toMinor_magnitude_bounds_witness :
  toMinor (lit "1.2309") 2 (Some Ceil)
  = Ok (sign_Z Plus * truncated_magnitude (mkParsed Plus (lit "1") (lit "2309")) 2).
Proof.
  destruct (toMinor_magnitude_bounds (lit "1.2309") 2 (Some Ceil)
              (mkParsed Plus (lit "1") (lit "2309"))) as (_ & H & _);
    [lia | reflexivity |].
  apply H. reflexivity.
Defined.

(** ** More on the display functions *)

Lemma slice_drop_last (s : jsstring) (k : Z) :
  0 < k <= strlen s -> slice s 0 (- k) = firstn (length s - Z.to_nat k) s.
Proof.
  intros Hk. unfold slice. change (0 <? 0) with false. cbv iota.
  destruct (Z.ltb_spec (- k) 0) as [_ |]; [| lia].
  rewrite Z.min_l, Z.max_l by lia. cbn [Z.to_nat skipn].
  f_equal. unfold strlen in *. lia.
Qed.

Lemma slice_from_last (s : jsstring) (k : Z) :
  0 < k <= strlen s -> slice_from s (- k) = skipn (length s - Z.to_nat k) s.
Proof.
  intros Hk. unfold slice_from, slice.
  pose proof (strlen_nonneg s).
  destruct (Z.ltb_spec (- k) 0) as [_ |]; [| lia].
  destruct (Z.ltb_spec (strlen s) 0) as [| _]; [lia |].
  rewrite Z.max_l, Z.min_id by lia.
  replace (Z.to_nat (strlen s + - k)) with (length s - Z.to_nat k)%nat
    by (unfold strlen in *; lia).
  apply firstn_all2. rewrite length_skipn. unfold strlen in *. lia.
Qed.

(** The digits [divToDecimalString] lays out at a positive scale. *)
Lemma divToDecimalString_digits (numer denom scale : Z) :
  denom <> 0 -> 0 < scale ->
  exists head tail,
    divToDecimalString numer denom (Some scale)
    = Ok (sign_text (if xorb (numer <? 0) (denom <? 0) then Minus else Plus)
          ++ head ++ c_dot :: tail)
    /\ all_digits head /\ head <> [] /\ all_digits tail /\ strlen tail = scale
    /\ digits_value (head ++ tail) = (Z.abs numer * 10 ^ scale) / Z.abs denom.
Proof.
  intros Hden Hscale. unfold divToDecimalString.
  destruct (Z.eqb_spec denom 0) as [| _]; [contradiction |].
  destruct (Z.ltb_spec scale 0) as [| _]; [lia |].
  destruct (Z.ltb_spec 0 scale) as [_ |]; [| lia].
  rewrite pow10_spec by lia. cbn [bind].
  pose proof (pow_pos_10 scale ltac:(lia)) as Hp.
  rewrite !absBig_abs.
  rewrite Z.quot_div_nonneg by nia.
  set (i := (Z.abs numer * 10 ^ scale) / Z.abs denom).
  assert (Hi : 0 <= i) by (apply Z.div_pos; nia).
  destruct (BigInt_toString_nonneg i Hi) as (Hdig & Hval & Hne & _).
  set (s := padStart (BigInt_toString i) (scale + 1) c_zero).
  assert (Hs : all_digits s).
  { unfold s, padStart, repeat_unit. apply all_digits_app.
    split; [apply all_digits_repeat_zero | exact Hdig]. }
  assert (Hsv : digits_value s = i).
  { unfold s, padStart, repeat_unit.
    rewrite digits_value_app, digits_value_repeat_zero, Hval. lia. }
  assert (Hlen : scale + 1 <= strlen s).
  { unfold s, padStart, repeat_unit. rewrite strlen_app, strlen_repeat.
    pose proof (strlen_nonneg (BigInt_toString i)). lia. }
  rewrite (slice_drop_last s scale), (slice_from_last s scale) by lia.
  set (k := (length s - Z.to_nat scale)%nat).
  assert (Hk : (0 < k <= length s)%nat) by (unfold k, strlen in *; lia).
  assert (Hhead : firstn k s <> []).
  { intros H. apply (f_equal (@length N)) in H. rewrite length_firstn in H.
    cbn in H. lia. }
  rewrite (or_zero_nonempty _ Hhead).
  exists (firstn k s), (skipn k s).
  split.
  { do 2 f_equal. destruct (numer <? 0), (denom <? 0); reflexivity. }
  split; [apply all_digits_firstn, Hs |]. split; [exact Hhead |].
  split; [apply all_digits_skipn, Hs |].
  split; [unfold strlen in *; rewrite length_skipn; unfold k; lia |].
  rewrite firstn_skipn. exact Hsv.
Qed.

(** X23.  At a positive scale [divToDecimalString] prints an optional
    minus sign, a non-empty integer part, a point and exactly [scale]
    fraction digits, and those digits read together are the truncated
    quotient [|numer| * 10^scale / |denom|]: the display truncates, it never
    rounds. *)
Theorem divToDecimalString_shape (numer denom scale : Z) :
  denom <> 0 -> 0 < scale ->
  exists head tail,
    divToDecimalString numer denom (Some scale)
    = Ok (sign_text (if xorb (numer <? 0) (denom <? 0) then Minus else Plus)
          ++ head ++ c_dot :: tail)
    /\ all_digits head /\ head <> [] /\ all_digits tail /\ strlen tail = scale
    /\ digits_value (head ++ tail) = (Z.abs numer * 10 ^ scale) / Z.abs denom.
Proof. apply divToDecimalString_digits. Qed.

Lemma divToDecimalString_shape_witness :
  exists head tail,
    divToDecimalString (-2) 3 (Some 4)
    = Ok (sign_text Minus ++ head ++ c_dot :: tail)
    /\ all_digits head /\ head <> [] /\ all_digits tail /\ strlen tail = 4
    /\ digits_value (head ++ tail) = (Z.abs (-2) * 10 ^ 4) / Z.abs 3.
Proof. apply (divToDecimalString_shape (-2) 3 4); lia. Defined.

(** X24.  At scale 0 [divToDecimalString] loses the integer part: because
    [s.slice(0, -0)] is the empty string, the result is ["0"], or ["-0"]
    when the signs differ, whatever the quotient is. *)
Theorem divToDecimalString_scale_zero (numer denom : Z) :
  denom <> 0 ->
  divToDecimalString numer denom (Some 0)
  = Ok (sign_text (if xorb (numer <? 0) (denom <? 0) then Minus else Plus)
        ++ [c_zero]).
Proof.
  intros Hden. unfold divToDecimalString.
  destruct (Z.eqb_spec denom 0) as [| _]; [contradiction |].
  change (0 <? 0) with false. cbv iota.
  change (pow10 0) with (Ok 1). cbn [bind].
  set (s := padStart _ _ _).
  assert (Hslice : slice s 0 (- 0) = []).
  { unfold slice. change (- 0 <? 0) with false. change (0 <? 0) with false. cbv iota.
    pose proof (strlen_nonneg s). rewrite !Z.min_l by lia. reflexivity. }
  rewrite Hslice. cbn [or_zero]. rewrite app_nil_r.
  destruct (numer <? 0), (denom <? 0); reflexivity.
Qed.

Lemma divToDecimalString_scale_zero_witness :
  divToDecimalString 123 10 (Some 0) = Ok (lit "0").
Proof. apply (divToDecimalString_scale_zero 123 10). lia. Defined.

(** X25.  What [divToDecimalString] prints at a positive scale,
    [toMinor] reads back at the same number of decimals as the truncated
    quotient with its sign, under every mode. *)
Theorem toMinor_of_divToDecimalString (numer denom scale : Z)
  (mode : option Rounding) :
  denom <> 0 -> 0 < scale ->
  exists str,
    divToDecimalString numer denom (Some scale) = Ok str
    /\ toMinor str scale mode
       = Ok ((if xorb (numer <? 0) (denom <? 0) then -1 else 1)
             * ((Z.abs numer * 10 ^ scale) / Z.abs denom)).
Proof.
  intros Hden Hscale.
  destruct (divToDecimalString_digits numer denom scale Hden Hscale)
    as (head & tail & Hstr & Hhd & Hhne & Htd & Htl & Hval).
  eexists. split; [exact Hstr |].
  set (sg := if xorb (numer <? 0) (denom <? 0) then Minus else Plus) in *.
  pose proof (normalize_signed_digits_dot sg head tail Hhd Hhne Htd) as Hparse.
  destruct (toMinor_no_loss _ scale mode _ ltac:(lia) Hparse) as [Hto Hexact];
    [cbn [frac]; lia |].
  rewrite Hto. cbn [sign int frac] in *. f_equal.
  rewrite Htl in Hexact.
  pose proof (pow_pos_10 scale ltac:(lia)) as Hp.
  assert (HT : truncated_magnitude (mkParsed sg (or_zero (strip_leading_zeros head)) tail) scale
               = digits_value (head ++ tail)).
  { apply (Z.mul_reg_r _ _ (10 ^ scale)); [lia |]. rewrite Hexact. f_equal.
    rewrite !digits_value_app.
    destruct (int_norm_spec head) as (_ & _ & ->);
      [apply test_digits_spec; auto | reflexivity]. }
  rewrite HT, Hval. unfold sg.
  destruct (xorb (numer <? 0) (denom <? 0)); reflexivity.
Qed.

Lemma toMinor_of_divToDecimalString_witness :
  exists str,
    divToDecimalString 10000 (-6340065) (Some 8) = Ok str
    /\ toMinor str 8 None = Ok (-1 * ((Z.abs 10000 * 10 ^ 8) / Z.abs (-6340065))).
Proof. apply (toMinor_of_divToDecimalString 10000 (-6340065) 8 None); lia. Defined.

Lemma divToDecimalString_common_factor (a b c : Z) (scale : option Z) :
  0 < c -> b <> 0 ->
  divToDecimalString (a * c) (b * c) scale = divToDecimalString a b scale.
Proof.
  intros Hc Hb. unfold divToDecimalString.
  destruct (Z.eqb_spec (b * c) 0) as [H0 | _]; [nia |].
  destruct (Z.eqb_spec b 0) as [| _]; [contradiction |].
  destruct (_ <? 0); [reflexivity |].
  replace (a * c <? 0) with (a <? 0)
    by (destruct (Z.ltb_spec a 0), (Z.ltb_spec (a * c) 0); nia).
  replace (b * c <? 0) with (b <? 0)
    by (destruct (Z.ltb_spec b 0), (Z.ltb_spec (b * c) 0); nia).
  destruct (pow10 _) as [p |]; [| reflexivity]. cbn [bind].
  rewrite !absBig_abs, !Z.abs_mul, (Z.abs_eq c) by lia.
  replace (Z.abs a * c * p) with (Z.abs a * p * c) by ring.
  rewrite Z.quot_mul_cancel_r by lia. reflexivity.
Qed.

(** X26.  [avgFiatPricePerUnit] refuses a filled quantity that is zero or
    negative before anything else; with a positive one and non-negative
    decimals and scale it always succeeds, as [divToDecimalString] of
    [spent * 10^outDecimals] over [filled * 10^fiatDecimals], and adding the
    same number of decimals on both sides does not change the price. *)
Theorem avgFiatPricePerUnit_behaviour (filled spent outDec fiatDec : Z)
  (scale : option Z) :
  (filled <= 0 ->
   avgFiatPricePerUnit filled spent outDec fiatDec scale = Err InvalidQuantity)
  /\ (0 < filled -> 0 <= outDec -> 0 <= fiatDec ->
      0 <= match scale with Some s => s | None => 8 end ->
      avgFiatPricePerUnit filled spent outDec fiatDec scale
      = divToDecimalString (spent * 10 ^ outDec) (filled * 10 ^ fiatDec) scale
      /\ (exists str, avgFiatPricePerUnit filled spent outDec fiatDec scale = Ok str)
      /\ forall k, 0 <= k ->
           avgFiatPricePerUnit filled spent (outDec + k) (fiatDec + k) scale
           = avgFiatPricePerUnit filled spent outDec fiatDec scale).
Proof.
  split.
  - intros Hf. unfold avgFiatPricePerUnit.
    destruct (Z.leb_spec filled 0); [reflexivity | lia].
  - intros Hf Ho Hfi Hs.
    assert (Hval : forall o fi, 0 <= o -> 0 <= fi ->
              avgFiatPricePerUnit filled spent o fi scale
              = divToDecimalString (spent * 10 ^ o) (filled * 10 ^ fi) scale).
    { intros o fi Ho' Hfi'. unfold avgFiatPricePerUnit.
      destruct (Z.leb_spec filled 0); [lia |].
      destruct (Z.ltb_spec o 0); [lia |].
      destruct (Z.ltb_spec fi 0); [lia |].
      destruct (Z.ltb_spec (match scale with Some s => s | None => 8 end) 0); [lia |].
      rewrite !pow10_spec by assumption. cbn [bind].
      destruct scale; reflexivity. }
    split; [apply Hval; assumption |]. split.
    + rewrite Hval by assumption.
      pose proof (pow_pos_10 fiatDec Hfi) as Hp.
      destruct scale as [s |].
      * destruct (divToDecimalString_sign (spent * 10 ^ outDec) (filled * 10 ^ fiatDec) s)
          as (str & Hstr & _); [nia | exact Hs |]. exists str. exact Hstr.
      * eexists. unfold divToDecimalString.
        destruct (Z.eqb_spec (filled * 10 ^ fiatDec) 0); [nia |]. reflexivity.
    + intros k Hk. rewrite !Hval by lia.
      rewrite !Z.pow_add_r by assumption. rewrite !Z.mul_assoc.
      apply divToDecimalString_common_factor; [apply pow_pos_10, Hk |].
      pose proof (pow_pos_10 fiatDec Hfi). nia.
Qed.

Lemma avgFiatPricePerUnit_behaviour_witness :
  avgFiatPricePerUnit 0 10000 7 2 None = Err InvalidQuantity
  /\ avgFiatPricePerUnit 6340065 10000 (7 + 3) (2 + 3) None
     = avgFiatPricePerUnit 6340065 10000 7 2 None.
Proof.
  destruct (avgFiatPricePerUnit_behaviour 0 10000 7 2 None) as [H _].
  destruct (avgFiatPricePerUnit_behaviour 6340065 10000 7 2 None) as [_ H'].
  split; [apply H; lia |].
  destruct H' as (_ & _ & Hk); [lia | lia | lia | cbn; lia |].
  apply Hk. lia.
Defined.

(** X27.  [fromMinor] is a fixed-width codec: for positive [decimals] it
    prints a minus sign exactly for a negative amount, then a non-empty
    integer part, a point and exactly [decimals] digits, which read as
    [|minor|] split at [10^decimals]; for zero decimals it prints the sign
    and the integer digits alone. *)
Theorem fromMinor_fixed_width (minor decimals : Z) :
  (0 < decimals ->
   exists i f,
     fromMinor minor decimals
     = Ok (sign_text (if minor <? 0 then Minus else Plus) ++ i ++ c_dot :: f)
     /\ all_digits i /\ i <> [] /\ all_digits f /\ strlen f = decimals
     /\ digits_value i = Z.abs minor / 10 ^ decimals
     /\ digits_value f = Z.abs minor mod 10 ^ decimals)
  /\ (exists i,
        fromMinor minor 0
        = Ok (sign_text (if minor <? 0 then Minus else Plus) ++ i)
        /\ all_digits i /\ i <> [] /\ digits_value i = Z.abs minor).
Proof.
  assert (Habs : (if minor <? 0 then - minor else minor) = Z.abs minor)
    by (destruct (Z.ltb_spec minor 0); lia).
  assert (Hsg : forall body,
            (if minor <? 0 then [c_minus] else []) ++ body
            = sign_text (if minor <? 0 then Minus else Plus) ++ body)
    by (intros body; destruct (minor <? 0); reflexivity).
  split.
  - intros Hd. unfold fromMinor.
    destruct (Z.ltb_spec decimals 0) as [| _]; [lia |].
    rewrite pow10_spec by lia. cbn [bind]. rewrite Habs.
    destruct (Z.eqb_spec decimals 0) as [| _]; [lia |].
    pose proof (pow_pos_10 decimals ltac:(lia)) as Hp.
    destruct (Zquotrem_Zdiv_eucl_pos (Z.abs minor) (10 ^ decimals) ltac:(lia) Hp)
      as [-> ->].
    assert (Hi : 0 <= Z.abs minor / 10 ^ decimals) by (apply Z.div_pos; lia).
    pose proof (Z.mod_pos_bound (Z.abs minor) (10 ^ decimals) Hp) as Hf.
    destruct (BigInt_toString_nonneg _ Hi) as (Hdig & Hval & Hne & _).
    destruct (padStart_digits _ decimals ltac:(lia) Hf) as (Hfd & Hfl & Hfv).
    do 2 eexists. split; [apply f_equal, Hsg |]. auto 10.
  - unfold fromMinor. change (0 <? 0) with false. cbv iota.
    change (pow10 0) with (Ok 1). cbn [bind]. rewrite Habs, Z.quot_1_r.
    change (0 =? 0) with true. cbv iota.
    destruct (BigInt_toString_nonneg (Z.abs minor) (Z.abs_nonneg _))
      as (Hdig & Hval & Hne & _).
    eexists. split; [apply f_equal, Hsg |]. auto.
Qed.

Lemma fromMinor_fixed_width_witness :
  exists i f,
    fromMinor (-5) 3 = Ok (sign_text Minus ++ i ++ c_dot :: f)
    /\ all_digits i /\ i <> [] /\ all_digits f /\ strlen f = 3.
Proof.
  destruct (fromMinor_fixed_width (-5) 3) as [H _].
  destruct H as (i & f & H1 & H2 & H3 & H4 & H5 & _); [lia |].
  exists i, f. auto.
Defined.

(** X28.  For a price without a minus sign [priceRatioDecimals] and
    [toMinor] under [Floor] agree: the numerator of the ratio is what
    [toMinor] returns at [quoteDecimals] decimals, and the denominator is
    [10^quoteDecimals]. *)
Theorem priceRatioDecimals_is_toMinor_floor (quoteDecimals : Z)
  (priceStr : jsstring) (p : ParsedAmount) :
  0 <= quoteDecimals -> normalizeAmountInput priceStr = Ok p -> sign p = Plus ->
  exists r,
    priceRatioDecimals quoteDecimals priceStr = Ok r
    /\ toMinor priceStr quoteDecimals (Some Floor) = Ok (num r)
    /\ den r = 10 ^ quoteDecimals.
Proof.
  intros Hq Hparse Hsign.
  destruct (normalizeAmountInput_digits priceStr p Hparse) as (Hint & _ & Hfrac).
  unfold priceRatioDecimals.
  destruct (Z.ltb_spec quoteDecimals 0) as [| _]; [lia |].
  rewrite Hparse. cbn [bind]. rewrite Hsign.
  rewrite slice_prefix by assumption.
  rewrite (pad_or_truncate_take (frac p) quoteDecimals quoteDecimals) by lia.
  rewrite BigInt_of_digits
    by (apply all_digits_app; split; [exact Hint | apply pad_or_truncate_digits, Hfrac]).
  cbn [bind]. rewrite pow10_spec by assumption. cbn [bind].
  eexists. split; [reflexivity |]. cbn [num den]. split; [| reflexivity].
  rewrite (toMinor_magnitude priceStr quoteDecimals (Some Floor) p Hq Hparse).
  cbn [roundAdjust]. rewrite Hsign. cbn [sign_Z]. f_equal.
  rewrite digits_value_app, pad_or_truncate_length by assumption.
  rewrite truncated_magnitude_eq by assumption.
  destruct (N.eqb _ c_zero); lia.
Qed.

Lemma priceRatioDecimals_is_toMinor_floor_witness :
  exists r,
    priceRatioDecimals 2 (lit "5.4321") = Ok r
    /\ toMinor (lit "5.4321") 2 (Some Floor) = Ok (num r)
    /\ den r = 10 ^ 2.
Proof.
  apply (priceRatioDecimals_is_toMinor_floor 2 (lit "5.4321")
           (mkParsed Plus (lit "5") (lit "4321"))); [lia | reflexivity | reflexivity].
Defined.

(** ** The chain adapters *)

(** X29.  Each adapter's codec round-trips at its default precision: what
    [evmFromMinor] (18), [solanaFromMinor] (9), [cosmosFromMinor] (6),
    [stellarFromMinor] and [stellarClassicFromMinor] (7) print for any
    integer amount, the matching [ToMinor] reads back as that amount; the
    same holds at any explicit non-negative precision. *)
Theorem adapters_roundtrip (m : Z) :
  (exists s, evmFromMinor m None = Ok s /\ evmToMinor s None = Ok m)
  /\ (exists s, solanaFromMinor m None = Ok s /\ solanaToMinor s None = Ok m)
  /\ (exists s, cosmosFromMinor m None = Ok s /\ cosmosToMinor s None = Ok m)
  /\ (exists s, stellarFromMinor m None = Ok s /\ stellarToMinor s None = Ok m)
  /\ (exists s, stellarClassicFromMinor m = Ok s /\ stellarClassicToMinor s = Ok m)
  /\ (forall d, 0 <= d ->
        (exists s, evmFromMinor m (Some d) = Ok s /\ evmToMinor s (Some d) = Ok m)
        /\ (exists s, solanaFromMinor m (Some d) = Ok s /\ solanaToMinor s (Some d) = Ok m)
        /\ (exists s, cosmosFromMinor m (Some d) = Ok s /\ cosmosToMinor s (Some d) = Ok m)
        /\ (exists s, stellarFromMinor m (Some d) = Ok s /\ stellarToMinor s (Some d) = Ok m)).
Proof.
  unfold evmFromMinor, evmToMinor, solanaFromMinor, solanaToMinor,
    cosmosFromMinor, cosmosToMinor, stellarFromMinor, stellarToMinor,
    stellarClassicFromMinor, stellarClassicToMinor, default_decimals.
  split; [apply toMinor_of_fromMinor_signed; lia |].
  split; [apply toMinor_of_fromMinor_signed; lia |].
  split; [apply toMinor_of_fromMinor_signed; lia |].
  split; [apply toMinor_of_fromMinor_signed; lia |].
  split; [apply toMinor_of_fromMinor_signed; lia |].
  intros d Hd.
  split; [apply toMinor_of_fromMinor_signed, Hd |].
  split; [apply toMinor_of_fromMinor_signed, Hd |].
  split; apply toMinor_of_fromMinor_signed, Hd.
Qed.

Lemma adapters_roundtrip_witness :
  exists s, cosmosFromMinor (-1500000) (Some 3) = Ok s
            /\ cosmosToMinor s (Some 3) = Ok (-1500000).
Proof.
  destruct (adapters_roundtrip (-1500000)) as (_ & _ & _ & _ & _ & H).
  destruct (H 3) as (_ & _ & Hc & _); [lia | exact Hc].
Defined.

(** ** The registry and the EVM resolver *)

Lemma map_get_set_same (k : jsstring) (v : number) (m : JsMap) :
  map_get k (map_set k v m) = Some v.
Proof.
  induction m as [| [k' v'] m IH]; cbn [map_set map_get].
  - destruct (list_eq_dec N.eq_dec k k); [reflexivity | congruence].
  - destruct (list_eq_dec N.eq_dec k k') as [Heq | Hne]; cbn [map_get].
    + destruct (list_eq_dec N.eq_dec k k); [reflexivity | congruence].
    + destruct (list_eq_dec N.eq_dec k k'); [contradiction | exact IH].
Qed.

Lemma map_get_set_other (k k' : jsstring) (v : number) (m : JsMap) :
  k <> k' -> map_get k' (map_set k v m) = map_get k' m.
Proof.
  intros Hne. induction m as [| [k0 v0] m IH]; cbn [map_set map_get].
  - destruct (list_eq_dec N.eq_dec k' k); [congruence | reflexivity].
  - destruct (list_eq_dec N.eq_dec k k0) as [Heq | Hne0]; cbn [map_get].
    + subst k0. destruct (list_eq_dec N.eq_dec k' k); [congruence | reflexivity].
    + destruct (list_eq_dec N.eq_dec k' k0); [reflexivity | exact IH].
Qed.

(** X30.  In [evmResolveDecimals] an entry stored under the asset's id,
    which needs a non-empty address and a chain id, wins over every symbol
    entry, also one set afterwards; without an address a symbol entry is
    found whatever the case of the symbol, as far as [toUpperCase] equates
    the two spellings; and with nothing to look up or nothing stored the
    fallback comes back, 18 when none is given.  Storing under a symbol
    never changes a lookup by id, nor the other way round. *)
Theorem evmResolveDecimals_priority
  (toUpperCase : jsstring -> jsstring) (Number_toString : number -> jsstring)
  (reg : Registry) :
  (forall sym a0 addr c dec fallback,
      let id := mkAssetId Evm (or_empty sym) (Some (a0 :: addr)) None (Some c) in
      let params := Some (mkEvmParams sym (Some (a0 :: addr)) (Some c)) in
      evmResolveDecimals toUpperCase Number_toString
        (DEC_setById toUpperCase Number_toString reg id dec) params fallback = dec
      /\ forall s' dec',
           evmResolveDecimals toUpperCase Number_toString
             (DEC_set toUpperCase
                (DEC_setById toUpperCase Number_toString reg id dec) s' dec')
             params fallback = dec)
  /\ (forall s s0 s' cid dec fallback,
         toUpperCase (s0 :: s') = toUpperCase s ->
         evmResolveDecimals toUpperCase Number_toString
           (DEC_set toUpperCase reg s dec)
           (Some (mkEvmParams (Some (s0 :: s')) None cid)) fallback = dec)
  /\ (forall fallback,
         evmResolveDecimals toUpperCase Number_toString reg None fallback
         = match fallback with Some f => f | None => number_of_Z 18 end)
  /\ (forall params fallback,
         evmResolveDecimals toUpperCase Number_toString (mkRegistry [] []) params fallback
         = match fallback with Some f => f | None => number_of_Z 18 end)
  /\ (forall s dec id,
         DEC_getById toUpperCase Number_toString (DEC_set toUpperCase reg s dec) id
         = DEC_getById toUpperCase Number_toString reg id)
  /\ (forall s dec id,
         DEC_get toUpperCase (DEC_setById toUpperCase Number_toString reg id dec) s
         = DEC_get toUpperCase reg s).
Proof.
  split; [| split; [| split; [| split; [| split]]]].
  - intros sym a0 addr c dec fallback id params. split.
    + unfold evmResolveDecimals, params. cbn [evm_symbol evm_address evm_chainId truthy].
      fold id. unfold DEC_getById, DEC_setById. cbn [byId].
      rewrite map_get_set_same. reflexivity.
    + intros s' dec'.
      unfold evmResolveDecimals, params. cbn [evm_symbol evm_address evm_chainId truthy].
      fold id. unfold DEC_getById, DEC_set, DEC_setById. cbn [byId].
      rewrite map_get_set_same. reflexivity.
  - intros s s0 s' cid dec fallback Hup.
    unfold evmResolveDecimals. cbn [evm_symbol evm_address evm_chainId truthy or_empty].
    assert (Hget : DEC_get toUpperCase (DEC_set toUpperCase reg s dec) (s0 :: s') = Some dec).
    { unfold DEC_get, DEC_set. cbn [bySymbol]. rewrite Hup. apply map_get_set_same. }
    rewrite Hget. destruct cid; reflexivity.
  - intros fallback. reflexivity.
  - intros params fallback. unfold evmResolveDecimals.
    destruct params as [[sym addr cid] |]; cbn [evm_symbol evm_address evm_chainId];
      [| reflexivity].
    unfold DEC_getById, DEC_get. cbn [byId bySymbol map_get].
    destruct cid, (truthy addr), (truthy sym); reflexivity.
  - intros s dec id. reflexivity.
  - intros s dec id. reflexivity.
Qed.

Lemma evmResolveDecimals_priority_witness :
  evmResolveDecimals (fun s => s) (fun _ => lit "1")
    (DEC_set (fun s => s) (mkRegistry [] []) (lit "WBTC") (number_of_Z 8))
    (Some (mkEvmParams (Some (lit "WBTC")) None None)) None
  = number_of_Z 8.
Proof.
  destruct (evmResolveDecimals_priority (fun s => s) (fun _ => lit "1")
              (mkRegistry [] [])) as (_ & H & _).
  apply (H (lit "WBTC") 87%N (lit "BTC") None (number_of_Z 8) None). reflexivity.
Defined.

(** The two six-decimal defaults are found whatever [toUpperCase] does to
    the other default symbols. *)
Lemma initial_registry_six (toUpperCase : jsstring -> jsstring) :
  DEC_get toUpperCase (initial_registry toUpperCase) (lit "USDT") = Some (number_of_Z 6)
  /\ DEC_get toUpperCase (initial_registry toUpperCase) (lit "USDC") = Some (number_of_Z 6).
Proof.
  unfold initial_registry, DEC_get, DEC_set. cbn [bySymbol]. split.
  - apply map_get_set_same.
  - destruct (list_eq_dec N.eq_dec (toUpperCase (lit "USDT")) (toUpperCase (lit "USDC")))
      as [Heq | Hne].
    + rewrite <- Heq. apply map_get_set_same.
    + rewrite map_get_set_other by exact Hne. apply map_get_set_same.
Qed.
